(** * mmfPlayer: the MMF/SMAF parser and the Web Audio playback scheduler

    A shallow embedding of the class [MMFParser] (lib/mmf-parser.ts) and of
    the class [MMFPlayer] (lib/mmf-player.ts), with the properties of the
    design document that are stated about them.

    The sources hold two revisions of the parser.  The development follows
    the one whose [parseMTR] reads the five-byte sub-header of a
    music-track chunk, which is the one the design document describes; the
    functions of the other revision that differ are in [LibRevision].

    Conventions of the embedding.
    - A [Uint8Array] is a [list byte]; an index outside of it reads
      [undefined], which is [None] here.
    - [this.position] is threaded explicitly: a reader takes the position
      and returns the value read together with the new position.
    - JavaScript numbers that hold integers (positions, sizes, bytes) are
      [Z]; the bit operators go through [ToInt32] and wrap at 32 bits.
    - Times in milliseconds and seconds are [Q]: the arithmetic of the
      source ([+], [*], [/] on doubles) is taken exactly, without the
      rounding of IEEE 754.
    - Loops run on fuel; each loop comes with the lemma that the fuel it is
      given by its caller is never exhausted. *)

From Stdlib Require Import Strings.Byte Strings.Ascii Strings.String.
From Stdlib Require Import ZArith QArith Qround Qminmax Bool Lia Lqa.
From Stdlib Require Import List Sorting.Sorted.
Import ListNotations.

Local Open Scope Z_scope.

(* ================================================================== *)
(** ** JavaScript values and operators used by the sources *)
(* ================================================================== *)

Module Js.

(** A string is its sequence of UTF-16 code units. *)
Definition jsstring := list Z.

(** A string literal of the source (ASCII only). *)
Definition lit (s : string) : jsstring :=
  map (fun a => Z.of_N (N_of_ascii a)) (list_ascii_of_string s).

Definition string_eqb (a b : jsstring) : bool :=
  if list_eq_dec Z.eq_dec a b then true else false.

(** The number held by one element of a [Uint8Array]. *)
Definition byte_value (b : byte) : Z := Z.of_N (Byte.to_N b).

(** The byte whose value is [z mod 256] (to write buffers down). *)
Definition byte_of (z : Z) : byte :=
  match Byte.of_N (Z.to_N (z mod 256)) with
  | Some b => b
  | None => x00
  end.

(** [ToInt32] on an integral number, and on [undefined] (which is 0). *)
Definition ToInt32 (z : Z) : Z := (z + 2 ^ 31) mod 2 ^ 32 - 2 ^ 31.

Definition ToInt32_opt (v : option Z) : Z :=
  match v with
  | Some z => ToInt32 z
  | None => 0
  end.

(** [a << k], [a | b], [a & b] and [a >>> 0]. *)
Definition shl (a : Z) (k : Z) : Z := ToInt32 (Z.shiftl (ToInt32 a) k).
Definition bor (a b : Z) : Z := Z.lor (ToInt32 a) (ToInt32 b).
Definition band (a b : Z) : Z := Z.land (ToInt32 a) (ToInt32 b).
Definition ToUint32 (a : Z) : Z := a mod 2 ^ 32.

(** Comparisons of a possibly [undefined] value with a number:
    [undefined] converts to NaN and every comparison with it is false. *)
Definition ge (v : option Z) (n : Z) : bool :=
  match v with Some z => n <=? z | None => false end.
Definition le (v : option Z) (n : Z) : bool :=
  match v with Some z => z <=? n | None => false end.
Definition gt (v : option Z) (n : Z) : bool :=
  match v with Some z => n <? z | None => false end.
Definition lt (v : option Z) (n : Z) : bool :=
  match v with Some z => z <? n | None => false end.
Definition strict_eq (v : option Z) (n : Z) : bool :=
  match v with Some z => z =? n | None => false end.

(** [Math.round]: the nearest integer, a tie going up. *)
Definition Math_round (q : Q) : Z := Qfloor (q + (1 # 2)).

(** White space removed by [String.prototype.trim]: the WhiteSpace and
    LineTerminator code points of ECMAScript. *)
Definition is_white_space (c : Z) : bool :=
  (c =? 0x09) || (c =? 0x0A) || (c =? 0x0B) || (c =? 0x0C) || (c =? 0x0D)
  || (c =? 0x20) || (c =? 0xA0) || (c =? 0x1680)
  || ((0x2000 <=? c) && (c <=? 0x200A))
  || (c =? 0x2028) || (c =? 0x2029) || (c =? 0x202F) || (c =? 0x205F)
  || (c =? 0x3000) || (c =? 0xFEFF).

Fixpoint trim_start (s : jsstring) : jsstring :=
  match s with
  | c :: s' => if is_white_space c then trim_start s' else s
  | [] => []
  end.

Definition trim (s : jsstring) : jsstring :=
  rev (trim_start (rev (trim_start s))).

(** [s.replace(/\0/g, '')]. *)
Definition remove_nul (s : jsstring) : jsstring :=
  filter (fun c => negb (c =? 0)) s.

(** [String.fromCharCode(...bytes)]. *)
Definition fromCharCode (bytes : list byte) : jsstring :=
  map byte_value bytes.

(** [TypedArray.prototype.slice(start, end)] for integral arguments;
    an [undefined] or NaN bound is 0. *)
Definition slice {A} (l : list A) (start end_ : Z) : list A :=
  let len := Z.of_nat (length l) in
  let k := if start <? 0 then Z.max (len + start) 0 else Z.min start len in
  let final := if end_ <? 0 then Z.max (len + end_) 0 else Z.min end_ len in
  firstn (Z.to_nat (final - k)) (skipn (Z.to_nat k) l).

End Js.

(* ================================================================== *)
(** ** lib/mmf-parser.ts: the data model *)
(* ================================================================== *)

Definition DEFAULT_NOTE_DURATION_MS : Q := 250.

Module MMFNote.
Record t := mk {
  time : Q;        (* Time in milliseconds *)
  note : Z;        (* MIDI note number *)
  duration : Q;    (* Duration in milliseconds *)
  velocity : Z;
  channel : Z
}.
End MMFNote.

(** The values [tempo] can hold: [Math.round] of a quotient is an integer,
    or [Infinity] when the divisor is 0. *)
Inductive Tempo :=
| BPM (n : Z)
| Infinity.

Module MMFMetadata.
Record t := mk {
  title : option Js.jsstring;
  composer : option Js.jsstring;
  arranger : option Js.jsstring;
  copyright : option Js.jsstring
}.
Definition empty : t := mk None None None None.
End MMFMetadata.

Module MMFData.
Record t := mk {
  metadata : MMFMetadata.t;
  notes : list MMFNote.t;
  duration : Q;    (* Total duration in milliseconds *)
  tempo : Tempo    (* Tempo in BPM *)
}.
End MMFData.

Module ChunkInfo.
Record t := mk {
  type : Js.jsstring;
  size : Z;
  offset : Z
}.
End ChunkInfo.

(** What [parseMTR] returns: [{ notes, tempo }] with [tempo] optional. *)
Module TrackData.
Record t := mk {
  notes : list MMFNote.t;
  tempo : option Tempo
}.
End TrackData.

(** [tempo = Math.round(60000000 / microsecondsPerBeat)].  The divisor is
    an integer below 2^24, so the double quotient rounds to the same
    integer as the exact one; a zero divisor gives [Infinity]. *)
Definition tempo_of_microseconds (microsecondsPerBeat : Z) : Tempo :=
  if microsecondsPerBeat =? 0 then Infinity
  else BPM (Js.Math_round (60000000 / inject_Z microsecondsPerBeat)).

(** Truthiness of [trackData.tempo]. *)
Definition tempo_truthy (t : option Tempo) : bool :=
  match t with
  | None => false
  | Some (BPM n) => negb (n =? 0)
  | Some Infinity => true
  end.

(* ================================================================== *)
(** ** The byte cursor of [MMFParser] *)
(* ================================================================== *)

Section Cursor.

(** [this.data] *)
Variable data : list byte.

(** [this.data[i]] *)
Definition data_at (i : Z) : option Z :=
  if (0 <=? i) && (i <? Z.of_nat (length data))
  then option_map Js.byte_value (nth_error data (Z.to_nat i))
  else None.

(** [readUInt8]: [return this.data[this.position++]] *)
Definition readUInt8 (position : Z) : option Z * Z :=
  (data_at position, position + 1).

(** [readUInt16BE] *)
Definition readUInt16BE (position : Z) : Z * Z :=
  (Js.bor (Js.shl (Js.ToInt32_opt (data_at position)) 8)
          (Js.ToInt32_opt (data_at (position + 1))),
   position + 2).

(** [readUInt24BE] *)
Definition readUInt24BE (position : Z) : Z * Z :=
  (Js.bor (Js.bor (Js.shl (Js.ToInt32_opt (data_at position)) 16)
                  (Js.shl (Js.ToInt32_opt (data_at (position + 1))) 8))
          (Js.ToInt32_opt (data_at (position + 2))),
   position + 3).

(** [readUInt32BE]; the final [value >>> 0] makes it unsigned. *)
Definition readUInt32BE (position : Z) : Z * Z :=
  (Js.ToUint32
     (Js.bor (Js.bor (Js.bor (Js.shl (Js.ToInt32_opt (data_at position)) 24)
                             (Js.shl (Js.ToInt32_opt (data_at (position + 1))) 16))
                     (Js.shl (Js.ToInt32_opt (data_at (position + 2))) 8))
             (Js.ToInt32_opt (data_at (position + 3)))),
   position + 4).

(** The [do ... while (byte & 0x80)] of [readVariableLength], over the
    bytes from the cursor on; past the end of the buffer the byte is
    [undefined], [byte & 0x7F] and [byte & 0x80] are 0 and the loop
    stops. *)
Fixpoint readVariableLength_loop (rest : list byte) (value position : Z)
  : Z * Z :=
  match rest with
  | [] => (Js.bor (Js.shl value 7) 0, position + 1)
  | b :: rest' =>
      let byte := Js.byte_value b in
      let value := Js.bor (Js.shl value 7) (Js.band byte 0x7F) in
      if Js.band byte 0x80 =? 0 then (value, position + 1)
      else readVariableLength_loop rest' value (position + 1)
  end.

(** [readVariableLength(firstByte)].  Its one call site passes the
    status byte, so the default [?? this.readUInt8()] of the optional
    parameter is not part of the model. *)
Definition readVariableLength (firstByte : Z) (position : Z) : Z * Z :=
  let value := firstByte in
  if Js.band value 0x80 =? 0 then (value, position)
  else
    let value := Js.band value 0x7F in
    readVariableLength_loop (Js.slice data position (Z.of_nat (length data)))
                            value position.

End Cursor.

(* ================================================================== *)
(** ** [MMFParser.parseMTR]: the music-track decoder *)
(* ================================================================== *)

(** The variables of the event loop of [parseMTR]. *)
Module MTRLoop.
Record t := mk {
  position : Z;
  currentTime : Q;
  notes : list MMFNote.t;
  tempo : option Tempo
}.
Definition at_position (st : t) (p : Z) : t :=
  mk p (currentTime st) (notes st) (tempo st).
End MTRLoop.

(** The five fields at the head of a music-track chunk. *)
Module SubHeader.
Record t := mk {
  formatType : option Z;
  sequenceType : option Z;
  timeBaseD : option Z;
  timeBaseG : option Z;
  channelStatus : option Z
}.
End SubHeader.

(** How one pass through a loop body ends. *)
Inductive Flow := Continue | Break.

Section TrackDecoder.

Variable data : list byte.

(** The head of [parseMTR]: the five reads, each followed by the test
    [if (this.position >= endPos) { this.position = endPos; return }].
    [None] is that early return. *)
Definition parseMTR_subheader (endPos position : Z)
  : option (SubHeader.t * Z) :=
  if position >=? endPos then None else
  let '(formatType, position) := readUInt8 data position in
  if position >=? endPos then None else
  let '(sequenceType, position) := readUInt8 data position in
  if position >=? endPos then None else
  let '(timeBaseD, position) := readUInt8 data position in
  if position >=? endPos then None else
  let '(timeBaseG, position) := readUInt8 data position in
  if position >=? endPos then None else
  let '(channelStatus, position) := readUInt8 data position in
  if position >=? endPos then None else
  Some (SubHeader.mk formatType sequenceType timeBaseD timeBaseG
                     channelStatus, position).

(** [const tickDuration = timeBaseD > 0 ? msPerQuarterNote / timeBaseD : 1] *)
Definition msPerQuarterNote : Q := 500.

Definition tickDuration_of (timeBaseD : option Z) : Q :=
  match timeBaseD with
  | Some d => if d >? 0 then msPerQuarterNote / inject_Z d else 1
  | None => 1
  end.

(** The last statement of the loop body:
    [if (this.position >= endPos) break;] *)
Definition parseMTR_fallthrough (endPos : Z) (st : MTRLoop.t) (position : Z)
  : Flow * MTRLoop.t :=
  if position >=? endPos then (Break, MTRLoop.at_position st position)
  else (Continue, MTRLoop.at_position st position).

(** One pass through the body of
    [while (this.position < endPos - 1) { ... }]. *)
Definition parseMTR_iteration (endPos : Z) (tickDuration : Q)
    (st : MTRLoop.t) : Flow * MTRLoop.t :=
  let '(status, position) := readUInt8 data (MTRLoop.position st) in
  match status with
  | None => parseMTR_fallthrough endPos st position
  | Some status =>
    (* Note off: 0x80-0x8F *)
    if (0x80 <=? status) && (status <=? 0x8F) then
      if position + 2 >? endPos then (Break, MTRLoop.at_position st position)
      else
        let '(note, position) := readUInt8 data position in
        let '(velocity, position) := readUInt8 data position in
        (Continue, MTRLoop.at_position st position)
    (* Note on: 0x90-0x9F *)
    else if (0x90 <=? status) && (status <=? 0x9F) then
      let channel := Js.band status 0x0F in
      if position + 2 >? endPos then (Break, MTRLoop.at_position st position)
      else
        let '(note, position) := readUInt8 data position in
        let '(velocity, position) := readUInt8 data position in
        match note, velocity with
        | Some note, Some velocity =>
            if velocity >? 0 then
              (Continue,
               MTRLoop.mk position (MTRLoop.currentTime st)
                 (MTRLoop.notes st ++
                  [MMFNote.mk (MTRLoop.currentTime st) note
                     DEFAULT_NOTE_DURATION_MS velocity channel])
                 (MTRLoop.tempo st))
            else (Continue, MTRLoop.at_position st position)
        | _, _ =>
            (* [velocity] is undefined and [velocity > 0] is false; the
               note byte is read first, so it is defined whenever the
               velocity byte is *)
            (Continue, MTRLoop.at_position st position)
        end
    (* Tempo change: 0xFF 0x51 0x03 *)
    else if status =? 0xFF then
      if position + 2 >? endPos then (Break, MTRLoop.at_position st position)
      else
        let '(metaType, position) := readUInt8 data position in
        let '(length, position) := readUInt8 data position in
        if Js.strict_eq metaType 0x51 && Js.strict_eq length 3
           && (position + 3 <=? endPos)
        then
          let '(microsecondsPerBeat, position) := readUInt24BE data position in
          (Continue,
           MTRLoop.mk position (MTRLoop.currentTime st) (MTRLoop.notes st)
             (Some (tempo_of_microseconds microsecondsPerBeat)))
        else
          (* Skip meta event data *)
          match length with
          | Some length =>
              if position + length <=? endPos
              then (Continue, MTRLoop.at_position st (position + length))
              else (Break, MTRLoop.at_position st position)
          | None =>
              (* [position + undefined <= endPos] is false *)
              (Break, MTRLoop.at_position st position)
          end
    (* Delta time (variable length) *)
    else if status <? 0x80 then
      let '(deltaTime, position) := readVariableLength data status position in
      (Continue,
       MTRLoop.mk position
         (MTRLoop.currentTime st + inject_Z deltaTime * tickDuration)%Q
         (MTRLoop.notes st) (MTRLoop.tempo st))
    (* Control change, program change, etc - skip *)
    else if (0xB0 <=? status) && (status <=? 0xEF) then
      let dataBytes :=
        if (0xC0 <=? status) && (status <=? 0xDF) then 1 else 2 in
      if position + dataBytes <=? endPos
      then (Continue, MTRLoop.at_position st (position + dataBytes))
      else (Break, MTRLoop.at_position st position)
    else parseMTR_fallthrough endPos st position
  end.

(** [while (this.position < endPos - 1) { ... }]; [None] when the fuel
    runs out. *)
Fixpoint parseMTR_loop (fuel : nat) (endPos : Z) (tickDuration : Q)
    (st : MTRLoop.t) : option MTRLoop.t :=
  if MTRLoop.position st <? endPos - 1 then
    match fuel with
    | O => None
    | S fuel' =>
        match parseMTR_iteration endPos tickDuration st with
        | (Continue, st') => parseMTR_loop fuel' endPos tickDuration st'
        | (Break, st') => Some st'
        end
    end
  else Some st.

(** Every pass reads at least the status byte, so the distance to
    [endPos] is enough fuel. *)
Definition parseMTR_fuel (endPos position : Z) : nat :=
  Z.to_nat (endPos - position).

(** [parseMTR(chunk)], called with the cursor at [position]; returns the
    track and the cursor, which every return path sets to [endPos]. *)
Definition parseMTR (chunk : ChunkInfo.t) (position : Z)
  : option (TrackData.t * Z) :=
  let endPos := ChunkInfo.offset chunk + ChunkInfo.size chunk in
  match parseMTR_subheader endPos position with
  | None => Some (TrackData.mk [] None, endPos)
  | Some (h, position) =>
      let tickDuration := tickDuration_of (SubHeader.timeBaseD h) in
      match parseMTR_loop (parseMTR_fuel endPos position) endPos tickDuration
              (MTRLoop.mk position 0 [] None) with
      | None => None
      | Some st =>
          Some (TrackData.mk (MTRLoop.notes st) (MTRLoop.tempo st), endPos)
      end
  end.

End TrackDecoder.

(** Buffers are written as lists of numbers. *)
Definition bytes (l : list Z) : list byte := map Js.byte_of l.

(* ================================================================== *)
(** ** [MMFParser]: strings, chunk headers, the content-information chunk *)
(* ================================================================== *)

(** How a call ends: with a value, with an exception, or (in this
    embedding only) with its loops out of fuel. *)
Inductive Outcome (A : Type) :=
| Returned (a : A)
| Thrown (message : string)
| OutOfFuel.
Arguments Returned {A} a.
Arguments Thrown {A} message.
Arguments OutOfFuel {A}.

(** The message of the one [throw] of [parse]. *)
Definition InvalidFormat : string :=
  "Invalid MMF file: MMMD header not found"%string.

(** The variables of the chunk loop of [parse].  [chunks] is not in the
    source: it records the chunk headers the loop has read, in order. *)
Module ChunkLoop.
Record t := mk {
  position : Z;
  metadata : MMFMetadata.t;
  notes : list MMFNote.t;
  tempo : Tempo;
  chunks : list ChunkInfo.t
}.
End ChunkLoop.

Section Parser.

(** [new TextDecoder('shift-jis')] belongs to the platform: [Some decode]
    is a platform that knows the label, [None] one where the constructor
    throws and [readString] falls back to [String.fromCharCode]. *)
Variable TextDecoder_shift_jis : option (list byte -> Js.jsstring).

Variable data : list byte.

(** The text of [bytes]: decoded, NULs removed, trimmed. *)
Definition decode_text (bytes : list byte) : Js.jsstring :=
  match TextDecoder_shift_jis with
  | Some decode => Js.trim (Js.remove_nul (decode bytes))
  | None => Js.trim (Js.remove_nul (Js.fromCharCode bytes))
  end.

(** [readString(length)] *)
Definition readString (length : Z) (position : Z) : Js.jsstring * Z :=
  let bytes := Js.slice data position (position + length) in
  (decode_text bytes, position + length).

(** [verifyHeader] *)
Definition verifyHeader (position : Z) : bool * Z :=
  let '(header, position) := readString 4 position in
  (Js.string_eqb header (Js.lit "MMMD"), position).

(** [readChunkHeader]; [None] is [null]. *)
Definition readChunkHeader (position : Z) : option (ChunkInfo.t * Z) :=
  if position >=? Z.of_nat (length data) - 8 then None
  else
    let '(type, position) := readString 4 position in
    let '(size, position) := readUInt32BE data position in
    let offset := position in
    Some (ChunkInfo.mk type size offset, position).

(** The [switch (contentType)] of [parseCNTI]. *)
Definition set_content (metadata : MMFMetadata.t) (contentType : option Z)
    (content : Js.jsstring) : MMFMetadata.t :=
  match contentType with
  | Some 0x00 =>
      MMFMetadata.mk (Some content) (MMFMetadata.composer metadata)
        (MMFMetadata.arranger metadata) (MMFMetadata.copyright metadata)
  | Some 0x01 =>
      MMFMetadata.mk (MMFMetadata.title metadata) (Some content)
        (MMFMetadata.arranger metadata) (MMFMetadata.copyright metadata)
  | Some 0x02 =>
      MMFMetadata.mk (MMFMetadata.title metadata) (MMFMetadata.composer metadata)
        (Some content) (MMFMetadata.copyright metadata)
  | Some 0x03 =>
      MMFMetadata.mk (MMFMetadata.title metadata) (MMFMetadata.composer metadata)
        (MMFMetadata.arranger metadata) (Some content)
  | _ => metadata
  end.

(** One pass through the body of [while (this.position < endPos - 2)]. *)
Definition parseCNTI_iteration (endPos : Z) (metadata : MMFMetadata.t)
    (position : Z) : Flow * (MMFMetadata.t * Z) :=
  let '(contentType, position) := readUInt8 data position in
  let '(contentSize, position) := readUInt8 data position in
  match contentSize with
  | Some contentSize =>
      if (contentSize =? 0) || (position + contentSize >? endPos)
      then (Break, (metadata, position))
      else
        let '(content, position) := readString contentSize position in
        (Continue, (set_content metadata contentType content, position))
  | None =>
      (* [contentSize] is undefined: both tests of the [if] are false,
         [readString(undefined)] slices no byte and makes the position
         NaN, and the loop guard is false on NaN *)
      (Break, (set_content metadata contentType (decode_text []), position))
  end.

Fixpoint parseCNTI_loop (fuel : nat) (endPos : Z) (metadata : MMFMetadata.t)
    (position : Z) : option (MMFMetadata.t * Z) :=
  if position <? endPos - 2 then
    match fuel with
    | O => None
    | S fuel' =>
        match parseCNTI_iteration endPos metadata position with
        | (Continue, (metadata', position')) =>
            parseCNTI_loop fuel' endPos metadata' position'
        | (Break, r) => Some r
        end
    end
  else Some (metadata, position).

(** [parseCNTI(chunk)]; the cursor is set to [endPos] at the end. *)
Definition parseCNTI (chunk : ChunkInfo.t) (position : Z)
  : option (MMFMetadata.t * Z) :=
  let endPos := ChunkInfo.offset chunk + ChunkInfo.size chunk in
  match parseCNTI_loop (Z.to_nat (endPos - position)) endPos
          MMFMetadata.empty position with
  | Some (metadata, _) => Some (metadata, endPos)
  | None => None
  end.

(** [Object.assign(metadata, source)]: the fields present in [source]
    replace those of [metadata]. *)
Definition Object_assign (metadata source : MMFMetadata.t) : MMFMetadata.t :=
  let pick (old new : option Js.jsstring) :=
    match new with Some _ => new | None => old end in
  MMFMetadata.mk
    (pick (MMFMetadata.title metadata) (MMFMetadata.title source))
    (pick (MMFMetadata.composer metadata) (MMFMetadata.composer source))
    (pick (MMFMetadata.arranger metadata) (MMFMetadata.arranger source))
    (pick (MMFMetadata.copyright metadata) (MMFMetadata.copyright source)).

(* ================================================================== *)
(** ** [MMFParser.parse] *)
(* ================================================================== *)

(** The [switch (chunk.type)] of [parse], with the cursor just after the
    chunk header; [None] when a chunk parser runs out of fuel. *)
Definition parse_dispatch (chunk : ChunkInfo.t) (st : ChunkLoop.t)
    (position : Z) : option ChunkLoop.t :=
  let type := ChunkInfo.type chunk in
  let chunks := ChunkLoop.chunks st ++ [chunk] in
  if Js.string_eqb type (Js.lit "CNTI") || Js.string_eqb type (Js.lit "OPDA")
  then
    (* Parse content info and optional data chunks *)
    match parseCNTI chunk position with
    | Some (parsed, position) =>
        Some (ChunkLoop.mk position
                (Object_assign (ChunkLoop.metadata st) parsed)
                (ChunkLoop.notes st) (ChunkLoop.tempo st) chunks)
    | None => None
    end
  else if Js.string_eqb type (Js.lit "MTR ") || Js.string_eqb type (Js.lit "Mtr ")
  then
    (* Parse music track chunk *)
    match parseMTR data chunk position with
    | Some (trackData, position) =>
        Some (ChunkLoop.mk position (ChunkLoop.metadata st)
                (ChunkLoop.notes st ++ TrackData.notes trackData)
                (match TrackData.tempo trackData with
                 | Some t =>
                     if tempo_truthy (Some t) then t else ChunkLoop.tempo st
                 | None => ChunkLoop.tempo st
                 end)
                chunks)
    | None => None
    end
  else if Js.string_eqb type (Js.lit "MSTR") then
    (* Master track - skip for now *)
    Some (ChunkLoop.mk (ChunkInfo.offset chunk + ChunkInfo.size chunk)
            (ChunkLoop.metadata st) (ChunkLoop.notes st) (ChunkLoop.tempo st)
            chunks)
  else if Js.string_eqb type (Js.lit "Atsq") || Js.string_eqb type (Js.lit "ATR ")
  then
    (* Audio track - skip for now *)
    Some (ChunkLoop.mk (ChunkInfo.offset chunk + ChunkInfo.size chunk)
            (ChunkLoop.metadata st) (ChunkLoop.notes st) (ChunkLoop.tempo st)
            chunks)
  else
    (* Skip unknown chunks *)
    Some (ChunkLoop.mk (ChunkInfo.offset chunk + ChunkInfo.size chunk)
            (ChunkLoop.metadata st) (ChunkLoop.notes st) (ChunkLoop.tempo st)
            chunks).

(** [while (this.position < this.data.length - 8) { ... }] *)
Fixpoint parse_chunks (fuel : nat) (st : ChunkLoop.t) : option ChunkLoop.t :=
  if ChunkLoop.position st <? Z.of_nat (length data) - 8 then
    match fuel with
    | O => None
    | S fuel' =>
        match readChunkHeader (ChunkLoop.position st) with
        | None => Some st      (* if (!chunk) break; *)
        | Some (chunk, position) =>
            match parse_dispatch chunk st position with
            | Some st' => parse_chunks fuel' st'
            | None => None
            end
        end
    end
  else Some st.

(** [notes.length > 0 ? Math.max(...notes.map(n => n.time + n.duration)) : 0] *)
Definition total_duration (notes : list MMFNote.t) : Q :=
  match map (fun n => (MMFNote.time n + MMFNote.duration n)%Q) notes with
  | [] => 0
  | e :: ends => fold_left Qmax ends e
  end.

(** The state of [parse] when it enters the chunk loop. *)
Definition parse_loop_entry (position : Z) : ChunkLoop.t :=
  ChunkLoop.mk position MMFMetadata.empty [] (BPM 120) [].

(** The chunk loop as [parse] runs it: the cursor after the header and
    the declared file size, and one unit of fuel per byte of the buffer. *)
Definition parse_run : option ChunkLoop.t :=
  let '(_, position) := verifyHeader 0 in
  let '(fileSize, position) := readUInt32BE data position in
  parse_chunks (length data) (parse_loop_entry position).

(** [parse()] *)
Definition parse : Outcome MMFData.t :=
  (* Verify MMMD header *)
  let '(ok, _) := verifyHeader 0 in
  if negb ok then Thrown InvalidFormat
  else
    match parse_run with
    | None => OutOfFuel
    | Some st =>
        Returned (MMFData.mk (ChunkLoop.metadata st) (ChunkLoop.notes st)
                    (total_duration (ChunkLoop.notes st)) (ChunkLoop.tempo st))
    end.

End Parser.

(** [parseMMF(arrayBuffer)] *)
Definition parseMMF (TextDecoder_shift_jis : option (list byte -> Js.jsstring))
    (arrayBuffer : list byte) : Outcome MMFData.t :=
  parse TextDecoder_shift_jis arrayBuffer.

(* ================================================================== *)
(** ** The revision of the parser in [src/lib/mmf-parser.ts] *)
(* ================================================================== *)

(** The sources hold two revisions of [MMFParser].  The definitions above
    follow the one that reads the sub-header of a music-track chunk and
    checks every read against the end of the chunk.  The other one differs
    in [parseMTR], which starts the event loop at the first byte of the
    chunk, adds delta-times as milliseconds and checks no read, and in the
    [switch] of [parse], which sends 'OPDA' chunks to [parseMTR] and has no
    'MSTR' case.  This module holds the two functions of that revision;
    all the others are the same. *)
Module LibRevision.

Section Parser.

Variable TextDecoder_shift_jis : option (list byte -> Js.jsstring).
Variable data : list byte.

(** One pass through the body of
    [while (this.position < endPos - 1) { ... }]. *)
Definition parseMTR_iteration (endPos : Z) (st : MTRLoop.t)
  : Flow * MTRLoop.t :=
  let '(status, position) := readUInt8 data (MTRLoop.position st) in
  match status with
  | None => parseMTR_fallthrough endPos st position
  | Some status =>
    (* Note off: 0x80-0x8F *)
    if (0x80 <=? status) && (status <=? 0x8F) then
      let '(note, position) := readUInt8 data position in
      let '(velocity, position) := readUInt8 data position in
      (Continue, MTRLoop.at_position st position)
    (* Note on: 0x90-0x9F *)
    else if (0x90 <=? status) && (status <=? 0x9F) then
      let channel := Js.band status 0x0F in
      let '(note, position) := readUInt8 data position in
      let '(velocity, position) := readUInt8 data position in
      match note, velocity with
      | Some note, Some velocity =>
          if velocity >? 0 then
            (Continue,
             MTRLoop.mk position (MTRLoop.currentTime st)
               (MTRLoop.notes st ++
                [MMFNote.mk (MTRLoop.currentTime st) note
                   DEFAULT_NOTE_DURATION_MS velocity channel])
               (MTRLoop.tempo st))
          else (Continue, MTRLoop.at_position st position)
      | _, _ => (Continue, MTRLoop.at_position st position)
      end
    (* Tempo change: 0xFF 0x51 0x03 *)
    else if status =? 0xFF then
      let '(metaType, position) := readUInt8 data position in
      let '(length, position) := readUInt8 data position in
      if Js.strict_eq metaType 0x51 && Js.strict_eq length 3 then
        let '(microsecondsPerBeat, position) := readUInt24BE data position in
        (Continue,
         MTRLoop.mk position (MTRLoop.currentTime st) (MTRLoop.notes st)
           (Some (tempo_of_microseconds microsecondsPerBeat)))
      else
        (* Skip meta event data *)
        match length with
        | Some length => (Continue, MTRLoop.at_position st (position + length))
        | None =>
            (* [this.position += undefined] makes the position NaN, and
               the loop guard is false on NaN *)
            (Break, MTRLoop.at_position st position)
        end
    (* Delta time (variable length) *)
    else if status <? 0x80 then
      let '(deltaTime, position) := readVariableLength data status position in
      (Continue,
       MTRLoop.mk position (MTRLoop.currentTime st + inject_Z deltaTime)%Q
         (MTRLoop.notes st) (MTRLoop.tempo st))
    (* Control change, program change, etc - skip *)
    else if (0xB0 <=? status) && (status <=? 0xEF) then
      let dataBytes :=
        if (0xC0 <=? status) && (status <=? 0xDF) then 1 else 2 in
      (Continue, MTRLoop.at_position st (position + dataBytes))
    else parseMTR_fallthrough endPos st position
  end.

Fixpoint parseMTR_loop (fuel : nat) (endPos : Z) (st : MTRLoop.t)
  : option MTRLoop.t :=
  if MTRLoop.position st <? endPos - 1 then
    match fuel with
    | O => None
    | S fuel' =>
        match parseMTR_iteration endPos st with
        | (Continue, st') => parseMTR_loop fuel' endPos st'
        | (Break, st') => Some st'
        end
    end
  else Some st.

(** [parseMTR(chunk)] *)
Definition parseMTR (chunk : ChunkInfo.t) (position : Z)
  : option (TrackData.t * Z) :=
  let endPos := ChunkInfo.offset chunk + ChunkInfo.size chunk in
  match parseMTR_loop (parseMTR_fuel endPos position) endPos
          (MTRLoop.mk position 0 [] None) with
  | None => None
  | Some st =>
      Some (TrackData.mk (MTRLoop.notes st) (MTRLoop.tempo st), endPos)
  end.

(** The [switch (chunk.type)] of [parse]. *)
Definition parse_dispatch (chunk : ChunkInfo.t) (st : ChunkLoop.t)
    (position : Z) : option ChunkLoop.t :=
  let type := ChunkInfo.type chunk in
  let chunks := ChunkLoop.chunks st ++ [chunk] in
  if Js.string_eqb type (Js.lit "CNTI") then
    match parseCNTI TextDecoder_shift_jis data chunk position with
    | Some (parsed, position) =>
        Some (ChunkLoop.mk position
                (Object_assign (ChunkLoop.metadata st) parsed)
                (ChunkLoop.notes st) (ChunkLoop.tempo st) chunks)
    | None => None
    end
  else if Js.string_eqb type (Js.lit "MTR ") || Js.string_eqb type (Js.lit "Mtr ")
          || Js.string_eqb type (Js.lit "OPDA")
  then
    match parseMTR chunk position with
    | Some (trackData, position) =>
        Some (ChunkLoop.mk position (ChunkLoop.metadata st)
                (ChunkLoop.notes st ++ TrackData.notes trackData)
                (match TrackData.tempo trackData with
                 | Some t =>
                     if tempo_truthy (Some t) then t else ChunkLoop.tempo st
                 | None => ChunkLoop.tempo st
                 end)
                chunks)
    | None => None
    end
  else if Js.string_eqb type (Js.lit "Atsq") || Js.string_eqb type (Js.lit "ATR ")
  then
    (* Audio track - skip for now *)
    Some (ChunkLoop.mk (ChunkInfo.offset chunk + ChunkInfo.size chunk)
            (ChunkLoop.metadata st) (ChunkLoop.notes st) (ChunkLoop.tempo st)
            chunks)
  else
    (* Skip unknown chunks *)
    Some (ChunkLoop.mk (ChunkInfo.offset chunk + ChunkInfo.size chunk)
            (ChunkLoop.metadata st) (ChunkLoop.notes st) (ChunkLoop.tempo st)
            chunks).

Fixpoint parse_chunks (fuel : nat) (st : ChunkLoop.t) : option ChunkLoop.t :=
  if ChunkLoop.position st <? Z.of_nat (length data) - 8 then
    match fuel with
    | O => None
    | S fuel' =>
        match readChunkHeader TextDecoder_shift_jis data (ChunkLoop.position st) with
        | None => Some st
        | Some (chunk, position) =>
            match parse_dispatch chunk st position with
            | Some st' => parse_chunks fuel' st'
            | None => None
            end
        end
    end
  else Some st.

Definition parse_run : option ChunkLoop.t :=
  let '(_, position) := verifyHeader TextDecoder_shift_jis data 0 in
  let '(fileSize, position) := readUInt32BE data position in
  parse_chunks (length data) (parse_loop_entry position).

(** [parse()] *)
Definition parse : Outcome MMFData.t :=
  let '(ok, _) := verifyHeader TextDecoder_shift_jis data 0 in
  if negb ok then Thrown InvalidFormat
  else
    match parse_run with
    | None => OutOfFuel
    | Some st =>
        Returned (MMFData.mk (ChunkLoop.metadata st) (ChunkLoop.notes st)
                    (total_duration (ChunkLoop.notes st)) (ChunkLoop.tempo st))
    end.

End Parser.

End LibRevision.

(* ================================================================== *)
(** ** lib/mmf-player.ts: the data model *)
(* ================================================================== *)

(** [type PlayerState = 'idle' | 'playing' | 'paused' | 'stopped'] *)
Inductive PlayerState := idle | playing | paused | stopped.

Definition PlayerState_eqb (a b : PlayerState) : bool :=
  match a, b with
  | idle, idle | playing, playing | paused, paused | stopped, stopped => true
  | _, _ => false
  end.

(** The calls made on [PlayerOptions]. *)
Inductive Notification :=
| onProgress (progress : Q)
| onStateChange (state : PlayerState)
| onEnd.

(** The part of an [AudioContext] the player reads: its clock, in
    seconds. *)
Module AudioContext.
Record t := mk { currentTime : Q }.
End AudioContext.

(** An element of [scheduledNotes]: the oscillator node (nodes are told
    apart by a number) with the note it renders and the instants given to
    [oscillator.start] and [oscillator.stop]. *)
Module ScheduledNote.
Record t := mk {
  source : nat;
  note : MMFNote.t;
  startTime : Q;
  endTime : Q
}.
End ScheduledNote.

(** The two functions the player passes to [setTimeout]. *)
Inductive Callback :=
| EndOfPlayback   (* armed by [play]: if playing, [stop()] and [onEnd] *)
| ResetToIdle.    (* armed by [stop]: if stopped, go to idle *)

Module Timer.
Record t := mk {
  due : Q;              (* in milliseconds on the clock of the host *)
  callback : Callback
}.
End Timer.

(** An [MMFPlayer] instance with the part of its host it acts on.  The
    callbacks of [PlayerOptions] are taken not to call back into the
    player. *)
Module MMFPlayer.
Record t := mk {
  (* the fields of the class *)
  audioContext : option AudioContext.t;
  mmfData : option MMFData.t;
  state : PlayerState;
  startTime : Q;
  pauseTime : Q;
  scheduledNotes : list ScheduledNote.t;
  (* the host *)
  now : Q;                              (* its clock, in milliseconds *)
  timers : list Timer.t;                (* pending [setTimeout] callbacks *)
  frames : nat;                         (* pending [requestAnimationFrame]
                                           callbacks, all [updateProgress] *)
  nextNode : nat;                       (* the next fresh audio node *)
  submitted : list ScheduledNote.t;     (* oscillators started, oldest first *)
  cancelled : list nat;                 (* oscillators stopped by the player *)
  notifications : list Notification;    (* calls on the options, oldest first *)
  thrown : list string                  (* exceptions raised to the caller *)
}.

Definition set_audioContext v p :=
  mk v (mmfData p) (state p) (startTime p) (pauseTime p) (scheduledNotes p)
     (now p) (timers p) (frames p) (nextNode p) (submitted p) (cancelled p)
     (notifications p) (thrown p).
Definition set_mmfData v p :=
  mk (audioContext p) v (state p) (startTime p) (pauseTime p) (scheduledNotes p)
     (now p) (timers p) (frames p) (nextNode p) (submitted p) (cancelled p)
     (notifications p) (thrown p).
Definition set_state v p :=
  mk (audioContext p) (mmfData p) v (startTime p) (pauseTime p) (scheduledNotes p)
     (now p) (timers p) (frames p) (nextNode p) (submitted p) (cancelled p)
     (notifications p) (thrown p).
Definition set_startTime v p :=
  mk (audioContext p) (mmfData p) (state p) v (pauseTime p) (scheduledNotes p)
     (now p) (timers p) (frames p) (nextNode p) (submitted p) (cancelled p)
     (notifications p) (thrown p).
Definition set_pauseTime v p :=
  mk (audioContext p) (mmfData p) (state p) (startTime p) v (scheduledNotes p)
     (now p) (timers p) (frames p) (nextNode p) (submitted p) (cancelled p)
     (notifications p) (thrown p).
Definition set_scheduledNotes v p :=
  mk (audioContext p) (mmfData p) (state p) (startTime p) (pauseTime p) v
     (now p) (timers p) (frames p) (nextNode p) (submitted p) (cancelled p)
     (notifications p) (thrown p).
Definition set_now v p :=
  mk (audioContext p) (mmfData p) (state p) (startTime p) (pauseTime p)
     (scheduledNotes p) v (timers p) (frames p) (nextNode p) (submitted p)
     (cancelled p) (notifications p) (thrown p).
Definition set_timers v p :=
  mk (audioContext p) (mmfData p) (state p) (startTime p) (pauseTime p)
     (scheduledNotes p) (now p) v (frames p) (nextNode p) (submitted p)
     (cancelled p) (notifications p) (thrown p).
Definition set_frames v p :=
  mk (audioContext p) (mmfData p) (state p) (startTime p) (pauseTime p)
     (scheduledNotes p) (now p) (timers p) v (nextNode p) (submitted p)
     (cancelled p) (notifications p) (thrown p).
Definition set_nextNode v p :=
  mk (audioContext p) (mmfData p) (state p) (startTime p) (pauseTime p)
     (scheduledNotes p) (now p) (timers p) (frames p) v (submitted p)
     (cancelled p) (notifications p) (thrown p).
Definition set_submitted v p :=
  mk (audioContext p) (mmfData p) (state p) (startTime p) (pauseTime p)
     (scheduledNotes p) (now p) (timers p) (frames p) (nextNode p) v
     (cancelled p) (notifications p) (thrown p).
Definition set_cancelled v p :=
  mk (audioContext p) (mmfData p) (state p) (startTime p) (pauseTime p)
     (scheduledNotes p) (now p) (timers p) (frames p) (nextNode p) (submitted p)
     v (notifications p) (thrown p).
Definition set_notifications v p :=
  mk (audioContext p) (mmfData p) (state p) (startTime p) (pauseTime p)
     (scheduledNotes p) (now p) (timers p) (frames p) (nextNode p) (submitted p)
     (cancelled p) v (thrown p).
Definition set_thrown v p :=
  mk (audioContext p) (mmfData p) (state p) (startTime p) (pauseTime p)
     (scheduledNotes p) (now p) (timers p) (frames p) (nextNode p) (submitted p)
     (cancelled p) (notifications p) v.

(** [new MMFPlayer(options)] *)
Definition create : t :=
  mk None None idle 0 0 [] 0 [] 0 0 [] [] [] [].
End MMFPlayer.

(* ================================================================== *)
(** ** The host: notifications, timers, exceptions *)
(* ================================================================== *)

Definition notify (n : Notification) (p : MMFPlayer.t) : MMFPlayer.t :=
  MMFPlayer.set_notifications (MMFPlayer.notifications p ++ [n]) p.

(** [setTimeout(callback, delay)] *)
Definition setTimeout (callback : Callback) (delay : Q) (p : MMFPlayer.t)
  : MMFPlayer.t :=
  MMFPlayer.set_timers
    (MMFPlayer.timers p ++ [Timer.mk (MMFPlayer.now p + delay) callback]) p.

(** [requestAnimationFrame(updateProgress)] *)
Definition requestAnimationFrame (p : MMFPlayer.t) : MMFPlayer.t :=
  MMFPlayer.set_frames (S (MMFPlayer.frames p)) p.

Definition throw (message : string) (p : MMFPlayer.t) : MMFPlayer.t :=
  MMFPlayer.set_thrown (MMFPlayer.thrown p ++ [message]) p.

(* ================================================================== *)
(** ** The methods of [MMFPlayer] *)
(* ================================================================== *)

(** [setState(newState)] *)
Definition setState (newState : PlayerState) (p : MMFPlayer.t) : MMFPlayer.t :=
  if PlayerState_eqb (MMFPlayer.state p) newState then p
  else notify (onStateChange newState) (MMFPlayer.set_state newState p).

(** [clearScheduledNotes()]: every tracked oscillator is stopped and
    disconnected (an error of an already stopped one is ignored), and the
    list is emptied. *)
Definition clearScheduledNotes (p : MMFPlayer.t) : MMFPlayer.t :=
  MMFPlayer.set_scheduledNotes []
    (MMFPlayer.set_cancelled
       (MMFPlayer.cancelled p
        ++ map ScheduledNote.source (MMFPlayer.scheduledNotes p)) p).

(** [playNote(note, startTime, endTime)]: a fresh oscillator is created,
    started at [startTime], stopped at [endTime] and tracked.  The calls on
    the audio graph are taken not to throw, so the [catch] does not run. *)
Definition playNote (note : MMFNote.t) (startTime endTime : Q)
    (p : MMFPlayer.t) : MMFPlayer.t :=
  match MMFPlayer.audioContext p with
  | None => p
  | Some _ =>
      let oscillator :=
        ScheduledNote.mk (MMFPlayer.nextNode p) note startTime endTime in
      MMFPlayer.set_scheduledNotes (MMFPlayer.scheduledNotes p ++ [oscillator])
        (MMFPlayer.set_submitted (MMFPlayer.submitted p ++ [oscillator])
           (MMFPlayer.set_nextNode (S (MMFPlayer.nextNode p)) p))
  end.

(** The [for (const note of this.mmfData.notes)] of [scheduleNotes]. *)
Fixpoint scheduleNotes_loop (now fromTime : Q) (notes : list MMFNote.t)
    (p : MMFPlayer.t) : MMFPlayer.t :=
  match notes with
  | [] => p
  | note :: notes' =>
      (* Skip notes that have already played *)
      if Qlt_le_dec (MMFNote.time note) fromTime
      then scheduleNotes_loop now fromTime notes' p
      else
        let startTime := (now + (MMFNote.time note - fromTime) / 1000)%Q in
        let endTime := (startTime + MMFNote.duration note / 1000)%Q in
        scheduleNotes_loop now fromTime notes'
          (playNote note startTime endTime p)
  end.

(** [scheduleNotes(fromTime = 0)] *)
Definition scheduleNotes (fromTime : Q) (p : MMFPlayer.t) : MMFPlayer.t :=
  match MMFPlayer.audioContext p, MMFPlayer.mmfData p with
  | Some audioContext, Some mmfData =>
      let now := AudioContext.currentTime audioContext in
      scheduleNotes_loop now fromTime (MMFData.notes mmfData) p
  | _, _ => p
  end.

(** [startProgressTracking()] *)
Definition startProgressTracking (p : MMFPlayer.t) : MMFPlayer.t :=
  match MMFPlayer.state p, MMFPlayer.mmfData p with
  | playing, Some _ => requestAnimationFrame p
  | _, _ => p
  end.

(** [stop()] *)
Definition stop (p : MMFPlayer.t) : MMFPlayer.t :=
  match MMFPlayer.state p with
  | idle => p
  | _ =>
      let p := setState stopped p in
      let p := clearScheduledNotes p in
      let p := MMFPlayer.set_startTime 0 p in
      let p := MMFPlayer.set_pauseTime 0 p in
      (* Reset to idle after a brief moment *)
      setTimeout ResetToIdle 100 p
  end.

(** [load(mmfData)] *)
Definition load (mmfData : MMFData.t) (p : MMFPlayer.t) : MMFPlayer.t :=
  stop (MMFPlayer.set_mmfData (Some mmfData) p).

(** [resume()] *)
Definition resume (p : MMFPlayer.t) : MMFPlayer.t :=
  match MMFPlayer.state p, MMFPlayer.audioContext p, MMFPlayer.mmfData p with
  | paused, Some audioContext, Some _ =>
      let p := setState playing p in
      let p := MMFPlayer.set_startTime
                 (AudioContext.currentTime audioContext - MMFPlayer.pauseTime p) p in
      (* Reschedule remaining notes *)
      let p := scheduleNotes (MMFPlayer.pauseTime p * 1000) p in
      startProgressTracking p
  | _, _, _ => p
  end.

(** [play()].  The function is [async] and never awaits: its body runs at
    once, and its [throw] rejects the promise it returns. *)
Definition play (p : MMFPlayer.t) : MMFPlayer.t :=
  match MMFPlayer.mmfData p with
  | None => throw "No MMF data loaded" p
  | Some mmfData =>
      (* Initialize AudioContext if needed *)
      let p :=
        match MMFPlayer.audioContext p with
        | None => MMFPlayer.set_audioContext (Some (AudioContext.mk 0)) p
        | Some _ => p
        end in
      (* Resume if paused *)
      if PlayerState_eqb (MMFPlayer.state p) paused then resume p
      else
        (* Stop any existing playback *)
        let p := if PlayerState_eqb (MMFPlayer.state p) playing
                 then stop p else p in
        let p := setState playing p in
        let p := MMFPlayer.set_startTime
                   (match MMFPlayer.audioContext p with
                    | Some audioContext => AudioContext.currentTime audioContext
                    | None => 0
                    end) p in
        (* Schedule all notes *)
        let p := scheduleNotes 0 p in
        (* Start progress tracking *)
        let p := startProgressTracking p in
        (* Schedule end callback *)
        if Qlt_le_dec 0 (MMFData.duration mmfData)
        then setTimeout EndOfPlayback (MMFData.duration mmfData) p
        else p
  end.

(** [pause()].  [this.audioContext!] throws a TypeError on [null]. *)
Definition pause (p : MMFPlayer.t) : MMFPlayer.t :=
  match MMFPlayer.state p with
  | playing =>
      let p := setState paused p in
      match MMFPlayer.audioContext p with
      | None => throw "TypeError" p
      | Some audioContext =>
          let p := MMFPlayer.set_pauseTime
                     (AudioContext.currentTime audioContext
                      - MMFPlayer.startTime p) p in
          (* Stop all scheduled notes *)
          clearScheduledNotes p
      end
  | _ => p
  end.

(** [dispose()] *)
Definition dispose (p : MMFPlayer.t) : MMFPlayer.t :=
  let p := stop p in
  let p := MMFPlayer.set_audioContext None p in
  MMFPlayer.set_mmfData None p.

(** [getCurrentTime()] *)
Definition getCurrentTime (p : MMFPlayer.t) : Q :=
  match MMFPlayer.audioContext p with
  | None => 0
  | Some audioContext =>
      match MMFPlayer.state p with
      | playing =>
          (AudioContext.currentTime audioContext - MMFPlayer.startTime p) * 1000
      | paused => MMFPlayer.pauseTime p * 1000
      | _ => 0
      end
  end.

(** [getDuration()] *)
Definition getDuration (p : MMFPlayer.t) : Q :=
  match MMFPlayer.mmfData p with
  | Some mmfData => MMFData.duration mmfData
  | None => 0
  end.

(* ================================================================== *)
(** ** The callbacks the player leaves with the host *)
(* ================================================================== *)

(** The arrow function [play] passes to [setTimeout]. *)
Definition endOfPlayback (p : MMFPlayer.t) : MMFPlayer.t :=
  match MMFPlayer.state p with
  | playing => notify onEnd (stop p)
  | _ => p
  end.

(** The arrow function [stop] passes to [setTimeout]. *)
Definition resetToIdle (p : MMFPlayer.t) : MMFPlayer.t :=
  match MMFPlayer.state p with
  | stopped => setState idle p
  | _ => p
  end.

Definition run_callback (c : Callback) (p : MMFPlayer.t) : MMFPlayer.t :=
  match c with
  | EndOfPlayback => endOfPlayback p
  | ResetToIdle => resetToIdle p
  end.

(** [updateProgress], the function given to [requestAnimationFrame].
    [this.mmfData!] throws a TypeError on [null]. *)
Definition updateProgress (p : MMFPlayer.t) : MMFPlayer.t :=
  match MMFPlayer.state p with
  | playing =>
      match MMFPlayer.mmfData p with
      | None => throw "TypeError" p
      | Some mmfData =>
          let currentTime := getCurrentTime p in
          let progress :=
            if Qlt_le_dec 0 (MMFData.duration mmfData)
            then (currentTime / MMFData.duration mmfData)%Q else 0%Q in
          let p := notify (onProgress (Qmin progress 1)) p in
          if Qlt_le_dec progress 1 then requestAnimationFrame p else p
      end
  | _ => p
  end.

(** [oscillator.onended] of the node [source]. *)
Fixpoint remove_source (source : nat) (l : list ScheduledNote.t)
  : list ScheduledNote.t :=
  match l with
  | [] => []
  | n :: l' =>
      if Nat.eqb (ScheduledNote.source n) source then l'
      else n :: remove_source source l'
  end.

Definition onended (source : nat) (p : MMFPlayer.t) : MMFPlayer.t :=
  MMFPlayer.set_scheduledNotes
    (remove_source source (MMFPlayer.scheduledNotes p)) p.

(* ================================================================== *)
(** ** What can happen to a player *)
(* ================================================================== *)

Inductive Event :=
| ELoad (mmfData : MMFData.t)
| EPlay
| EPause
| EResume
| EStop
| EDispose
| ETick (ms : N)            (* time passes *)
| ETimeout (i : nat)        (* the i-th pending timer fires, if it is due *)
| EFrame                    (* a pending animation frame runs *)
| EEnded (source : nat).    (* an oscillator ends *)

Fixpoint remove_nth {A} (i : nat) (l : list A) : list A :=
  match i, l with
  | _, [] => []
  | O, _ :: l' => l'
  | S i', a :: l' => a :: remove_nth i' l'
  end.

Definition tick (ms : N) (p : MMFPlayer.t) : MMFPlayer.t :=
  let dt := inject_Z (Z.of_N ms) in
  let p := MMFPlayer.set_now (MMFPlayer.now p + dt) p in
  match MMFPlayer.audioContext p with
  | Some audioContext =>
      MMFPlayer.set_audioContext
        (Some (AudioContext.mk (AudioContext.currentTime audioContext + dt / 1000)))
        p
  | None => p
  end.

Definition fire (i : nat) (p : MMFPlayer.t) : MMFPlayer.t :=
  match nth_error (MMFPlayer.timers p) i with
  | Some timer =>
      if Qle_bool (Timer.due timer) (MMFPlayer.now p)
      then run_callback (Timer.callback timer)
             (MMFPlayer.set_timers (remove_nth i (MMFPlayer.timers p)) p)
      else p
  | None => p
  end.

Definition frame (p : MMFPlayer.t) : MMFPlayer.t :=
  match MMFPlayer.frames p with
  | O => p
  | S n => updateProgress (MMFPlayer.set_frames n p)
  end.

Definition step (e : Event) (p : MMFPlayer.t) : MMFPlayer.t :=
  match e with
  | ELoad mmfData => load mmfData p
  | EPlay => play p
  | EPause => pause p
  | EResume => resume p
  | EStop => stop p
  | EDispose => dispose p
  | ETick ms => tick ms p
  | ETimeout i => fire i p
  | EFrame => frame p
  | EEnded source => onended source p
  end.

(** The events of a list, from left to right. *)
Definition run (events : list Event) (p : MMFPlayer.t) : MMFPlayer.t :=
  fold_left (fun p e => step e p) events p.

(* ================================================================== *)
(** ** Predicates of the specification *)
(* ================================================================== *)

(** The bytes of a big-endian 24-bit number, [undefined] counting for 0. *)
Definition byte_or_zero (v : option Z) : Z :=
  match v with Some z => z | None => 0 end.

(** The notes are in non-decreasing order of start time. *)
Definition non_decreasing_time (notes : list MMFNote.t) : Prop :=
  StronglySorted (fun a b => (MMFNote.time a <= MMFNote.time b)%Q) notes.

(** Every note of the list starts at or before [t]. *)
Definition all_before (t : Q) (notes : list MMFNote.t) : Prop :=
  Forall (fun n => (MMFNote.time n <= t)%Q) notes.

  (** The invariant of the event loop: the notes emitted so far are in
      order, and none starts after the running time. *)
Definition ordered_so_far (st : MTRLoop.t) : Prop :=
    non_decreasing_time (MTRLoop.notes st)
    /\ all_before (MTRLoop.currentTime st) (MTRLoop.notes st).

(** One pass of the event loop after which the loop goes on: the guard
    holds and the body does not [break]. *)
Definition parseMTR_step (data : list byte) (endPos : Z) (tickDuration : Q)
    (st st' : MTRLoop.t) : Prop :=
  MTRLoop.position st < endPos - 1
  /\ parseMTR_iteration data endPos tickDuration st = (Continue, st').

(** Any number of passes. *)
Inductive parseMTR_steps (data : list byte) (endPos : Z) (tickDuration : Q)
  : MTRLoop.t -> MTRLoop.t -> Prop :=
| steps_done st : parseMTR_steps data endPos tickDuration st st
| steps_more st st' st'' :
    parseMTR_step data endPos tickDuration st st' ->
    parseMTR_steps data endPos tickDuration st' st'' ->
    parseMTR_steps data endPos tickDuration st st''.

(** A pass that decodes a note-on event and emits the note [n]. *)
Definition emits_note (data : list byte) (endPos : Z) (tickDuration : Q)
    (st st' : MTRLoop.t) (n : MMFNote.t) : Prop :=
  parseMTR_step data endPos tickDuration st st'
  /\ MTRLoop.notes st' = MTRLoop.notes st ++ [n].

(** A pass that decodes a delta-time event of [N] ticks: the byte under
    the cursor is [N], below 0x80. *)
Definition delta_time_event (data : list byte) (endPos : Z) (tickDuration : Q)
    (st st' : MTRLoop.t) (N : Z) : Prop :=
  parseMTR_step data endPos tickDuration st st'
  /\ data_at data (MTRLoop.position st) = Some N /\ N < 0x80.

(** A pass over an event that is neither a delta-time nor an emitted
    note. *)
Definition other_event (data : list byte) (endPos : Z) (tickDuration : Q)
    (st st' : MTRLoop.t) : Prop :=
  parseMTR_step data endPos tickDuration st st'
  /\ Js.lt (data_at data (MTRLoop.position st)) 0x80 = false
  /\ MTRLoop.notes st' = MTRLoop.notes st.

Inductive other_events (data : list byte) (endPos : Z) (tickDuration : Q)
  : MTRLoop.t -> MTRLoop.t -> Prop :=
| other_done st : other_events data endPos tickDuration st st
| other_more st st' st'' :
    other_event data endPos tickDuration st st' ->
    other_events data endPos tickDuration st' st'' ->
    other_events data endPos tickDuration st st''.

(** The state in which [parseMTR] enters its event loop. *)
Definition parseMTR_loop_entry (chunk : ChunkInfo.t) : MTRLoop.t :=
  MTRLoop.mk (ChunkInfo.offset chunk + 5) 0 [] None.

(** The states carried by the [onStateChange] calls of a log, in order. *)
Fixpoint state_changes (log : list Notification) : list PlayerState :=
  match log with
  | [] => []
  | onStateChange s :: log' => s :: state_changes log'
  | _ :: log' => state_changes log'
  end.

(** No two neighbours of the list are equal. *)
Fixpoint adjacent_distinct (l : list PlayerState) : Prop :=
  match l with
  | a :: (b :: _) as l' => a <> b /\ adjacent_distinct l'
  | _ => True
  end.

(** The invariant behind the state notifications: they never repeat a
    state, and the last one (or [idle], the state of a new player, when
    there is none) is the state the player is in. *)
Definition state_log_consistent (p : MMFPlayer.t) : Prop :=
  adjacent_distinct (state_changes (MMFPlayer.notifications p))
  /\ last (state_changes (MMFPlayer.notifications p)) idle = MMFPlayer.state p.

(** The oscillators [scheduleNotes(fromTime)] creates at the instant [now]
    of the audio clock, the first of them being the node [first]. *)
Fixpoint commands (now fromTime : Q) (first : nat) (notes : list MMFNote.t)
  : list ScheduledNote.t :=
  match notes with
  | [] => []
  | note :: notes' =>
      if Qlt_le_dec (MMFNote.time note) fromTime
      then commands now fromTime first notes'
      else
        let startTime := (now + (MMFNote.time note - fromTime) / 1000)%Q in
        ScheduledNote.mk first note startTime
          (startTime + MMFNote.duration note / 1000)%Q
        :: commands now fromTime (S first) notes'
  end.

(** A player that is playing or paused has a document and an audio
    context. *)
Definition active_has_resources (p : MMFPlayer.t) : Prop :=
  (MMFPlayer.state p = playing \/ MMFPlayer.state p = paused) ->
  MMFPlayer.mmfData p <> None /\ MMFPlayer.audioContext p <> None.

(* ================================================================== *)
(** ** Buffers, documents and runs used as examples *)
(* ================================================================== *)

(** The events A3 10 20 followed by a note-on, in a chunk of time-base 0:
    the note starts at 16 + 32. *)
Definition aftertouch_example : list byte :=
  bytes [0; 0; 0; 0; 0; 0xA3; 0x10; 0x20; 0x90; 60; 100].

(** The event FF 51 03 07 A1 20 (500000 microseconds per beat) at the
    head of the event stream of a chunk. *)
Definition tempo_example : list byte :=
  bytes [0; 0; 48; 48; 0; 0xFF; 0x51; 0x03; 0x07; 0xA1; 0x20].

(** A chunk of time-base 48: note-on, a control change, a delta-time of
    24 ticks, note-on.  The second note starts 24 * (500 / 48) = 250 ms
    after the first. *)
Definition two_notes_example : list byte :=
  bytes [0; 0; 48; 48; 0;
         0x90; 60; 100;  0xB0; 7; 100;  24;  0x91; 62; 90].

(** The header, the declared size, and a 'CNTI' chunk of one NUL byte. *)
Definition one_chunk_example : list byte :=
  bytes [0x4D; 0x4D; 0x4D; 0x44; 0; 0; 0; 9;
         0x43; 0x4E; 0x54; 0x49; 0; 0; 0; 1; 0].

(** The header, the declared size, and the header of an empty 'CNTI'
    chunk in the last eight bytes. *)
Definition chunk_header_at_end_example : list byte :=
  bytes [0x4D; 0x4D; 0x4D; 0x44; 0; 0; 0; 8;
         0x43; 0x4E; 0x54; 0x49; 0; 0; 0; 0].

(** A document of two notes, one second long. *)
Definition example_song : MMFData.t :=
  MMFData.mk MMFMetadata.empty
    [MMFNote.mk 0 60 250 100 0; MMFNote.mk 750 62 250 100 0] 1000 (BPM 120).

(** The player 100 ms after [load] and [play]. *)
Definition example_playing : MMFPlayer.t :=
  run [ELoad example_song; EPlay; ETick 100] MMFPlayer.create.

(** The player paused half a second after [play], another half second
    later. *)
Definition example_paused : MMFPlayer.t :=
  run [ELoad example_song; EPlay; ETick 500; EPause; ETick 500]
    MMFPlayer.create.

(** Played, stopped after 200 ms, played again at 400 ms, now at
    1000 ms. *)
Definition example_replayed : MMFPlayer.t :=
  run [ELoad example_song; EPlay; ETick 200; EStop; ETick 100; ETimeout 1;
       ETick 100; EPlay; ETick 600] MMFPlayer.create.

(** Played, paused after 500 ms, resumed one second later. *)
Definition example_resumed : MMFPlayer.t :=
  run [ELoad example_song; EPlay; ETick 500; EPause; ETick 1000; EPlay]
    MMFPlayer.create.

(* ================================================================== *)
(** ** Further predicates *)
(* ================================================================== *)

(** The number a sequence of 7-bit groups stands for, most significant
    group first, starting from [acc]. *)
Definition vlq_value (groups : list Z) (acc : Z) : Z :=
  fold_left (fun v g => v * 128 + g) groups acc.

(** A byte with the continuation bit set and the 7-bit group [g]. *)
Definition continuation_byte (g : Z) : byte := Js.byte_of (0x80 + g).

(** Two buffers hold the same bytes at the indices from [lo] up to, not
    including, [hi]. *)
Definition same_bytes (data data' : list byte) (lo hi : Z) : Prop :=
  forall i, lo <= i < hi -> data_at data i = data_at data' i.

(** A note as [parseMTR] emits them. *)
Definition emitted_note (n : MMFNote.t) : Prop :=
  (0 <= MMFNote.time n)%Q
  /\ 0 <= MMFNote.note n <= 255
  /\ MMFNote.duration n = DEFAULT_NOTE_DURATION_MS
  /\ 0 < MMFNote.velocity n <= 255
  /\ 0 <= MMFNote.channel n <= 15.

(** The instant at which a note ends. *)
Definition note_end (n : MMFNote.t) : Q :=
  (MMFNote.time n + MMFNote.duration n)%Q.

(** The bytes of one record of a content-information chunk: the code, the
    length of the text, the text. *)
Definition encode_record (r : Z * list byte) : list byte :=
  Js.byte_of (fst r) :: Js.byte_of (Z.of_nat (length (snd r))) :: snd r.

Definition encode_records (records : list (Z * list byte)) : list byte :=
  concat (map encode_record records).

(** A record [parseCNTI] accepts: a one-byte code and a text of 1 to 255
    bytes. *)
Definition record_ok (r : Z * list byte) : Prop :=
  0 <= fst r <= 255 /\ (1 <= length (snd r) <= 255)%nat.

(** The metadata after the records, stored in order from [metadata]. *)
Definition store_records (dec : option (list byte -> Js.jsstring))
    (records : list (Z * list byte)) (metadata : MMFMetadata.t)
  : MMFMetadata.t :=
  fold_left
    (fun m r => set_content m (Some (fst r)) (decode_text dec (snd r)))
    records metadata.

(** The invariant of the event loop of [parseMTR] behind the shape and
    the number of the notes: every note so far is well formed, the running
    time is not negative, every note has used three bytes of the chunk and
    the cursor has not passed the end of the chunk. *)
Definition notes_accounted (start endPos : Z) (st : MTRLoop.t) : Prop :=
  Forall emitted_note (MTRLoop.notes st)
  /\ (0 <= MTRLoop.currentTime st)%Q
  /\ 3 * Z.of_nat (length (MTRLoop.notes st)) <= MTRLoop.position st - start
  /\ MTRLoop.position st <= endPos.

(** A file for the revision of [src/lib/mmf-parser.ts]: the header and
    one 'OPDA' chunk with two note-on events, sixteen ticks apart. *)
Definition lib_song : list byte :=
  bytes [0x4D; 0x4D; 0x4D; 0x44;  0; 0; 0; 24;
         0x4F; 0x50; 0x44; 0x41;  0; 0; 0; 8;
         0x90; 60; 100;  0x10;  0x91; 62; 90;  0x00].

(** The four bytes [readUInt32BE] decodes to [n]. *)
Definition encode_UInt32BE (n : Z) : list byte :=
  [Js.byte_of (n / 2 ^ 24); Js.byte_of (n / 2 ^ 16); Js.byte_of (n / 2 ^ 8);
   Js.byte_of n].

Definition MMMD : list byte := bytes [0x4D; 0x4D; 0x4D; 0x44].
Definition CNTI : list byte := bytes [0x43; 0x4E; 0x54; 0x49].

(** A file with one content-information chunk: the signature, four bytes
    for the file size, the chunk header and the records of the chunk. *)
Definition content_file (fileSize : list byte)
    (records : list (Z * list byte)) (spare : list byte) : list byte :=
  let payload := encode_records records ++ spare in
  MMMD ++ fileSize ++ CNTI
  ++ encode_UInt32BE (Z.of_nat (length payload)) ++ payload.

(* ================================================================== *)
(** ** Properties of the player *)
(* ================================================================== *)

(** The value of an [onProgress] call is a fraction. *)
Definition progress_in_range (n : Notification) : Prop :=
  match n with
  | onProgress progress => (0 <= progress <= 1)%Q
  | _ => True
  end.

(** The invariant of the player the properties below rest on: a playing
    or paused player has a document and an audio context; nothing but the
    error of [play] has been thrown; the instant of a pause is not
    negative; during playback the audio clock is not before the origin
    [startTime]; every progress value notified is a fraction; no
    oscillator is tracked unless the player is playing. *)
Record player_ok (p : MMFPlayer.t) : Prop := {
  ok_resources : active_has_resources p;
  ok_thrown :
    Forall (fun message => message = "No MMF data loaded"%string)
      (MMFPlayer.thrown p);
  ok_pauseTime : (0 <= MMFPlayer.pauseTime p)%Q;
  ok_startTime :
    MMFPlayer.state p = playing ->
    forall audioContext,
      MMFPlayer.audioContext p = Some audioContext ->
      (MMFPlayer.startTime p <= AudioContext.currentTime audioContext)%Q;
  ok_progress : Forall progress_in_range (MMFPlayer.notifications p);
  ok_quiet :
    MMFPlayer.state p <> playing -> MMFPlayer.scheduledNotes p = []
}.

(** The number of [onEnd] calls in a log. *)
Fixpoint ends (log : list Notification) : nat :=
  match log with
  | [] => 0
  | onEnd :: log' => S (ends log')
  | _ :: log' => ends log'
  end.

(** A document is played to its end: loaded, started and left alone for
    [ms] milliseconds, during which the oscillators [ended] come to their
    end; then the end-of-playback timer runs, and 100 ms later the timer
    of [stop]. *)
Definition played_to_the_end (mmfData : MMFData.t) (ms : N)
    (ended : list nat) : MMFPlayer.t :=
  run ([ELoad mmfData; EPlay; ETick ms] ++ map EEnded ended
       ++ [ETimeout 0; ETick 100; ETimeout 0])
    MMFPlayer.create.
(* ================================================================== *)
(** ** Facts about the cursor *)
(* ================================================================== *)

Lemma ToInt32_small z : - 2 ^ 31 <= z < 2 ^ 31 -> Js.ToInt32 z = z.
Proof.
  intros H. unfold Js.ToInt32.
  rewrite Z.mod_small by lia. lia.
Qed.

Lemma byte_value_range b : 0 <= Js.byte_value b <= 255.
Proof.
  unfold Js.byte_value. pose proof (Byte.to_N_bounded b). lia.
Qed.

Lemma data_at_range data i v : data_at data i = Some v -> 0 <= v <= 255.
Proof.
  unfold data_at. destruct (_ && _); [|discriminate].
  destruct (nth_error data (Z.to_nat i)); simpl; [|discriminate].
  intros [= <-]. apply byte_value_range.
Qed.

Lemma data_at_in_bounds data i v :
  data_at data i = Some v -> 0 <= i < Z.of_nat (length data).
Proof.
  unfold data_at.
  destruct (0 <=? i) eqn:H0; destruct (i <? Z.of_nat (length data)) eqn:H1;
    simpl; try discriminate.
  lia.
Qed.

(** Past the end of the buffer every read is [undefined]. *)
Lemma data_at_past_end data i :
  Z.of_nat (length data) <= i -> data_at data i = None.
Proof.
  intros H. unfold data_at.
  destruct (i <? Z.of_nat (length data)) eqn:H1; [lia|].
  now rewrite andb_false_r.
Qed.

(** Once a read is [undefined], so is every later one. *)
Lemma data_at_undefined_later data i j :
  0 <= i <= j -> data_at data i = None -> data_at data j = None.
Proof.
  intros Hij Hi. apply data_at_past_end.
  unfold data_at in Hi.
  destruct (0 <=? i) eqn:H0; [|lia].
  destruct (i <? Z.of_nat (length data)) eqn:H1; simpl in Hi; [|lia].
  destruct (nth_error data (Z.to_nat i)) eqn:E; [discriminate|].
  apply nth_error_None in E. lia.
Qed.

(** A number below 0x80 has no continuation bit. *)
Lemma band_0x80_small s : 0 <= s < 0x80 -> Js.band s 0x80 = 0.
Proof.
  intros H. unfold Js.band.
  rewrite !ToInt32_small by lia.
  apply Z.bits_inj'. intros n Hn.
  rewrite Z.land_spec, Z.bits_0.
  change 0x80 with (2 ^ 7).
  rewrite Z.pow2_bits_eqb by lia.
  destruct (Z.eqb_spec 7 n) as [<-|]; [|apply andb_false_r].
  rewrite andb_true_r. apply Z.testbit_false; [lia|].
  rewrite Z.div_small by lia. reflexivity.
Qed.

(** Called on a status byte below 0x80, [readVariableLength] returns that
    byte and reads nothing more. *)
Lemma readVariableLength_first_byte data s position :
  0 <= s < 0x80 -> readVariableLength data s position = (s, position).
Proof.
  intros H. unfold readVariableLength.
  now rewrite band_0x80_small.
Qed.

Lemma readVariableLength_loop_position rest value position :
  position < snd (readVariableLength_loop rest value position).
Proof.
  revert value position.
  induction rest as [|b rest IH]; intros value position; simpl; [lia|].
  destruct (_ =? 0); simpl; [lia|].
  specialize (IH (Js.bor (Js.shl value 7) (Js.band (Js.byte_value b) 127))
                 (position + 1)).
  lia.
Qed.

Lemma readVariableLength_position data s position :
  position <= snd (readVariableLength data s position).
Proof.
  unfold readVariableLength.
  destruct (_ =? 0); simpl; [lia|].
  pose proof (readVariableLength_loop_position
                (Js.slice data position (Z.of_nat (length data)))
                (Js.band s 127) position).
  lia.
Qed.

Lemma lor_disjoint_add a b k :
  0 <= a -> 0 <= b < 2 ^ k -> 0 <= k ->
  Z.lor (a * 2 ^ k) b = a * 2 ^ k + b.
Proof.
  intros Ha Hb Hk.
  rewrite <- Z.add_lor_land.
  assert (E : Z.land (a * 2 ^ k) b = 0).
  { apply Z.bits_inj'. intros n Hn.
    rewrite Z.land_spec, Z.bits_0.
    destruct (Z.ltb_spec n k).
    - rewrite Z.mul_pow2_bits_low by lia. reflexivity.
    - destruct (Z.eq_dec b 0) as [->|Hb0].
      + rewrite Z.bits_0. apply andb_false_r.
      + rewrite (Z.bits_above_log2 b n); [apply andb_false_r|lia|].
        apply Z.log2_lt_pow2; [lia|].
        apply Z.lt_le_trans with (2 ^ k); [lia|].
        apply Z.pow_le_mono_r; lia. }
  rewrite E. lia.
Qed.

Lemma readUInt24BE_value data position :
  fst (readUInt24BE data position)
  = byte_or_zero (data_at data position) * 65536
    + byte_or_zero (data_at data (position + 1)) * 256
    + byte_or_zero (data_at data (position + 2)).
Proof.
  unfold readUInt24BE. cbn [fst].
  assert (R : forall i, 0 <= byte_or_zero (data_at data i) <= 255
                        /\ Js.ToInt32_opt (data_at data i)
                           = byte_or_zero (data_at data i)).
  { intros i. destruct (data_at data i) eqn:E; simpl.
    - pose proof (data_at_range _ _ _ E). split; [lia|].
      apply ToInt32_small. lia.
    - split; [lia|reflexivity]. }
  destruct (R position) as [Ra ->].
  destruct (R (position + 1)) as [Rb ->].
  destruct (R (position + 2)) as [Rc ->].
  set (a := byte_or_zero (data_at data position)) in *.
  set (b := byte_or_zero (data_at data (position + 1))) in *.
  set (c := byte_or_zero (data_at data (position + 2))) in *.
  unfold Js.bor, Js.shl.
  rewrite !Z.shiftl_mul_pow2 by lia.
  rewrite !(ToInt32_small a), !(ToInt32_small b), !(ToInt32_small c) by lia.
  rewrite (ToInt32_small (a * 2 ^ 16)) by lia.
  rewrite (ToInt32_small (b * 2 ^ 8)) by lia.
  rewrite !(ToInt32_small (a * 2 ^ 16)) by lia.
  rewrite !(ToInt32_small (b * 2 ^ 8)) by lia.
  replace (Z.lor (a * 2 ^ 16) (b * 2 ^ 8)) with ((a * 2 ^ 8 + b) * 2 ^ 8).
  2:{ replace (a * 2 ^ 16) with ((a * 2 ^ 8) * 2 ^ 8) by lia.
      rewrite <- (Z.shiftl_mul_pow2 (a * 2 ^ 8)), <- (Z.shiftl_mul_pow2 b) by lia.
      rewrite <- Z.shiftl_lor.
      rewrite lor_disjoint_add by lia.
      rewrite Z.shiftl_mul_pow2 by lia. reflexivity. }
  rewrite (ToInt32_small ((a * 2 ^ 8 + b) * 2 ^ 8)) by lia.
  rewrite lor_disjoint_add by lia.
  lia.
Qed.

(* ================================================================== *)
(** ** Facts about the event loop of [parseMTR] *)
(* ================================================================== *)

(** Case analysis on the tests of a loop body. *)
Ltac split_tests :=
  repeat match goal with
         | |- context [match ?x with _ => _ end] =>
             match type of x with
             | bool => destruct x eqn:?
             | option _ => destruct x eqn:?
             | sumbool _ _ => destruct x
             end
         end.

Section TrackDecoderFacts.

Variable data : list byte.
Variable endPos : Z.
Variable tickDuration : Q.

Local Abbreviation iteration := (parseMTR_iteration data endPos tickDuration).
Local Abbreviation loop := (fun fuel => parseMTR_loop data fuel endPos tickDuration).

(** Every pass moves the cursor forward. *)
Lemma parseMTR_iteration_advances st flow st' :
  iteration st = (flow, st') ->
  MTRLoop.position st < MTRLoop.position st'.
Proof.
  unfold parseMTR_iteration, parseMTR_fallthrough, readUInt8, readUInt24BE.
  destruct (data_at data (MTRLoop.position st)) as [status|] eqn:Hst.
  2:{ split_tests; intros [= <- <-]; simpl; lia. }
  pose proof (data_at_range _ _ _ Hst) as Hr.
  destruct ((128 <=? status) && (status <=? 143)).
  { split_tests; intros [= <- <-]; simpl; lia. }
  destruct ((144 <=? status) && (status <=? 159)).
  { split_tests; intros [= <- <-]; simpl; lia. }
  destruct (status =? 255).
  { split_tests; intros [= <- <-]; simpl;
      try match goal with
          | H : data_at _ _ = Some _ |- _ =>
              pose proof (data_at_range _ _ _ H)
          end; lia. }
  destruct (status <? 128) eqn:Hlt.
  { rewrite readVariableLength_first_byte by lia.
    intros [= <- <-]; simpl; lia. }
  split_tests; intros [= <- <-]; simpl; lia.
Qed.

(** A pass only appends to the notes. *)
Lemma parseMTR_iteration_notes st flow st' :
  iteration st = (flow, st') ->
  MTRLoop.notes st' = MTRLoop.notes st
  \/ exists note velocity channel,
       MTRLoop.notes st'
       = MTRLoop.notes st
         ++ [MMFNote.mk (MTRLoop.currentTime st) note
               DEFAULT_NOTE_DURATION_MS velocity channel]
       /\ MTRLoop.currentTime st' = MTRLoop.currentTime st.
Proof.
  unfold parseMTR_iteration, parseMTR_fallthrough, readUInt8, readUInt24BE.
  destruct (data_at data (MTRLoop.position st)) as [status|] eqn:Hst.
  2:{ split_tests; intros [= <- <-]; simpl; auto. }
  destruct ((128 <=? status) && (status <=? 143)).
  { split_tests; intros [= <- <-]; simpl; auto. }
  destruct ((144 <=? status) && (status <=? 159)).
  { split_tests; intros [= <- <-]; simpl; eauto 6. }
  destruct (status =? 255).
  { split_tests; intros [= <- <-]; simpl; auto. }
  destruct (status <? 128).
  { destruct (readVariableLength data status _).
    intros [= <- <-]; simpl; auto. }
  split_tests; intros [= <- <-]; simpl; auto.
Qed.

(** The running time never goes back. *)
Lemma parseMTR_iteration_time st flow st' :
  (0 <= tickDuration)%Q ->
  iteration st = (flow, st') ->
  (MTRLoop.currentTime st <= MTRLoop.currentTime st')%Q.
Proof.
  intros Htick.
  unfold parseMTR_iteration, parseMTR_fallthrough, readUInt8, readUInt24BE.
  destruct (data_at data (MTRLoop.position st)) as [status|] eqn:Hst.
  2:{ split_tests; intros [= <- <-]; simpl; apply Qle_refl. }
  pose proof (data_at_range _ _ _ Hst) as Hr.
  destruct ((128 <=? status) && (status <=? 143)).
  { split_tests; intros [= <- <-]; simpl; apply Qle_refl. }
  destruct ((144 <=? status) && (status <=? 159)).
  { split_tests; intros [= <- <-]; simpl; apply Qle_refl. }
  destruct (status =? 255).
  { split_tests; intros [= <- <-]; simpl; apply Qle_refl. }
  destruct (status <? 128) eqn:Hlt.
  { rewrite readVariableLength_first_byte by lia.
    intros [= <- <-]; simpl.
    rewrite <- (Qplus_0_r (MTRLoop.currentTime st)) at 1.
    apply Qplus_le_r. apply Qmult_le_0_compat; [|exact Htick].
    change 0%Q with (inject_Z 0). rewrite <- Zle_Qle. lia. }
  split_tests; intros [= <- <-]; simpl; apply Qle_refl.
Qed.

(** The loop returns: the distance to [endPos] is enough fuel. *)
Lemma parseMTR_loop_total fuel st :
  (Z.to_nat (endPos - MTRLoop.position st) <= fuel)%nat ->
  exists st', loop fuel st = Some st'.
Proof.
  revert st. induction fuel as [|fuel IH]; intros st Hfuel; simpl.
  - destruct (Z.ltb_spec (MTRLoop.position st) (endPos - 1)); [lia|eauto].
  - destruct (Z.ltb_spec (MTRLoop.position st) (endPos - 1)); [|eauto].
    destruct (iteration st) as [[] st'] eqn:E; [|eauto].
    apply IH. apply parseMTR_iteration_advances in E. lia.
Qed.

(** More fuel does not change a result. *)
Lemma parseMTR_loop_fuel_mono fuel fuel' st r :
  (fuel <= fuel')%nat -> loop fuel st = Some r -> loop fuel' st = Some r.
Proof.
  revert fuel' st. induction fuel as [|fuel IH]; intros fuel' st Hle; simpl.
  - destruct (MTRLoop.position st <? endPos - 1) eqn:E; [discriminate|].
    intros [= <-]. destruct fuel'; simpl; now rewrite E.
  - destruct fuel' as [|fuel']; [lia|]. simpl.
    destruct (MTRLoop.position st <? endPos - 1); [|auto].
    destruct (iteration st) as [[] st']; [|auto].
    apply IH. lia.
Qed.

(** The loop only appends to the notes. *)
Lemma parseMTR_loop_notes fuel st r :
  loop fuel st = Some r ->
  exists rest, MTRLoop.notes r = MTRLoop.notes st ++ rest.
Proof.
  revert st. induction fuel as [|fuel IH]; intros st; simpl.
  - destruct (_ <? _); [discriminate|].
    intros [= <-]. exists []. now rewrite app_nil_r.
  - destruct (_ <? _).
    2:{ intros [= <-]. exists []. now rewrite app_nil_r. }
    destruct (iteration st) as [flow st'] eqn:E.
    assert (Hst' : exists rest, MTRLoop.notes st' = MTRLoop.notes st ++ rest).
    { destruct (parseMTR_iteration_notes _ _ _ E) as [->|(n & v & c & -> & _)].
      - exists []. now rewrite app_nil_r.
      - eauto. }
    destruct Hst' as [rest1 H1].
    destruct flow.
    + intros H. destruct (IH _ H) as [rest2 H2].
      exists (rest1 ++ rest2). now rewrite H2, H1, app_assoc.
    + intros [= <-]. eauto.
Qed.

End TrackDecoderFacts.

(* ================================================================== *)
(** ** Order of the notes of one track *)
(* ================================================================== *)

Lemma non_decreasing_time_snoc notes n :
  non_decreasing_time notes ->
  all_before (MMFNote.time n) notes ->
  non_decreasing_time (notes ++ [n]).
Proof.
  unfold non_decreasing_time, all_before.
  induction 1 as [|a l Hl IH Ha]; intros Hb; simpl.
  - constructor; constructor.
  - inversion Hb; subst. constructor; [auto|].
    apply Forall_app. split; [assumption|]. constructor; [assumption|constructor].
Qed.

Lemma all_before_le t t' notes :
  (t <= t')%Q -> all_before t notes -> all_before t' notes.
Proof.
  intros Hle. unfold all_before. apply Forall_impl.
  intros n Hn. now apply Qle_trans with t.
Qed.

Lemma tickDuration_of_pos d : (0 < tickDuration_of d)%Q.
Proof.
  unfold tickDuration_of, msPerQuarterNote.
  destruct d as [d|]; [|reflexivity].
  destruct (Z.gtb_spec d 0); [|reflexivity].
  apply Qlt_shift_div_l.
  - change 0%Q with (inject_Z 0). rewrite <- Zlt_Qlt. lia.
  - rewrite Qmult_0_l. reflexivity.
Qed.

Section TrackOrder.

Variable data : list byte.
Variable endPos : Z.
Variable tickDuration : Q.
Hypothesis tick_nonneg : (0 <= tickDuration)%Q.

Lemma ordered_so_far_iteration st flow st' :
  parseMTR_iteration data endPos tickDuration st = (flow, st') ->
  ordered_so_far st -> ordered_so_far st'.
Proof.
  intros E [Hs Hb].
  pose proof (parseMTR_iteration_time _ _ _ _ _ _ tick_nonneg E) as Ht.
  unfold ordered_so_far.
  destruct (parseMTR_iteration_notes _ _ _ _ _ _ E)
    as [->|(n & v & c & -> & Hc)].
  - split; [assumption|]. now apply all_before_le with (MTRLoop.currentTime st).
  - split.
    + apply non_decreasing_time_snoc; assumption.
    + rewrite Hc. apply Forall_app. split; [assumption|].
      constructor; [apply Qle_refl|constructor].
Qed.

Lemma ordered_so_far_loop fuel st r :
  parseMTR_loop data fuel endPos tickDuration st = Some r ->
  ordered_so_far st -> ordered_so_far r.
Proof.
  revert st. induction fuel as [|fuel IH]; intros st; simpl.
  - destruct (_ <? _); [discriminate|]. now intros [= <-].
  - destruct (_ <? _); [|now intros [= <-]].
    destruct (parseMTR_iteration data endPos tickDuration st)
      as [flow st'] eqn:E.
    intros H Hinv.
    pose proof (ordered_so_far_iteration _ _ _ E Hinv) as Hinv'.
    destruct flow; [eauto|]. now injection H as <-.
Qed.

End TrackOrder.

(** [parseMTR] returns on every chunk, with the cursor at the end of the
    chunk. *)
Lemma parseMTR_total data chunk position :
  exists track,
    parseMTR data chunk position
    = Some (track, ChunkInfo.offset chunk + ChunkInfo.size chunk).
Proof.
  unfold parseMTR.
  destruct (parseMTR_subheader _ _ _) as [[h p]|]; [|eauto].
  destruct (parseMTR_loop_total data (ChunkInfo.offset chunk + ChunkInfo.size chunk)
              (tickDuration_of (SubHeader.timeBaseD h))
              (parseMTR_fuel (ChunkInfo.offset chunk + ChunkInfo.size chunk) p)
              (MTRLoop.mk p 0 [] None)) as [st' ->]; [|eauto].
  unfold parseMTR_fuel. simpl. lia.
Qed.

(** C8.  For every buffer and every music-track chunk, [parseMTR] returns
    a track whose notes are in non-decreasing order of start time: each
    note starts at the running time of the moment it is emitted, and the
    running time only grows. *)
Theorem parseMTR_notes_non_decreasing data chunk position :
  exists track,
    parseMTR data chunk position
    = Some (track, ChunkInfo.offset chunk + ChunkInfo.size chunk)
    /\ non_decreasing_time (TrackData.notes track).
Proof.
  destruct (parseMTR_total data chunk position) as [track H].
  exists track. split; [assumption|].
  unfold parseMTR in H.
  destruct (parseMTR_subheader _ _ _) as [[h p]|].
  2:{ injection H as <-. constructor. }
  destruct (parseMTR_loop _ _ _ _ _) as [r|] eqn:E; [|discriminate].
  injection H as <-. simpl.
  apply ordered_so_far_loop in E.
  - apply E.
  - apply Qlt_le_weak, tickDuration_of_pos.
  - split; constructor.
Qed.

(* ================================================================== *)
(** ** The sub-header of a music-track chunk *)
(* ================================================================== *)

Lemma parseMTR_subheader_short data endPos position :
  endPos - position <= 5 -> parseMTR_subheader data endPos position = None.
Proof.
  intros H. unfold parseMTR_subheader, readUInt8.
  repeat (match goal with
          | |- context [?a >=? ?b] => destruct (Z.geb_spec a b)
          end; [reflexivity|]).
  lia.
Qed.

Lemma parseMTR_subheader_long data endPos position :
  5 < endPos - position ->
  parseMTR_subheader data endPos position
  = Some (SubHeader.mk (data_at data position) (data_at data (position + 1))
            (data_at data (position + 2)) (data_at data (position + 3))
            (data_at data (position + 4)),
          position + 5).
Proof.
  intros H. unfold parseMTR_subheader, readUInt8.
  repeat (match goal with
          | |- context [?a >=? ?b] => destruct (Z.geb_spec a b)
          end; [lia|]).
  rewrite <- !Z.add_assoc. reflexivity.
Qed.

(** A chunk of more than five bytes: [parseMTR] runs the event loop from
    the sixth byte, with the tick duration of the third. *)
Lemma parseMTR_runs_loop data chunk :
  let offset := ChunkInfo.offset chunk in
  let endPos := ChunkInfo.offset chunk + ChunkInfo.size chunk in
  5 < ChunkInfo.size chunk ->
  parseMTR data chunk offset
  = option_map
      (fun st => (TrackData.mk (MTRLoop.notes st) (MTRLoop.tempo st), endPos))
      (parseMTR_loop data (parseMTR_fuel endPos (offset + 5)) endPos
         (tickDuration_of (data_at data (offset + 2)))
         (parseMTR_loop_entry chunk)).
Proof.
  intros offset endPos H.
  assert (E := parseMTR_subheader_long data endPos offset).
  unfold parseMTR. fold endPos. fold offset.
  rewrite E by (unfold endPos, offset; lia).
  simpl. unfold parseMTR_loop_entry. fold offset.
  destruct (parseMTR_loop _ _ _ _ _); reflexivity.
Qed.

(** C3.  [parseMTR], called with the cursor at the start of the chunk,
    first reads five one-byte fields in the order format type, sequence
    type, duration time-base, gate time-base, channel status, and the event
    loop starts at the sixth byte of the chunk.  A chunk too short to hold
    the five fields (and also one that holds nothing but them) returns no
    notes and no tempo, the cursor being set to the end of the chunk. *)
Theorem parseMTR_reads_subheader_first data chunk :
  let offset := ChunkInfo.offset chunk in
  let endPos := ChunkInfo.offset chunk + ChunkInfo.size chunk in
  (ChunkInfo.size chunk <= 5 ->
   parseMTR data chunk offset = Some (TrackData.mk [] None, endPos))
  /\ (5 < ChunkInfo.size chunk ->
      parseMTR_subheader data endPos offset
      = Some (SubHeader.mk (data_at data offset) (data_at data (offset + 1))
                (data_at data (offset + 2)) (data_at data (offset + 3))
                (data_at data (offset + 4)),
              offset + 5)
      /\ parseMTR data chunk offset
         = option_map
             (fun st => (TrackData.mk (MTRLoop.notes st) (MTRLoop.tempo st),
                         endPos))
             (parseMTR_loop data (parseMTR_fuel endPos (offset + 5)) endPos
                (tickDuration_of (data_at data (offset + 2)))
                (parseMTR_loop_entry chunk))).
Proof.
  intros offset endPos. split.
  - intros H. unfold parseMTR.
    fold endPos. rewrite parseMTR_subheader_short by (unfold endPos, offset; lia).
    reflexivity.
  - intros H. split.
    + apply parseMTR_subheader_long. unfold endPos, offset. lia.
    + now apply parseMTR_runs_loop.
Qed.

(** A chunk of four bytes, and a chunk of eight bytes whose last three are
    a note-on event. *)
Lemma parseMTR_reads_subheader_first_witness :
  parseMTR (bytes [0; 0; 48; 48]) (ChunkInfo.mk (Js.lit "MTR") 4 0) 0
  = Some (TrackData.mk [] None, 4)
  /\ parseMTR (bytes [1; 2; 48; 24; 0; 0x90; 60; 100])
       (ChunkInfo.mk (Js.lit "MTR") 8 0) 0
     = Some (TrackData.mk [MMFNote.mk 0 60 250 100 0] None, 8).
Proof.
  split.
  - destruct (parseMTR_reads_subheader_first (bytes [0; 0; 48; 48])
                (ChunkInfo.mk (Js.lit "MTR") 4 0)) as [H _].
    apply H. simpl. lia.
  - destruct (parseMTR_reads_subheader_first
                (bytes [1; 2; 48; 24; 0; 0x90; 60; 100])
                (ChunkInfo.mk (Js.lit "MTR") 8 0)) as [_ H].
    assert (L : 5 < 8) by lia. destruct (H L) as [_ E].
    refine (eq_trans E _). reflexivity.
Defined.

(* ================================================================== *)
(** ** Single events of the stream *)
(* ================================================================== *)

(** Decide the comparisons of a loop body from the context. *)
Ltac decide_test :=
  rewrite ?Z.gtb_ltb, ?Z.geb_leb;
  repeat match goal with
         | |- context [?a <=? ?b] =>
             first [ rewrite (proj2 (Z.leb_le a b)) by lia
                   | rewrite (proj2 (Z.leb_gt a b)) by lia ]
         | |- context [?a <? ?b] =>
             first [ rewrite (proj2 (Z.ltb_lt a b)) by lia
                   | rewrite (proj2 (Z.ltb_ge a b)) by lia ]
         | |- context [?a =? ?b] =>
             first [ rewrite (proj2 (Z.eqb_eq a b)) by lia
                   | rewrite (proj2 (Z.eqb_neq a b)) by lia ]
         end;
  cbn [andb orb negb].

Section Events.

Variable data : list byte.
Variable endPos : Z.
Variable tickDuration : Q.

Local Abbreviation iteration := (parseMTR_iteration data endPos tickDuration).
Local Abbreviation loop := (fun fuel => parseMTR_loop data fuel endPos tickDuration).
Local Abbreviation step := (parseMTR_step data endPos tickDuration).
Local Abbreviation steps := (parseMTR_steps data endPos tickDuration).

Lemma parseMTR_loop_step fuel st st' :
  step st st' -> loop (S fuel) st = loop fuel st'.
Proof.
  intros [Hguard E]. simpl.
  destruct (Z.ltb_spec (MTRLoop.position st) (endPos - 1)); [|lia].
  now rewrite E.
Qed.

Lemma parseMTR_loop_steps st st' :
  steps st st' ->
  exists k, forall fuel, loop (k + fuel)%nat st = loop fuel st'.
Proof.
  induction 1 as [st|st st' st'' Hstep _ [k IH]].
  - exists 0%nat. reflexivity.
  - exists (S k). intros fuel.
    change (S k + fuel)%nat with (S (k + fuel)).
    rewrite (parseMTR_loop_step _ _ _ Hstep). apply IH.
Qed.

(** A delta-time event: one byte below 0x80, added to the running time
    after scaling. *)
Lemma parseMTR_iteration_delta st d :
  data_at data (MTRLoop.position st) = Some d -> d < 0x80 ->
  iteration st
  = (Continue,
     MTRLoop.mk (MTRLoop.position st + 1)
       (MTRLoop.currentTime st + inject_Z d * tickDuration)%Q
       (MTRLoop.notes st) (MTRLoop.tempo st)).
Proof.
  intros Hd Hlt. pose proof (data_at_range _ _ _ Hd) as Hr.
  unfold parseMTR_iteration, readUInt8. rewrite Hd.
  decide_test.
  rewrite readVariableLength_first_byte by lia. reflexivity.
Qed.

(** An event that is not a delta-time leaves the running time alone. *)
Lemma parseMTR_iteration_not_delta st flow st' :
  Js.lt (data_at data (MTRLoop.position st)) 0x80 = false ->
  iteration st = (flow, st') ->
  MTRLoop.currentTime st' = MTRLoop.currentTime st.
Proof.
  unfold parseMTR_iteration, parseMTR_fallthrough, readUInt8, readUInt24BE.
  destruct (data_at data (MTRLoop.position st)) as [status|] eqn:Hst.
  2:{ intros _. split_tests; intros [= <- <-]; reflexivity. }
  simpl. intros Hge.
  destruct ((128 <=? status) && (status <=? 143)).
  { split_tests; intros [= <- <-]; reflexivity. }
  destruct ((144 <=? status) && (status <=? 159)).
  { split_tests; intros [= <- <-]; reflexivity. }
  destruct (status =? 255).
  { split_tests; intros [= <- <-]; reflexivity. }
  rewrite Hge.
  split_tests; intros [= <- <-]; reflexivity.
Qed.

Lemma emits_note_time st st' n :
  emits_note data endPos tickDuration st st' n ->
  MMFNote.time n = MTRLoop.currentTime st
  /\ MTRLoop.currentTime st' = MTRLoop.currentTime st.
Proof.
  intros [[_ E] Hn].
  destruct (parseMTR_iteration_notes _ _ _ _ _ _ E)
    as [H|(note & v & c & H & Ht)]; rewrite H in Hn.
  - exfalso. apply (f_equal (@length _)) in Hn.
    rewrite length_app in Hn. simpl in Hn. lia.
  - apply app_inv_head in Hn. injection Hn as <-. auto.
Qed.

Lemma other_events_keep st st' :
  other_events data endPos tickDuration st st' ->
  MTRLoop.currentTime st' = MTRLoop.currentTime st
  /\ MTRLoop.notes st' = MTRLoop.notes st
  /\ steps st st'.
Proof.
  induction 1 as [st|st st' st'' [[Hg E] [Hnd Hn]] _ (IHt & IHn & IHs)].
  - repeat split. constructor.
  - rewrite IHt, IHn, Hn.
    rewrite (parseMTR_iteration_not_delta _ _ _ Hnd E).
    repeat split. econstructor; [split; eassumption|assumption].
Qed.

Lemma delta_time_event_time st st' N :
  delta_time_event data endPos tickDuration st st' N ->
  MTRLoop.currentTime st'
  = (MTRLoop.currentTime st + inject_Z N * tickDuration)%Q
  /\ MTRLoop.notes st' = MTRLoop.notes st.
Proof.
  intros [[_ E] [Hd Hlt]].
  rewrite (parseMTR_iteration_delta _ _ Hd Hlt) in E.
  injection E as <-. auto.
Qed.

Lemma parseMTR_steps_trans st st' st'' :
  steps st st' -> steps st' st'' -> steps st st''.
Proof.
  induction 1; [auto|]. intros H'. econstructor; eauto.
Qed.

Lemma parseMTR_steps_one st st' : step st st' -> steps st st'.
Proof. intros H. econstructor; [exact H|constructor]. Qed.

(** What the loop returns from a state holds the notes of every state it
    passes through as a prefix. *)
Lemma parseMTR_steps_result fuel st st' r :
  steps st st' -> loop fuel st = Some r ->
  exists rest, MTRLoop.notes r = MTRLoop.notes st' ++ rest.
Proof.
  intros Hsteps Hr.
  destruct (parseMTR_loop_steps _ _ Hsteps) as [k Hk].
  destruct (parseMTR_loop_total data endPos tickDuration
              (Z.to_nat (endPos - MTRLoop.position st')) st' (le_n _))
    as [r' Hr'].
  rewrite <- Hk in Hr'.
  set (big := (fuel + (k + Z.to_nat (endPos - MTRLoop.position st')))%nat) in *.
  assert (r' = r) as ->.
  { assert (H1 : loop big st = Some r).
    { eapply parseMTR_loop_fuel_mono; [|exact Hr]. unfold big. lia. }
    assert (H2 : loop big st = Some r').
    { eapply parseMTR_loop_fuel_mono; [|exact Hr']. unfold big. lia. }
    congruence. }
  rewrite Hk in Hr'.
  eapply parseMTR_loop_notes; eassumption.
Qed.

End Events.

(* ================================================================== *)
(** ** Status bytes 0xA0 to 0xAF *)
(* ================================================================== *)

(** C10.  A status byte from 0xA0 to 0xAF read by the event loop takes
    the last branch of the body: the cursor moves past that one byte and
    nothing else changes, so the loop decodes the byte after it as the
    next status byte.  When the two bytes that follow are below 0x80 they
    are decoded as two delta-times, both added to the running time. *)
Theorem aftertouch_status_consumes_one_byte data endPos tickDuration st status :
  MTRLoop.position st < endPos - 1 ->
  data_at data (MTRLoop.position st) = Some status ->
  0xA0 <= status <= 0xAF ->
  parseMTR_iteration data endPos tickDuration st
  = (Continue, MTRLoop.at_position st (MTRLoop.position st + 1))
  /\ forall d1 d2 fuel,
       data_at data (MTRLoop.position st + 1) = Some d1 -> d1 < 0x80 ->
       data_at data (MTRLoop.position st + 2) = Some d2 -> d2 < 0x80 ->
       MTRLoop.position st + 2 < endPos - 1 ->
       parseMTR_loop data (3 + fuel) endPos tickDuration st
       = parseMTR_loop data fuel endPos tickDuration
           (MTRLoop.mk (MTRLoop.position st + 3)
              (MTRLoop.currentTime st + inject_Z d1 * tickDuration
               + inject_Z d2 * tickDuration)%Q
              (MTRLoop.notes st) (MTRLoop.tempo st)).
Proof.
  intros Hguard Hst Hrange.
  assert (E : parseMTR_iteration data endPos tickDuration st
              = (Continue, MTRLoop.at_position st (MTRLoop.position st + 1))).
  { unfold parseMTR_iteration, parseMTR_fallthrough, readUInt8. rewrite Hst.
    decide_test. reflexivity. }
  split; [exact E|].
  intros d1 d2 fuel Hd1 Hlt1 Hd2 Hlt2 Hguard2.
  change (3 + fuel)%nat with (S (S (S fuel))).
  rewrite (parseMTR_loop_step data endPos tickDuration _ st
             (MTRLoop.at_position st (MTRLoop.position st + 1)))
    by (split; [lia|exact E]).
  set (st1 := MTRLoop.at_position st (MTRLoop.position st + 1)).
  rewrite (parseMTR_loop_step data endPos tickDuration _ st1
             (MTRLoop.mk (MTRLoop.position st + 2)
                (MTRLoop.currentTime st + inject_Z d1 * tickDuration)%Q
                (MTRLoop.notes st) (MTRLoop.tempo st))).
  2:{ split; [simpl; lia|].
      rewrite (parseMTR_iteration_delta data endPos tickDuration st1 d1 Hd1 Hlt1).
      unfold st1. simpl. rewrite <- Z.add_assoc. reflexivity. }
  set (st2 := MTRLoop.mk (MTRLoop.position st + 2) _ _ _).
  apply parseMTR_loop_step.
  split; [simpl; lia|].
  rewrite (parseMTR_iteration_delta data endPos tickDuration st2 d2 Hd2 Hlt2).
  unfold st2. simpl. rewrite <- Z.add_assoc. reflexivity.
Qed.

Lemma aftertouch_status_consumes_one_byte_witness :
  parseMTR_iteration aftertouch_example 11 1 (MTRLoop.mk 5 0 [] None)
  = (Continue, MTRLoop.mk 6 0 [] None)
  /\ parseMTR_loop aftertouch_example (3 + 3) 11 1 (MTRLoop.mk 5 0 [] None)
     = Some (MTRLoop.mk 11 (0 + 16 * 1 + 32 * 1)
               [MMFNote.mk (0 + 16 * 1 + 32 * 1) 60 250 100 0] None).
Proof.
  assert (G : 5 < 11 - 1) by lia.
  assert (R : 0xA0 <= 0xA3 <= 0xAF) by lia.
  destruct (aftertouch_status_consumes_one_byte aftertouch_example 11 1
              (MTRLoop.mk 5 0 [] None) 0xA3 G eq_refl R) as [E H].
  split; [exact E|].
  assert (L1 : 0x10 < 0x80) by lia.
  assert (L2 : 0x20 < 0x80) by lia.
  assert (G2 : 5 + 2 < 11 - 1) by lia.
  refine (eq_trans (H 0x10 0x20 3%nat eq_refl L1 eq_refl L2 G2) _).
  reflexivity.
Defined.

(* ================================================================== *)
(** ** Tempo meta events *)
(* ================================================================== *)

Lemma Math_round_spec q n :
  Js.Math_round q = n <-> (inject_Z n - (1 # 2) <= q < inject_Z n + (1 # 2))%Q.
Proof.
  unfold Js.Math_round.
  pose proof (Qfloor_le (q + (1 # 2))) as Hlo.
  pose proof (Qlt_floor (q + (1 # 2))) as Hhi.
  rewrite inject_Z_plus in Hhi. change (inject_Z 1) with 1%Q in Hhi.
  split.
  - intros <-. split; lra.
  - intros [Hn1 Hn2].
    assert (A : (inject_Z n < inject_Z (Qfloor (q + (1 # 2)) + 1))%Q).
    { rewrite inject_Z_plus. change (inject_Z 1) with 1%Q. lra. }
    assert (B : (inject_Z (Qfloor (q + (1 # 2))) < inject_Z (n + 1))%Q).
    { rewrite inject_Z_plus. change (inject_Z 1) with 1%Q. lra. }
    rewrite <- Zlt_Qlt in A, B. lia.
Qed.

(** For a positive divisor the tempo is the integer nearest to
    60000000 / m, a tie going up. *)
Lemma tempo_of_microseconds_nearest m :
  0 < m ->
  exists n, tempo_of_microseconds m = BPM n
            /\ (2 * n - 1) * m <= 120000000 < (2 * n + 1) * m.
Proof.
  intros Hm. unfold tempo_of_microseconds.
  destruct (Z.eqb_spec m 0); [lia|].
  set (q := (60000000 / inject_Z m)%Q).
  exists (Js.Math_round q). split; [reflexivity|].
  destruct (proj1 (Math_round_spec q (Js.Math_round q)) eq_refl) as [Hlo Hhi].
  set (r := Js.Math_round q) in *.
  assert (Hmq : (0 < inject_Z m)%Q).
  { change 0%Q with (inject_Z 0). rewrite <- Zlt_Qlt. lia. }
  assert (Eq : (q * inject_Z m == 60000000)%Q).
  { unfold q. field. intros C. rewrite C in Hmq. now apply Qlt_irrefl in Hmq. }
  assert (Hlo' : ((inject_Z r - (1 # 2)) * inject_Z m <= q * inject_Z m)%Q).
  { apply Qmult_le_compat_r; [exact Hlo|]. now apply Qlt_le_weak. }
  assert (Hhi' : (q * inject_Z m < (inject_Z r + (1 # 2)) * inject_Z m)%Q).
  { apply Qmult_lt_compat_r; assumption. }
  rewrite Eq in Hlo', Hhi'.
  split.
  - rewrite Zle_Qle.
    replace (2 * r - 1) with (2 * r + -1) by lia.
    rewrite inject_Z_mult, inject_Z_plus, inject_Z_mult.
    change (inject_Z 2) with 2%Q. change (inject_Z (-1)) with (-1 # 1)%Q.
    change (inject_Z 120000000) with 120000000%Q.
    setoid_replace ((2 * inject_Z r + (-1 # 1)) * inject_Z m)%Q
      with (2 * ((inject_Z r - (1 # 2)) * inject_Z m))%Q by ring.
    lra.
  - rewrite Zlt_Qlt.
    rewrite inject_Z_mult, inject_Z_plus, inject_Z_mult.
    change (inject_Z 2) with 2%Q. change (inject_Z 1) with 1%Q.
    change (inject_Z 120000000) with 120000000%Q.
    setoid_replace ((2 * inject_Z r + 1) * inject_Z m)%Q
      with (2 * ((inject_Z r + (1 # 2)) * inject_Z m))%Q by ring.
    lra.
Qed.

(** C7.  A meta event FF 51 03 whose three data bytes lie inside the
    chunk is decoded by the event loop in one pass: the tempo of the track
    becomes [Math.round(60000000 / m)], where m is the big-endian 24-bit
    number of the three data bytes, and the cursor moves past the six
    bytes.  For a positive m this is the nearest integer to 60000000 / m;
    m = 500000 gives 120 and m = 400000 gives 150. *)
Theorem tempo_meta_event_sets_tempo data endPos tickDuration st :
  let p := MTRLoop.position st in
  let m := byte_or_zero (data_at data (p + 3)) * 65536
           + byte_or_zero (data_at data (p + 4)) * 256
           + byte_or_zero (data_at data (p + 5)) in
  data_at data p = Some 0xFF ->
  data_at data (p + 1) = Some 0x51 ->
  data_at data (p + 2) = Some 3 ->
  p + 6 <= endPos ->
  parseMTR_step data endPos tickDuration st
    (MTRLoop.mk (p + 6) (MTRLoop.currentTime st) (MTRLoop.notes st)
       (Some (tempo_of_microseconds m)))
  /\ (0 < m ->
      exists n, tempo_of_microseconds m = BPM n
                /\ (2 * n - 1) * m <= 120000000 < (2 * n + 1) * m)
  /\ tempo_of_microseconds 500000 = BPM 120
  /\ tempo_of_microseconds 400000 = BPM 150.
Proof.
  intros p m H0 H1 H2 Hend.
  split; [|split; [apply tempo_of_microseconds_nearest|split; reflexivity]].
  split; [fold p; lia|].
  unfold parseMTR_iteration, readUInt8. fold p. rewrite H0.
  decide_test.
  replace (p + 1 + 1) with (p + 2) by lia. rewrite H1, H2.
  cbn [Js.strict_eq]. decide_test.
  replace (p + 2 + 1) with (p + 3) by lia.
  pose proof (readUInt24BE_value data (p + 3)) as V.
  destruct (readUInt24BE data (p + 3)) as [v p'] eqn:E.
  assert (p' = p + 6) as ->.
  { unfold readUInt24BE in E. injection E as _ <-. lia. }
  simpl in V. subst v.
  replace (p + 3 + 1) with (p + 4) by lia.
  replace (p + 3 + 2) with (p + 5) by lia.
  reflexivity.
Qed.

Lemma tempo_meta_event_sets_tempo_witness :
  parseMTR_step tempo_example 11 1 (MTRLoop.mk 5 0 [] None)
    (MTRLoop.mk 11 0 [] (Some (BPM 120)))
  /\ parseMTR tempo_example (ChunkInfo.mk (Js.lit "MTR") 11 0) 0
     = Some (TrackData.mk [] (Some (BPM 120)), 11).
Proof.
  assert (L : 5 + 6 <= 11) by lia.
  destruct (tempo_meta_event_sets_tempo tempo_example 11 1
              (MTRLoop.mk 5 0 [] None) eq_refl eq_refl eq_refl L)
    as [E _].
  split; [exact E|reflexivity].
Defined.

(* ================================================================== *)
(** ** Delta-times and the time-base *)
(* ================================================================== *)



(* ================================================================== *)
(** ** Termination of the chunk parsers *)
(* ================================================================== *)

Section ParserFacts.

Variable dec : option (list byte -> Js.jsstring).
Variable data : list byte.

Lemma parseCNTI_iteration_advances endPos metadata position flow metadata' position' :
  parseCNTI_iteration dec data endPos metadata position
  = (flow, (metadata', position')) ->
  position < position'.
Proof.
  unfold parseCNTI_iteration, readUInt8, readString.
  destruct (data_at data (position + 1)) as [contentSize|] eqn:E.
  - pose proof (data_at_range _ _ _ E).
    destruct (_ || _); intros [= <- <- <-]; lia.
  - intros [= <- <- <-]; lia.
Qed.

Lemma parseCNTI_loop_total fuel endPos metadata position :
  (Z.to_nat (endPos - position) <= fuel)%nat ->
  exists r, parseCNTI_loop dec data fuel endPos metadata position = Some r.
Proof.
  revert metadata position.
  induction fuel as [|fuel IH]; intros metadata position Hfuel; simpl.
  - destruct (Z.ltb_spec position (endPos - 2)); [lia|eauto].
  - destruct (Z.ltb_spec position (endPos - 2)); [|eauto].
    destruct (parseCNTI_iteration dec data endPos metadata position)
      as [[] [metadata' position']] eqn:E; [|eauto].
    apply IH. apply parseCNTI_iteration_advances in E. lia.
Qed.

(** [parseCNTI] returns on every chunk, with the cursor at the end of the
    chunk. *)
Lemma parseCNTI_total chunk position :
  exists metadata,
    parseCNTI dec data chunk position
    = Some (metadata, ChunkInfo.offset chunk + ChunkInfo.size chunk).
Proof.
  unfold parseCNTI.
  destruct (parseCNTI_loop_total
              (Z.to_nat (ChunkInfo.offset chunk + ChunkInfo.size chunk - position))
              (ChunkInfo.offset chunk + ChunkInfo.size chunk)
              MMFMetadata.empty position (le_n _)) as [[m p] ->].
  eauto.
Qed.

(** Every branch of the [switch] leaves the cursor at the end of the
    chunk, and the chunk is recorded. *)
Lemma parse_dispatch_total chunk st position :
  exists st',
    parse_dispatch dec data chunk st position = Some st'
    /\ ChunkLoop.position st' = ChunkInfo.offset chunk + ChunkInfo.size chunk
    /\ ChunkLoop.chunks st' = ChunkLoop.chunks st ++ [chunk].
Proof.
  unfold parse_dispatch.
  destruct (_ || _).
  { destruct (parseCNTI_total chunk position) as [m ->]. eauto. }
  destruct (_ || _).
  { destruct (parseMTR_total data chunk position) as [t ->]. eauto. }
  destruct (Js.string_eqb _ _); [eauto|].
  destruct (_ || _); eauto.
Qed.

Lemma ToUint32_range a : 0 <= Js.ToUint32 a < 2 ^ 32.
Proof. unfold Js.ToUint32. apply Z.mod_pos_bound. lia. Qed.

(** With more than eight bytes left, [readChunkHeader] reads the eight
    bytes of a header; otherwise it returns [null]. *)
Lemma readChunkHeader_some position :
  position < Z.of_nat (length data) - 8 ->
  exists chunk,
    readChunkHeader dec data position = Some (chunk, position + 8)
    /\ ChunkInfo.type chunk = fst (readString dec data 4 position)
    /\ ChunkInfo.size chunk = fst (readUInt32BE data (position + 4))
    /\ ChunkInfo.offset chunk = position + 8
    /\ 0 <= ChunkInfo.size chunk < 2 ^ 32.
Proof.
  intros H. unfold readChunkHeader.
  destruct (Z.geb_spec position (Z.of_nat (length data) - 8)); [lia|].
  exists (ChunkInfo.mk (fst (readString dec data 4 position))
            (fst (readUInt32BE data (position + 4))) (position + 8)).
  split; [|simpl; repeat split; try apply ToUint32_range; lia].
  unfold readString, readUInt32BE. simpl.
  replace (position + 4 + 4) with (position + 8) by lia.
  reflexivity.
Qed.

Lemma readChunkHeader_none position :
  Z.of_nat (length data) - 8 <= position ->
  readChunkHeader dec data position = None.
Proof.
  intros H. unfold readChunkHeader.
  destruct (Z.geb_spec position (Z.of_nat (length data) - 8)); [reflexivity|lia].
Qed.

(** The chunk loop returns: every pass moves the cursor by eight bytes at
    least. *)
Lemma parse_chunks_total fuel st :
  (Z.to_nat (Z.of_nat (length data) - 8 - ChunkLoop.position st) <= fuel * 8)%nat ->
  exists st', parse_chunks dec data fuel st = Some st'.
Proof.
  revert st. induction fuel as [|fuel IH]; intros st Hfuel; simpl.
  - destruct (Z.ltb_spec (ChunkLoop.position st) (Z.of_nat (length data) - 8));
      [lia|eauto].
  - destruct (Z.ltb_spec (ChunkLoop.position st) (Z.of_nat (length data) - 8));
      [|eauto].
    destruct (readChunkHeader_some _ H) as (chunk & -> & _ & _ & Hoff & Hsize).
    destruct (parse_dispatch_total chunk st (ChunkLoop.position st + 8))
      as (st' & -> & Hpos & _).
    apply IH. lia.
Qed.

Lemma verifyHeader_position position :
  snd (verifyHeader dec data position) = position + 4.
Proof. reflexivity. Qed.

Lemma parse_run_total : exists st, parse_run dec data = Some st.
Proof.
  unfold parse_run, verifyHeader, readString, readUInt32BE.
  apply parse_chunks_total. simpl. lia.
Qed.

End ParserFacts.

(* ================================================================== *)
(** ** The magic signature *)
(* ================================================================== *)

Lemma string_eqb_spec a b : reflect (a = b) (Js.string_eqb a b).
Proof.
  unfold Js.string_eqb. destruct (list_eq_dec Z.eq_dec a b); now constructor.
Qed.



(* ================================================================== *)
(** ** The guard of the chunk loop *)
(* ================================================================== *)

(** C6, as the code has it.  The chunk loop reads a chunk header exactly
    when more than eight bytes remain after the cursor: the header is the
    next eight bytes, the chunk is dispatched, and the loop goes on at the
    end of the chunk.  With eight bytes or fewer left the loop ends and
    reads nothing. *)
Theorem chunk_loop_reads_header_when_more_than_8_remain dec data fuel st :
  let remaining := Z.of_nat (length data) - ChunkLoop.position st in
  (8 < remaining ->
   exists chunk st',
     readChunkHeader dec data (ChunkLoop.position st)
     = Some (chunk, ChunkLoop.position st + 8)
     /\ ChunkInfo.offset chunk = ChunkLoop.position st + 8
     /\ parse_dispatch dec data chunk st (ChunkLoop.position st + 8) = Some st'
     /\ ChunkLoop.chunks st' = ChunkLoop.chunks st ++ [chunk]
     /\ ChunkLoop.position st' = ChunkInfo.offset chunk + ChunkInfo.size chunk
     /\ parse_chunks dec data (S fuel) st = parse_chunks dec data fuel st')
  /\ (remaining <= 8 ->
      readChunkHeader dec data (ChunkLoop.position st) = None
      /\ parse_chunks dec data fuel st = Some st).
Proof.
  intros remaining. unfold remaining. split.
  - intros H.
    destruct (readChunkHeader_some dec data (ChunkLoop.position st))
      as (chunk & Hread & _ & _ & Hoff & _); [lia|].
    destruct (parse_dispatch_total dec data chunk st (ChunkLoop.position st + 8))
      as (st' & Hdisp & Hpos & Hchunks).
    exists chunk, st'. repeat split; try assumption.
    simpl.
    destruct (Z.ltb_spec (ChunkLoop.position st) (Z.of_nat (length data) - 8));
      [|lia].
    now rewrite Hread, Hdisp.
  - intros H. split; [apply readChunkHeader_none; lia|].
    destruct fuel; simpl;
      destruct (Z.ltb_spec (ChunkLoop.position st) (Z.of_nat (length data) - 8));
      (reflexivity || lia).
Qed.

Lemma chunk_loop_reads_header_when_more_than_8_remain_witness :
  8 < Z.of_nat (length one_chunk_example) - 8
  /\ exists chunk st',
       readChunkHeader None one_chunk_example 8 = Some (chunk, 16)
       /\ ChunkInfo.offset chunk = 16
       /\ parse_dispatch None one_chunk_example chunk (parse_loop_entry 8) 16
          = Some st'
       /\ ChunkLoop.chunks st' = [chunk]
       /\ ChunkLoop.position st' = ChunkInfo.offset chunk + ChunkInfo.size chunk
       /\ parse_chunks None one_chunk_example 17 (parse_loop_entry 8)
          = parse_chunks None one_chunk_example 16 st'.
Proof.
  assert (L : 8 < Z.of_nat (length one_chunk_example) - 8) by (simpl; lia).
  split; [exact L|].
  destruct (chunk_loop_reads_header_when_more_than_8_remain None
              one_chunk_example 16 (parse_loop_entry 8)) as [H _].
  exact (H L).
Defined.

(** C6, as the claim has it, fails on a buffer whose last eight bytes are
    the header of an empty 'CNTI' chunk: the signature is valid and eight
    bytes remain after the cursor, yet no header is read and the loop ends
    without having dispatched the chunk. *)
Lemma chunk_header_at_end_is_not_read :
  fst (verifyHeader None chunk_header_at_end_example 0) = true
  /\ Z.of_nat (length chunk_header_at_end_example) - 8 = 8
  /\ readChunkHeader None chunk_header_at_end_example 8 = None
  /\ parse_run None chunk_header_at_end_example = Some (parse_loop_entry 8)
  /\ ChunkLoop.chunks (parse_loop_entry 8) = [].
Proof. repeat split. Qed.

(* ================================================================== *)
(** ** What [readString] can return *)
(* ================================================================== *)

Lemma trim_start_suffix s :
  (length (Js.trim_start s) <= length s)%nat
  /\ (length (Js.trim_start s) = length s -> Js.trim_start s = s).
Proof.
  induction s as [|c s [IHle IHeq]]; simpl; [auto|].
  destruct (Js.is_white_space c); simpl; [|auto].
  split; [lia|]. intros H. lia.
Qed.

Lemma trim_shorter s :
  (length (Js.trim s) <= length s)%nat
  /\ (length (Js.trim s) = length s -> Js.trim s = s).
Proof.
  unfold Js.trim.
  destruct (trim_start_suffix s) as [L1 E1].
  destruct (trim_start_suffix (rev (Js.trim_start s))) as [L2 E2].
  rewrite length_rev in *. split; [lia|].
  intros H.
  rewrite E2 by lia. rewrite rev_involutive. apply E1. lia.
Qed.

Lemma remove_nul_shorter s :
  (length (Js.remove_nul s) <= length s)%nat
  /\ (length (Js.remove_nul s) = length s -> Js.remove_nul s = s).
Proof.
  unfold Js.remove_nul.
  induction s as [|c s [IHle IHeq]]; simpl; [auto|].
  destruct (negb (c =? 0)); simpl.
  - split; [lia|]. intros H. f_equal. apply IHeq. lia.
  - split; [lia|]. intros H. lia.
Qed.

(** A trimmed string does not start with white space. *)
Lemma trim_start_head s :
  match Js.trim_start s with
  | c :: _ => Js.is_white_space c = false
  | [] => True
  end.
Proof.
  induction s as [|c s IH]; simpl; [exact I|].
  destruct (Js.is_white_space c) eqn:E; [exact IH|exact E].
Qed.

(** A trimmed string does not end with white space either, so it is none
    of the four-character literals that end with a space. *)
Lemma trim_last s t c :
  Js.trim s = t ++ [c] -> Js.is_white_space c = false.
Proof.
  unfold Js.trim. intros H.
  apply (f_equal (@rev Z)) in H.
  rewrite rev_involutive, rev_app_distr in H. simpl in H.
  pose proof (trim_start_head (rev (Js.trim_start s))) as Hh.
  now rewrite H in Hh.
Qed.

Lemma byte_value_inj a b : Js.byte_value a = Js.byte_value b -> a = b.
Proof.
  unfold Js.byte_value. intros H. apply N2Z.inj in H.
  pose proof (Byte.of_to_N a) as Ha. rewrite H, Byte.of_to_N in Ha.
  congruence.
Qed.

Section ReadStringFacts.

Variable dec : option (list byte -> Js.jsstring).
Variable data : list byte.

Lemma decode_text_trimmed bs t c :
  decode_text dec bs = t ++ [c] -> Js.is_white_space c = false.
Proof.
  unfold decode_text. destruct dec; apply trim_last.
Qed.

(** The chunk types [parse] compares with 'MTR ' and 'Mtr ' come out of
    [readString], which trims them: the comparison never succeeds. *)
Lemma readString_is_no_track_tag len position :
  Js.string_eqb (fst (readString dec data len position)) (Js.lit "MTR ")
  || Js.string_eqb (fst (readString dec data len position)) (Js.lit "Mtr ")
  = false.
Proof.
  unfold readString. cbn [fst].
  destruct (string_eqb_spec (decode_text dec (Js.slice data position (position + len)))
              (Js.lit "MTR ")) as [E|_];
    [apply (decode_text_trimmed _ (Js.lit "MTR") 0x20) in E; discriminate|].
  destruct (string_eqb_spec (decode_text dec (Js.slice data position (position + len)))
              (Js.lit "Mtr ")) as [E|_];
    [apply (decode_text_trimmed _ (Js.lit "Mtr") 0x20) in E; discriminate|].
  reflexivity.
Qed.

(** Hence the chunk loop of [parse] never calls [parseMTR]: it leaves the
    notes empty and the tempo at 120. *)
Lemma parse_chunks_decodes_no_track fuel st st' :
  parse_chunks dec data fuel st = Some st' ->
  ChunkLoop.notes st' = ChunkLoop.notes st
  /\ ChunkLoop.tempo st' = ChunkLoop.tempo st.
Proof.
  revert st. induction fuel as [|fuel IH]; intros st; simpl.
  - destruct (_ <? _); [discriminate|]. now intros [= <-].
  - destruct (Z.ltb_spec (ChunkLoop.position st) (Z.of_nat (length data) - 8));
      [|now intros [= <-]].
    destruct (readChunkHeader_some dec data _ H)
      as (chunk & -> & Htype & _ & _ & _).
    destruct (parse_dispatch dec data chunk st (ChunkLoop.position st + 8))
      as [st1|] eqn:D; [|discriminate].
    intros Hloop. destruct (IH _ Hloop) as [-> ->].
    unfold parse_dispatch in D. rewrite Htype in D.
    rewrite readString_is_no_track_tag in D.
    destruct (_ || _).
    { destruct (parseCNTI dec data chunk _) as [[m q]|]; [|discriminate].
      injection D as <-. auto. }
    destruct (Js.string_eqb _ _); [injection D as <-; auto|].
    destruct (_ || _); injection D as <-; auto.
Qed.

Lemma parse_decodes_no_track doc :
  parse dec data = Returned doc ->
  MMFData.notes doc = [] /\ MMFData.tempo doc = BPM 120
  /\ MMFData.duration doc = 0%Q.
Proof.
  unfold parse. destruct (verifyHeader dec data 0) as [ok p].
  destruct (negb ok); [discriminate|].
  destruct (parse_run dec data) as [st|] eqn:R; [|discriminate].
  intros [= <-]. simpl.
  unfold parse_run, verifyHeader, readString, readUInt32BE in R.
  apply parse_chunks_decodes_no_track in R. simpl in R.
  destruct R as [-> ->]. auto.
Qed.

End ReadStringFacts.

(** With the fallback of [readString] ([String.fromCharCode]) the header
    is 'MMMD' exactly when the buffer starts with the four bytes 4D 4D 4D
    44. *)
Lemma fallback_signature data :
  fst (readString None data 4 0) = Js.lit "MMMD"
  <-> firstn 4 data = bytes [0x4D; 0x4D; 0x4D; 0x44].
Proof.
  assert (S : Js.slice data 0 (0 + 4) = firstn 4 data).
  { unfold Js.slice. cbv zeta.
    change (0 <? 0) with false. change (0 + 4 <? 0) with false. cbv iota.
    rewrite (Z.min_l 0) by lia. rewrite Z.sub_0_r.
    change (skipn (Z.to_nat 0) data) with data.
    destruct (Z.min_spec (0 + 4) (Z.of_nat (length data))) as [[Hlt ->]|[Hge ->]].
    - reflexivity.
    - rewrite Nat2Z.id. rewrite !firstn_all2 by lia. reflexivity. }
  unfold readString, decode_text. cbn [fst]. rewrite S.
  set (l := firstn 4 data).
  assert (Hl : (length l <= 4)%nat) by apply firstn_le_length.
  clearbody l. split.
  - intros H.
    destruct (trim_shorter (Js.remove_nul (Js.fromCharCode l))) as [T1 T2].
    destruct (remove_nul_shorter (Js.fromCharCode l)) as [R1 R2].
    assert (Hlen : length (Js.fromCharCode l) = length l)
      by apply length_map.
    assert (H4 : length (Js.trim (Js.remove_nul (Js.fromCharCode l))) = 4%nat)
      by now rewrite H.
    rewrite T2, R2 in H by lia.
    unfold Js.fromCharCode in H.
    destruct l as [|a [|b [|c [|d [|e l]]]]]; try discriminate.
    injection H as Ha Hb Hc Hd.
    change 77 with (Js.byte_value x4d) in Ha, Hb, Hc.
    change 68 with (Js.byte_value x44) in Hd.
    apply byte_value_inj in Ha, Hb, Hc, Hd. subst. reflexivity.
  - intros ->. reflexivity.
Qed.

(* ================================================================== *)
(** ** The revision of [src/lib/mmf-parser.ts]: what carries over *)
(* ================================================================== *)

Section LibRevisionFacts.

Variable dec : option (list byte -> Js.jsstring).
Variable data : list byte.
Variable endPos : Z.

Lemma lib_parseMTR_iteration_advances st st' :
  LibRevision.parseMTR_iteration data endPos st = (Continue, st') ->
  MTRLoop.position st < MTRLoop.position st'.
Proof.
  unfold LibRevision.parseMTR_iteration, parseMTR_fallthrough, readUInt8,
    readUInt24BE.
  destruct (data_at data (MTRLoop.position st)) as [status|] eqn:Hst.
  2:{ split_tests; intros [= <-]; simpl; lia. }
  pose proof (data_at_range _ _ _ Hst) as Hr.
  destruct ((128 <=? status) && (status <=? 143)).
  { intros [= <-]; simpl; lia. }
  destruct ((144 <=? status) && (status <=? 159)).
  { split_tests; intros [= <-]; simpl; lia. }
  destruct (status =? 255).
  { split_tests; try discriminate; intros [= <-]; simpl;
      try match goal with
          | H : data_at _ _ = Some _ |- _ => pose proof (data_at_range _ _ _ H)
          end; lia. }
  destruct (status <? 128) eqn:Hlt.
  { rewrite readVariableLength_first_byte by lia.
    intros [= <-]; simpl; lia. }
  split_tests; try discriminate; intros [= <-]; simpl; lia.
Qed.

Lemma lib_parseMTR_iteration_notes st flow st' :
  LibRevision.parseMTR_iteration data endPos st = (flow, st') ->
  (MTRLoop.currentTime st <= MTRLoop.currentTime st')%Q
  /\ (MTRLoop.notes st' = MTRLoop.notes st
      \/ exists note velocity channel,
           MTRLoop.notes st'
           = MTRLoop.notes st
             ++ [MMFNote.mk (MTRLoop.currentTime st) note
                   DEFAULT_NOTE_DURATION_MS velocity channel]
           /\ MTRLoop.currentTime st' = MTRLoop.currentTime st).
Proof.
  unfold LibRevision.parseMTR_iteration, parseMTR_fallthrough, readUInt8,
    readUInt24BE.
  destruct (data_at data (MTRLoop.position st)) as [status|] eqn:Hst.
  2:{ split_tests; intros [= <- <-]; simpl; split; auto; apply Qle_refl. }
  pose proof (data_at_range _ _ _ Hst) as Hr.
  destruct ((128 <=? status) && (status <=? 143)).
  { intros [= <- <-]; simpl; split; auto; apply Qle_refl. }
  destruct ((144 <=? status) && (status <=? 159)).
  { split_tests; intros [= <- <-]; simpl; split; eauto 6; apply Qle_refl. }
  destruct (status =? 255).
  { split_tests; intros [= <- <-]; simpl; split; auto; apply Qle_refl. }
  destruct (status <? 128) eqn:Hlt.
  { rewrite readVariableLength_first_byte by lia.
    intros [= <- <-]; simpl. split; [|auto].
    rewrite <- (Qplus_0_r (MTRLoop.currentTime st)) at 1.
    apply Qplus_le_r. change 0%Q with (inject_Z 0). rewrite <- Zle_Qle. lia. }
  split_tests; intros [= <- <-]; simpl; split; auto; apply Qle_refl.
Qed.

Lemma lib_parseMTR_loop_total fuel st :
  (Z.to_nat (endPos - MTRLoop.position st) <= fuel)%nat ->
  exists st', LibRevision.parseMTR_loop data fuel endPos st = Some st'.
Proof.
  revert st. induction fuel as [|fuel IH]; intros st Hfuel; simpl.
  - destruct (Z.ltb_spec (MTRLoop.position st) (endPos - 1)); [lia|eauto].
  - destruct (Z.ltb_spec (MTRLoop.position st) (endPos - 1)); [|eauto].
    destruct (LibRevision.parseMTR_iteration data endPos st)
      as [[] st'] eqn:E; [|eauto].
    apply IH. apply lib_parseMTR_iteration_advances in E. lia.
Qed.

Lemma lib_ordered_so_far_loop fuel st r :
  LibRevision.parseMTR_loop data fuel endPos st = Some r ->
  ordered_so_far st -> ordered_so_far r.
Proof.
  revert st. induction fuel as [|fuel IH]; intros st; simpl.
  - destruct (_ <? _); [discriminate|]. now intros [= <-].
  - destruct (_ <? _); [|now intros [= <-]].
    destruct (LibRevision.parseMTR_iteration data endPos st)
      as [flow st'] eqn:E.
    intros H [Hs Hb].
    assert (Hinv' : ordered_so_far st').
    { destruct (lib_parseMTR_iteration_notes _ _ _ E)
        as [Ht [Hn|(n & v & c & Hn & Hc)]];
        unfold ordered_so_far; rewrite Hn.
      - split; [assumption|].
        now apply all_before_le with (MTRLoop.currentTime st).
      - split.
        + apply non_decreasing_time_snoc; assumption.
        + rewrite Hc. apply Forall_app. split; [assumption|].
          constructor; [apply Qle_refl|constructor]. }
    destruct flow; [eauto|]. now injection H as <-.
Qed.

End LibRevisionFacts.

(** In that revision too, [parseMTR] returns on every chunk and its notes
    are in non-decreasing order of start time. *)
Lemma lib_parseMTR_notes_non_decreasing data chunk position :
  exists track,
    LibRevision.parseMTR data chunk position
    = Some (track, ChunkInfo.offset chunk + ChunkInfo.size chunk)
    /\ non_decreasing_time (TrackData.notes track).
Proof.
  unfold LibRevision.parseMTR.
  destruct (lib_parseMTR_loop_total data
              (ChunkInfo.offset chunk + ChunkInfo.size chunk)
              (parseMTR_fuel (ChunkInfo.offset chunk + ChunkInfo.size chunk)
                 position)
              (MTRLoop.mk position 0 [] None)) as [r E].
  { unfold parseMTR_fuel. simpl. lia. }
  rewrite E. eexists. split; [reflexivity|]. simpl.
  apply lib_ordered_so_far_loop in E; [apply E|].
  split; constructor.
Qed.

(** In that revision a status byte from 0xA0 to 0xAF is passed over in
    the same way. *)
Lemma lib_aftertouch_status_consumes_one_byte data endPos st status :
  MTRLoop.position st < endPos - 1 ->
  data_at data (MTRLoop.position st) = Some status ->
  0xA0 <= status <= 0xAF ->
  LibRevision.parseMTR_iteration data endPos st
  = (Continue, MTRLoop.at_position st (MTRLoop.position st + 1)).
Proof.
  intros Hguard Hst Hrange.
  unfold LibRevision.parseMTR_iteration, parseMTR_fallthrough, readUInt8.
  rewrite Hst. decide_test. reflexivity.
Qed.

(** In that revision a tempo event sets the tempo in the same way, and
    its data bytes are read even past the end of the chunk. *)
Lemma lib_tempo_meta_event_sets_tempo data endPos st :
  let p := MTRLoop.position st in
  data_at data p = Some 0xFF ->
  data_at data (p + 1) = Some 0x51 ->
  data_at data (p + 2) = Some 3 ->
  LibRevision.parseMTR_iteration data endPos st
  = (Continue,
     MTRLoop.mk (p + 6) (MTRLoop.currentTime st) (MTRLoop.notes st)
       (Some (tempo_of_microseconds
                (byte_or_zero (data_at data (p + 3)) * 65536
                 + byte_or_zero (data_at data (p + 4)) * 256
                 + byte_or_zero (data_at data (p + 5)))))).
Proof.
  intros p H0 H1 H2.
  unfold LibRevision.parseMTR_iteration, readUInt8. fold p. rewrite H0.
  decide_test.
  replace (p + 1 + 1) with (p + 2) by lia. rewrite H1, H2.
  cbn [Js.strict_eq]. decide_test.
  replace (p + 2 + 1) with (p + 3) by lia.
  pose proof (readUInt24BE_value data (p + 3)) as V.
  destruct (readUInt24BE data (p + 3)) as [v p'] eqn:E.
  assert (p' = p + 6) as ->.
  { unfold readUInt24BE in E. injection E as _ <-. lia. }
  simpl in V. subst v.
  replace (p + 3 + 1) with (p + 4) by lia.
  replace (p + 3 + 2) with (p + 5) by lia.
  reflexivity.
Qed.

(** That revision reads no sub-header and does not scale delta-times: the
    first byte of the chunk is a status byte, and 24 ticks are 24 ms
    whatever the third byte of the chunk is. *)
Lemma lib_parseMTR_has_no_subheader :
  LibRevision.parseMTR (bytes [0x90; 60; 100; 24; 0x91; 62; 90])
    (ChunkInfo.mk (Js.lit "OPDA") 7 0) 0
  = Some (TrackData.mk [MMFNote.mk 0 60 250 100 0;
                        MMFNote.mk (0 + 24) 62 250 90 1] None, 7).
Proof. reflexivity. Qed.

Section LibRevisionParse.

Variable dec : option (list byte -> Js.jsstring).
Variable data : list byte.

Lemma lib_parse_dispatch_total chunk st position :
  exists st',
    LibRevision.parse_dispatch dec data chunk st position = Some st'
    /\ ChunkLoop.position st' = ChunkInfo.offset chunk + ChunkInfo.size chunk
    /\ ChunkLoop.chunks st' = ChunkLoop.chunks st ++ [chunk].
Proof.
  unfold LibRevision.parse_dispatch.
  destruct (Js.string_eqb _ _).
  { destruct (parseCNTI_total dec data chunk position) as [m ->]. eauto. }
  destruct (_ || _).
  { destruct (lib_parseMTR_notes_non_decreasing data chunk position)
      as (t & -> & _). eauto. }
  destruct (_ || _); eauto.
Qed.

Lemma lib_parse_chunks_total fuel st :
  (Z.to_nat (Z.of_nat (length data) - 8 - ChunkLoop.position st) <= fuel * 8)%nat ->
  exists st', LibRevision.parse_chunks dec data fuel st = Some st'.
Proof.
  revert st. induction fuel as [|fuel IH]; intros st Hfuel; simpl.
  - destruct (Z.ltb_spec (ChunkLoop.position st) (Z.of_nat (length data) - 8));
      [lia|eauto].
  - destruct (Z.ltb_spec (ChunkLoop.position st) (Z.of_nat (length data) - 8));
      [|eauto].
    destruct (readChunkHeader_some dec data _ H)
      as (chunk & -> & _ & _ & Hoff & Hsize).
    destruct (lib_parse_dispatch_total chunk st (ChunkLoop.position st + 8))
      as (st' & -> & Hpos & _).
    apply IH. lia.
Qed.

(** The signature test and the guard of the chunk loop are the same in
    that revision. *)
Lemma lib_parse_fails_iff_signature_missing :
  let header := fst (readString dec data 4 0) in
  (LibRevision.parse dec data = Thrown InvalidFormat <-> header <> Js.lit "MMMD")
  /\ (header = Js.lit "MMMD" ->
      exists doc, LibRevision.parse dec data = Returned doc).
Proof.
  intros header. unfold LibRevision.parse.
  assert (T : exists st, LibRevision.parse_run dec data = Some st).
  { unfold LibRevision.parse_run, verifyHeader, readString, readUInt32BE.
    apply lib_parse_chunks_total. simpl. lia. }
  destruct T as [st ->].
  assert (V : verifyHeader dec data 0
              = (Js.string_eqb header (Js.lit "MMMD"), 4)) by reflexivity.
  rewrite V.
  destruct (string_eqb_spec header (Js.lit "MMMD")) as [E|E]; simpl.
  - split; [|eauto]. split; [intros C; discriminate C|]. intros C. now elim C.
  - split; [|intros C; now elim E]. split; auto.
Qed.

Lemma lib_chunk_loop_ends_with_8_or_fewer fuel st :
  Z.of_nat (length data) - ChunkLoop.position st <= 8 ->
  LibRevision.parse_chunks dec data fuel st = Some st.
Proof.
  intros H.
  destruct fuel; simpl;
    destruct (Z.ltb_spec (ChunkLoop.position st) (Z.of_nat (length data) - 8));
    (reflexivity || lia).
Qed.

End LibRevisionParse.

(* ================================================================== *)
(** ** State notifications of the player *)
(* ================================================================== *)

Lemma PlayerState_eqb_spec a b : reflect (a = b) (PlayerState_eqb a b).
Proof. destruct a, b; constructor; congruence. Qed.

Lemma state_changes_app l l' :
  state_changes (l ++ l') = state_changes l ++ state_changes l'.
Proof.
  induction l as [|[] l IH]; simpl; try assumption.
  - reflexivity.
  - now rewrite IH.
Qed.

Lemma adjacent_distinct_snoc l s :
  adjacent_distinct l -> last l idle <> s \/ l = [] ->
  adjacent_distinct (l ++ [s]).
Proof.
  induction l as [|a [|b l] IH]; simpl; intros Hd Hlast.
  - exact I.
  - split; [|exact I]. destruct Hlast as [H|H]; [exact H|discriminate].
  - destruct Hd as [Hab Hd]. split; [exact Hab|].
    apply IH; [exact Hd|].
    destruct Hlast as [H|H]; [left; exact H|discriminate].
Qed.

(** A new player satisfies the invariant. *)
Lemma state_log_consistent_create : state_log_consistent MMFPlayer.create.
Proof. split; [exact I|reflexivity]. Qed.

(** [setState] keeps the invariant: it notifies only of a state other
    than the current one. *)
Lemma state_log_consistent_setState s p :
  state_log_consistent p -> state_log_consistent (setState s p).
Proof.
  intros [Hd Hlast]. unfold setState.
  destruct (PlayerState_eqb_spec (MMFPlayer.state p) s) as [E|E].
  - split; assumption.
  - unfold state_log_consistent, notify. simpl.
    rewrite state_changes_app. simpl. split.
    + apply adjacent_distinct_snoc; [assumption|].
      left. now rewrite Hlast.
    + apply last_last.
Qed.

(** Whatever leaves the state and the state notifications alone keeps the
    invariant. *)
Lemma state_log_consistent_same p p' :
  MMFPlayer.state p' = MMFPlayer.state p ->
  state_changes (MMFPlayer.notifications p')
  = state_changes (MMFPlayer.notifications p) ->
  state_log_consistent p -> state_log_consistent p'.
Proof.
  intros Hs Hn [Hd Hlast]. unfold state_log_consistent.
  now rewrite Hs, Hn.
Qed.

Lemma scheduleNotes_loop_state now fromTime notes p :
  MMFPlayer.state (scheduleNotes_loop now fromTime notes p) = MMFPlayer.state p
  /\ MMFPlayer.notifications (scheduleNotes_loop now fromTime notes p)
     = MMFPlayer.notifications p.
Proof.
  revert p. induction notes as [|n notes IH]; intros p; simpl; [auto|].
  destruct (Qlt_le_dec _ _); [apply IH|].
  destruct (IH (playNote n (now + (MMFNote.time n - fromTime) / 1000)
                  (now + (MMFNote.time n - fromTime) / 1000
                   + MMFNote.duration n / 1000) p)) as [-> ->].
  unfold playNote. destruct (MMFPlayer.audioContext p); auto.
Qed.

Lemma scheduleNotes_state fromTime p :
  MMFPlayer.state (scheduleNotes fromTime p) = MMFPlayer.state p
  /\ MMFPlayer.notifications (scheduleNotes fromTime p)
     = MMFPlayer.notifications p.
Proof.
  unfold scheduleNotes.
  destruct (MMFPlayer.audioContext p); [|auto].
  destruct (MMFPlayer.mmfData p); [|auto].
  apply scheduleNotes_loop_state.
Qed.

Lemma startProgressTracking_state p :
  MMFPlayer.state (startProgressTracking p) = MMFPlayer.state p
  /\ MMFPlayer.notifications (startProgressTracking p)
     = MMFPlayer.notifications p.
Proof.
  unfold startProgressTracking.
  destruct (MMFPlayer.state p) eqn:E; auto.
  destruct (MMFPlayer.mmfData p); simpl; auto.
Qed.

Lemma state_log_consistent_stop p :
  state_log_consistent p -> state_log_consistent (stop p).
Proof.
  intros H. unfold stop.
  destruct (MMFPlayer.state p) eqn:E; [assumption| | |];
    (eapply state_log_consistent_same;
     [| |apply (state_log_consistent_setState stopped p H)]; reflexivity).
Qed.

Lemma scheduleNotes_keeps_state fromTime p :
  MMFPlayer.state (scheduleNotes fromTime p) = MMFPlayer.state p.
Proof. apply scheduleNotes_state. Qed.

Lemma scheduleNotes_keeps_notifications fromTime p :
  MMFPlayer.notifications (scheduleNotes fromTime p) = MMFPlayer.notifications p.
Proof. apply scheduleNotes_state. Qed.

Lemma startProgressTracking_keeps_state p :
  MMFPlayer.state (startProgressTracking p) = MMFPlayer.state p.
Proof. apply startProgressTracking_state. Qed.

Lemma startProgressTracking_keeps_notifications p :
  MMFPlayer.notifications (startProgressTracking p) = MMFPlayer.notifications p.
Proof. apply startProgressTracking_state. Qed.

(** Rewriting a projection of a composed update down to the player it
    starts from. *)
Ltac through_updates :=
  cbv zeta;
  repeat (rewrite ?startProgressTracking_keeps_state,
            ?startProgressTracking_keeps_notifications,
            ?scheduleNotes_keeps_state, ?scheduleNotes_keeps_notifications;
          cbn [MMFPlayer.state MMFPlayer.notifications
               MMFPlayer.set_startTime MMFPlayer.set_pauseTime
               MMFPlayer.set_timers MMFPlayer.set_frames
               MMFPlayer.set_scheduledNotes MMFPlayer.set_cancelled
               MMFPlayer.set_audioContext MMFPlayer.set_mmfData
               MMFPlayer.set_thrown MMFPlayer.set_now
               setTimeout requestAnimationFrame clearScheduledNotes throw]).

Lemma state_log_consistent_resume p :
  state_log_consistent p -> state_log_consistent (resume p).
Proof.
  intros H. unfold resume.
  destruct (MMFPlayer.state p) eqn:E; try assumption.
  destruct (MMFPlayer.audioContext p) as [ctx|]; [|assumption].
  destruct (MMFPlayer.mmfData p) as [d|]; [|assumption].
  eapply state_log_consistent_same;
    [| |apply (state_log_consistent_setState playing p H)];
    through_updates; reflexivity.
Qed.

Lemma state_log_consistent_play p :
  state_log_consistent p -> state_log_consistent (play p).
Proof.
  intros H. unfold play.
  destruct (MMFPlayer.mmfData p) as [d|] eqn:Ed.
  2:{ eapply state_log_consistent_same; [| |exact H]; reflexivity. }
  set (p1 := match MMFPlayer.audioContext p with
             | Some _ => p
             | None => MMFPlayer.set_audioContext (Some (AudioContext.mk 0)) p
             end).
  assert (H1 : state_log_consistent p1).
  { unfold p1. destruct (MMFPlayer.audioContext p); [exact H|].
    eapply state_log_consistent_same; [| |exact H]; reflexivity. }
  clearbody p1.
  destruct (PlayerState_eqb (MMFPlayer.state p1) paused).
  { now apply state_log_consistent_resume. }
  set (p2 := if PlayerState_eqb (MMFPlayer.state p1) playing then stop p1 else p1).
  assert (H2 : state_log_consistent p2).
  { unfold p2. destruct (PlayerState_eqb _ _); [|exact H1].
    now apply state_log_consistent_stop. }
  clearbody p2.
  destruct (Qlt_le_dec 0 (MMFData.duration d));
    (eapply state_log_consistent_same;
     [| |apply (state_log_consistent_setState playing p2 H2)];
     through_updates; reflexivity).
Qed.

Lemma state_log_consistent_pause p :
  state_log_consistent p -> state_log_consistent (pause p).
Proof.
  intros H. unfold pause.
  destruct (MMFPlayer.state p) eqn:E; try assumption.
  destruct (MMFPlayer.audioContext (setState paused p));
    (eapply state_log_consistent_same;
     [| |apply (state_log_consistent_setState paused p H)];
     through_updates; reflexivity).
Qed.

Lemma state_log_consistent_notify_other n p :
  state_changes [n] = [] ->
  state_log_consistent p -> state_log_consistent (notify n p).
Proof.
  intros Hn. apply state_log_consistent_same; [reflexivity|].
  unfold notify. simpl. rewrite state_changes_app, Hn. apply app_nil_r.
Qed.

Lemma state_log_consistent_run_callback c p :
  state_log_consistent p -> state_log_consistent (run_callback c p).
Proof.
  intros H. destruct c; simpl.
  - unfold endOfPlayback. destruct (MMFPlayer.state p); try assumption.
    apply state_log_consistent_notify_other; [reflexivity|].
    now apply state_log_consistent_stop.
  - unfold resetToIdle. destruct (MMFPlayer.state p); try assumption.
    now apply state_log_consistent_setState.
Qed.

Lemma state_log_consistent_updateProgress p :
  state_log_consistent p -> state_log_consistent (updateProgress p).
Proof.
  intros H. unfold updateProgress.
  destruct (MMFPlayer.state p) eqn:E; try assumption.
  destruct (MMFPlayer.mmfData p) as [d|].
  2:{ eapply state_log_consistent_same; [| |exact H]; reflexivity. }
  cbv zeta.
  set (progress := if Qlt_le_dec 0 (MMFData.duration d)
                   then (getCurrentTime p / MMFData.duration d)%Q else 0%Q).
  assert (Hn : state_log_consistent (notify (onProgress (Qmin progress 1)) p)).
  { apply state_log_consistent_notify_other; [reflexivity|exact H]. }
  destruct (Qlt_le_dec progress 1); [|exact Hn].
  eapply state_log_consistent_same; [| |exact Hn]; reflexivity.
Qed.

(** Every event keeps the invariant. *)
Lemma state_log_consistent_step e p :
  state_log_consistent p -> state_log_consistent (step e p).
Proof.
  intros H. destruct e; simpl.
  - unfold load. apply state_log_consistent_stop.
    eapply state_log_consistent_same; [| |exact H]; reflexivity.
  - now apply state_log_consistent_play.
  - now apply state_log_consistent_pause.
  - now apply state_log_consistent_resume.
  - now apply state_log_consistent_stop.
  - unfold dispose.
    eapply state_log_consistent_same;
      [| |apply (state_log_consistent_stop p H)]; reflexivity.
  - unfold tick. cbv zeta.
    destruct (MMFPlayer.audioContext _);
      (eapply state_log_consistent_same; [| |exact H]; reflexivity).
  - unfold fire.
    destruct (nth_error _ _) as [t|]; [|exact H].
    destruct (Qle_bool _ _); [|exact H].
    apply state_log_consistent_run_callback.
    eapply state_log_consistent_same; [| |exact H]; reflexivity.
  - unfold frame. destruct (MMFPlayer.frames p); [exact H|].
    apply state_log_consistent_updateProgress.
    eapply state_log_consistent_same; [| |exact H]; reflexivity.
  - eapply state_log_consistent_same; [| |exact H]; reflexivity.
Qed.

Lemma state_log_consistent_run events p :
  state_log_consistent p -> state_log_consistent (run events p).
Proof.
  revert p. induction events as [|e events IH]; intros p H; simpl.
  - exact H.
  - apply IH. now apply state_log_consistent_step.
Qed.

(** C9.  [setState] calls [onStateChange] only when the new state differs
    from the current one, and a transition to the current state changes
    nothing at all.  Hence, after any sequence of events on a new player,
    no two consecutive [onStateChange] calls carry the same state, and the
    last of them carries the state of the player. *)
Theorem stateChanged_notifications_never_repeat :
  (forall s p,
     MMFPlayer.notifications (setState s p)
     = MMFPlayer.notifications p
       ++ (if PlayerState_eqb (MMFPlayer.state p) s then []
           else [onStateChange s]))
  /\ (forall p, setState (MMFPlayer.state p) p = p)
  /\ (forall events,
        let p := run events MMFPlayer.create in
        adjacent_distinct (state_changes (MMFPlayer.notifications p))
        /\ last (state_changes (MMFPlayer.notifications p)) idle
           = MMFPlayer.state p).
Proof.
  split; [|split].
  - intros s p. unfold setState.
    destruct (PlayerState_eqb _ _); [now rewrite app_nil_r|reflexivity].
  - intros p. unfold setState.
    now destruct (PlayerState_eqb_spec (MMFPlayer.state p) (MMFPlayer.state p)).
  - intros events.
    apply (state_log_consistent_run events MMFPlayer.create
             state_log_consistent_create).
Qed.

(* ================================================================== *)
(** ** The document and the audio context of an active player *)
(* ================================================================== *)

Lemma scheduleNotes_loop_resources now fromTime notes p :
  MMFPlayer.state (scheduleNotes_loop now fromTime notes p) = MMFPlayer.state p
  /\ MMFPlayer.mmfData (scheduleNotes_loop now fromTime notes p)
     = MMFPlayer.mmfData p
  /\ MMFPlayer.audioContext (scheduleNotes_loop now fromTime notes p)
     = MMFPlayer.audioContext p.
Proof.
  revert p. induction notes as [|n notes IH]; intros p; simpl; [auto|].
  destruct (Qlt_le_dec _ _); [apply IH|].
  destruct (IH (playNote n (now + (MMFNote.time n - fromTime) / 1000)
                  (now + (MMFNote.time n - fromTime) / 1000
                   + MMFNote.duration n / 1000) p)) as (-> & -> & ->).
  unfold playNote. destruct (MMFPlayer.audioContext p) eqn:E; simpl; auto.
Qed.

Lemma scheduleNotes_resources fromTime p :
  MMFPlayer.state (scheduleNotes fromTime p) = MMFPlayer.state p
  /\ MMFPlayer.mmfData (scheduleNotes fromTime p) = MMFPlayer.mmfData p
  /\ MMFPlayer.audioContext (scheduleNotes fromTime p)
     = MMFPlayer.audioContext p.
Proof.
  unfold scheduleNotes.
  destruct (MMFPlayer.audioContext p) eqn:Ec; [|auto].
  destruct (MMFPlayer.mmfData p) eqn:Ed; [|auto].
  rewrite <- Ec, <- Ed. apply scheduleNotes_loop_resources.
Qed.

Lemma startProgressTracking_resources p :
  MMFPlayer.state (startProgressTracking p) = MMFPlayer.state p
  /\ MMFPlayer.mmfData (startProgressTracking p) = MMFPlayer.mmfData p
  /\ MMFPlayer.audioContext (startProgressTracking p)
     = MMFPlayer.audioContext p.
Proof.
  unfold startProgressTracking.
  destruct (MMFPlayer.state p) eqn:E; auto.
  destruct (MMFPlayer.mmfData p) eqn:Ed; simpl; auto.
Qed.

Lemma setState_resources s p :
  MMFPlayer.state (setState s p) = s
  /\ MMFPlayer.mmfData (setState s p) = MMFPlayer.mmfData p
  /\ MMFPlayer.audioContext (setState s p) = MMFPlayer.audioContext p.
Proof.
  unfold setState.
  destruct (PlayerState_eqb_spec (MMFPlayer.state p) s); simpl; auto.
Qed.

Lemma stop_resources p :
  (MMFPlayer.state (stop p) = idle \/ MMFPlayer.state (stop p) = stopped)
  /\ MMFPlayer.mmfData (stop p) = MMFPlayer.mmfData p
  /\ MMFPlayer.audioContext (stop p) = MMFPlayer.audioContext p.
Proof.
  unfold stop.
  destruct (MMFPlayer.state p) eqn:E; [auto| | |];
    destruct (setState_resources stopped p) as (Hs & Hd & Hc);
    simpl; rewrite Hs, Hd, Hc; auto.
Qed.

Lemma active_has_resources_inactive p :
  MMFPlayer.state p = idle \/ MMFPlayer.state p = stopped ->
  active_has_resources p.
Proof. intros [H|H] [C|C]; congruence. Qed.

Lemma active_has_resources_same p p' :
  MMFPlayer.state p' = MMFPlayer.state p ->
  MMFPlayer.mmfData p' = MMFPlayer.mmfData p ->
  MMFPlayer.audioContext p' = MMFPlayer.audioContext p ->
  active_has_resources p -> active_has_resources p'.
Proof.
  unfold active_has_resources. intros -> -> ->. auto.
Qed.

Lemma scheduleNotes_keeps_mmfData fromTime p :
  MMFPlayer.mmfData (scheduleNotes fromTime p) = MMFPlayer.mmfData p.
Proof. apply scheduleNotes_resources. Qed.

Lemma scheduleNotes_keeps_audioContext fromTime p :
  MMFPlayer.audioContext (scheduleNotes fromTime p) = MMFPlayer.audioContext p.
Proof. apply scheduleNotes_resources. Qed.

Lemma startProgressTracking_keeps_mmfData p :
  MMFPlayer.mmfData (startProgressTracking p) = MMFPlayer.mmfData p.
Proof. apply startProgressTracking_resources. Qed.

Lemma startProgressTracking_keeps_audioContext p :
  MMFPlayer.audioContext (startProgressTracking p) = MMFPlayer.audioContext p.
Proof. apply startProgressTracking_resources. Qed.

Lemma setState_keeps_mmfData s p :
  MMFPlayer.mmfData (setState s p) = MMFPlayer.mmfData p.
Proof. apply setState_resources. Qed.

Lemma setState_keeps_audioContext s p :
  MMFPlayer.audioContext (setState s p) = MMFPlayer.audioContext p.
Proof. apply setState_resources. Qed.

Ltac through_resources :=
  cbv zeta;
  repeat (rewrite ?startProgressTracking_keeps_mmfData,
            ?startProgressTracking_keeps_audioContext,
            ?scheduleNotes_keeps_mmfData, ?scheduleNotes_keeps_audioContext,
            ?setState_keeps_mmfData, ?setState_keeps_audioContext;
          cbn [MMFPlayer.mmfData MMFPlayer.audioContext
               MMFPlayer.set_startTime MMFPlayer.set_pauseTime
               MMFPlayer.set_timers MMFPlayer.set_frames
               MMFPlayer.set_scheduledNotes MMFPlayer.set_cancelled
               MMFPlayer.set_thrown MMFPlayer.set_now
               MMFPlayer.set_notifications notify
               setTimeout requestAnimationFrame clearScheduledNotes throw]).

Lemma active_has_resources_resume p :
  active_has_resources p -> active_has_resources (resume p).
Proof.
  intros H. unfold resume.
  destruct (MMFPlayer.state p) eqn:E; try assumption.
  destruct (MMFPlayer.audioContext p) as [ctx|] eqn:Ec; [|assumption].
  destruct (MMFPlayer.mmfData p) as [d|] eqn:Ed; [|assumption].
  intros _. through_resources. rewrite Ed, Ec. split; discriminate.
Qed.

Lemma active_has_resources_play p :
  active_has_resources p -> active_has_resources (play p).
Proof.
  intros H. unfold play.
  destruct (MMFPlayer.mmfData p) as [d|] eqn:Ed.
  2:{ eapply active_has_resources_same; [| | |exact H]; reflexivity. }
  set (p1 := match MMFPlayer.audioContext p with
             | Some _ => p
             | None => MMFPlayer.set_audioContext (Some (AudioContext.mk 0)) p
             end).
  assert (H1 : MMFPlayer.mmfData p1 = Some d /\ MMFPlayer.audioContext p1 <> None).
  { unfold p1. destruct (MMFPlayer.audioContext p) eqn:Ec; simpl.
    - rewrite Ec. split; [assumption|discriminate].
    - split; [assumption|discriminate]. }
  clearbody p1. destruct H1 as [Hd1 Hc1].
  destruct (PlayerState_eqb (MMFPlayer.state p1) paused).
  { apply active_has_resources_resume. intros _. split; congruence. }
  set (p2 := if PlayerState_eqb (MMFPlayer.state p1) playing then stop p1 else p1).
  assert (H2 : MMFPlayer.mmfData p2 = Some d /\ MMFPlayer.audioContext p2 <> None).
  { unfold p2. destruct (PlayerState_eqb _ _); [|auto].
    destruct (stop_resources p1) as (_ & -> & ->). auto. }
  clearbody p2. destruct H2 as [Hd2 Hc2].
  intros _.
  destruct (Qlt_le_dec 0 (MMFData.duration d)); through_resources;
    rewrite Hd2; (split; [discriminate|assumption]).
Qed.

Lemma active_has_resources_step e p :
  active_has_resources p -> active_has_resources (step e p).
Proof.
  intros H. destruct e; simpl.
  - apply active_has_resources_inactive. apply stop_resources.
  - now apply active_has_resources_play.
  - unfold pause. destruct (MMFPlayer.state p) eqn:E; try assumption.
    destruct (H (or_introl E)) as [Hd Hc].
    destruct (setState_resources paused p) as (_ & Hd' & Hc').
    destruct (MMFPlayer.audioContext (setState paused p)) eqn:Ec;
      [|congruence].
    intros _. simpl. rewrite Hd', Ec. split; [assumption|discriminate].
  - now apply active_has_resources_resume.
  - apply active_has_resources_inactive. apply stop_resources.
  - apply active_has_resources_inactive. unfold dispose. simpl.
    apply stop_resources.
  - unfold tick. cbv zeta.
    destruct (MMFPlayer.audioContext _) eqn:Ec.
    + intros Hs. simpl in *. destruct (H Hs) as [Hd _].
      split; [assumption|discriminate].
    + eapply active_has_resources_same; [| | |exact H]; reflexivity.
  - unfold fire.
    destruct (nth_error _ _) as [t|]; [|exact H].
    destruct (Qle_bool _ _); [|exact H].
    set (p0 := MMFPlayer.set_timers _ p).
    assert (H0 : active_has_resources p0)
      by (eapply active_has_resources_same; [| | |exact H]; reflexivity).
    clearbody p0.
    destruct (Timer.callback t); simpl.
    + unfold endOfPlayback. destruct (MMFPlayer.state p0); try assumption.
      apply active_has_resources_inactive. simpl. apply stop_resources.
    + unfold resetToIdle. destruct (MMFPlayer.state p0); try assumption.
      apply active_has_resources_inactive. left. apply setState_resources.
  - unfold frame. destruct (MMFPlayer.frames p); [exact H|].
    set (p0 := MMFPlayer.set_frames _ p).
    assert (H0 : active_has_resources p0)
      by (eapply active_has_resources_same; [| | |exact H]; reflexivity).
    clearbody p0. unfold updateProgress.
    destruct (MMFPlayer.state p0) eqn:E; try assumption.
    destruct (MMFPlayer.mmfData p0) eqn:Ed.
    2:{ eapply active_has_resources_same; [| | |exact H0]; reflexivity. }
    cbv zeta. destruct (Qlt_le_dec _ 1);
      (eapply active_has_resources_same; [| | |exact H0];
       simpl; congruence).
  - eapply active_has_resources_same; [| | |exact H]; reflexivity.
Qed.

(** After any sequence of events on a new player, [this.audioContext!]
    and [this.mmfData!] do not meet [null]: a playing or paused player has
    both. *)
Lemma active_has_resources_run events :
  active_has_resources (run events MMFPlayer.create).
Proof.
  assert (G : forall p, active_has_resources p ->
                        active_has_resources (run events p)).
  { induction events as [|e events IH]; intros p H; simpl; [exact H|].
    apply IH. now apply active_has_resources_step. }
  apply G. intros [C|C]; discriminate.
Qed.

(* ================================================================== *)
(** ** [play()] on a playing player *)
(* ================================================================== *)

(** What [scheduleNotes] does to a player that has an audio context: the
    oscillators of [commands] are created, tracked and started, and nothing
    else changes. *)
Lemma scheduleNotes_loop_commands now fromTime notes p :
  MMFPlayer.audioContext p <> None ->
  scheduleNotes_loop now fromTime notes p
  = let fresh := commands now fromTime (MMFPlayer.nextNode p) notes in
    MMFPlayer.set_scheduledNotes (MMFPlayer.scheduledNotes p ++ fresh)
      (MMFPlayer.set_submitted (MMFPlayer.submitted p ++ fresh)
         (MMFPlayer.set_nextNode (MMFPlayer.nextNode p + length fresh)%nat p)).
Proof.
  revert p. induction notes as [|n notes IH]; intros p Hctx; simpl.
  - destruct p. unfold MMFPlayer.set_scheduledNotes, MMFPlayer.set_submitted,
      MMFPlayer.set_nextNode. simpl.
    now rewrite !app_nil_r, Nat.add_0_r.
  - destruct (Qlt_le_dec (MMFNote.time n) fromTime); [now apply IH|].
    rewrite IH.
    + unfold playNote.
      destruct p as [ctx d s st pt sn nw tm fr nn sub can nots thr].
      simpl in *. destruct ctx; [|congruence].
      unfold MMFPlayer.set_scheduledNotes, MMFPlayer.set_submitted,
        MMFPlayer.set_nextNode. simpl.
      rewrite <- !app_assoc. simpl.
      now rewrite Nat.add_succ_r.
    + unfold playNote.
      destruct (MMFPlayer.audioContext p) eqn:E; [|congruence].
      simpl. rewrite E. discriminate.
Qed.

(** C1, as the code has it.  On a playing player [play()] restarts the
    playback: it runs [stop()], which cancels every oscillator in flight
    and notifies of the state stopped, then notifies of the state playing,
    takes the current instant of the audio clock as the new origin and
    starts one oscillator for every note from time 0.  The oscillators in
    flight afterwards are the new ones only, so no note is in flight
    twice.  The timer of [stop()] and a new end-of-playback timer are
    armed. *)
Theorem play_while_playing_restarts p mmfData audioContext :
  MMFPlayer.state p = playing ->
  MMFPlayer.mmfData p = Some mmfData ->
  MMFPlayer.audioContext p = Some audioContext ->
  let p' := play p in
  let fresh := commands (AudioContext.currentTime audioContext) 0
                 (MMFPlayer.nextNode p) (MMFData.notes mmfData) in
  MMFPlayer.state p' = playing
  /\ MMFPlayer.startTime p' = AudioContext.currentTime audioContext
  /\ MMFPlayer.scheduledNotes p' = fresh
  /\ MMFPlayer.submitted p' = MMFPlayer.submitted p ++ fresh
  /\ MMFPlayer.cancelled p'
     = MMFPlayer.cancelled p
       ++ map ScheduledNote.source (MMFPlayer.scheduledNotes p)
  /\ MMFPlayer.notifications p'
     = MMFPlayer.notifications p
       ++ [onStateChange stopped; onStateChange playing]
  /\ MMFPlayer.timers p'
     = MMFPlayer.timers p
       ++ Timer.mk (MMFPlayer.now p + 100) ResetToIdle
          :: (if Qlt_le_dec 0 (MMFData.duration mmfData)
              then [Timer.mk (MMFPlayer.now p + MMFData.duration mmfData)
                      EndOfPlayback]
              else []).
Proof.
  destruct p as [ctx d s st pt sn nw tm fr nn sub can nots thr].
  simpl. intros -> -> ->.
  unfold play. simpl.
  unfold scheduleNotes. simpl.
  rewrite scheduleNotes_loop_commands by (simpl; congruence).
  simpl.
  destruct (Qlt_le_dec 0 (MMFData.duration mmfData)); simpl;
    rewrite <- !app_assoc; simpl; repeat split; reflexivity.
Qed.

Lemma play_while_playing_restarts_witness :
  MMFPlayer.state example_playing = playing
  /\ MMFPlayer.state (play example_playing) = playing
  /\ MMFPlayer.scheduledNotes (play example_playing)
     = commands (0 + 100 / 1000) 0 2 (MMFData.notes example_song)
  /\ MMFPlayer.cancelled (play example_playing) = [0%nat; 1%nat]
  /\ MMFPlayer.notifications (play example_playing)
     = [onStateChange playing; onStateChange stopped; onStateChange playing].
Proof.
  destruct (play_while_playing_restarts example_playing example_song
              (AudioContext.mk (0 + 100 / 1000)) eq_refl eq_refl eq_refl)
    as (Hs & _ & Hn & _ & Hc & Hl & _).
  split; [reflexivity|].
  split; [exact Hs|].
  split; [exact Hn|].
  split; [exact Hc|exact Hl].
Defined.

(** C1, as the claim has it, fails on that player: [play()] moves the
    origin from 0 to 0.1 s, replaces the two oscillators in flight by two
    new ones, and starts two oscillators. *)
Lemma play_while_playing_is_not_a_noop :
  MMFPlayer.state example_playing = playing
  /\ ~ (MMFPlayer.startTime (play example_playing)
        == MMFPlayer.startTime example_playing)%Q
  /\ map ScheduledNote.source (MMFPlayer.scheduledNotes example_playing)
     = [0%nat; 1%nat]
  /\ map ScheduledNote.source (MMFPlayer.scheduledNotes (play example_playing))
     = [2%nat; 3%nat]
  /\ length (MMFPlayer.submitted example_playing) = 2%nat
  /\ length (MMFPlayer.submitted (play example_playing)) = 4%nat.
Proof.
  split; [reflexivity|].
  split; [vm_compute; discriminate|].
  repeat split; reflexivity.
Qed.

(* ================================================================== *)
(** ** The end-of-playback timer *)
(* ================================================================== *)

Lemma stop_from_playing p :
  MMFPlayer.state p = playing ->
  MMFPlayer.state (stop p) = stopped
  /\ MMFPlayer.scheduledNotes (stop p) = []
  /\ MMFPlayer.notifications (stop p)
     = MMFPlayer.notifications p ++ [onStateChange stopped].
Proof.
  intros H. unfold stop, setState. rewrite H. simpl. auto.
Qed.




(** The same happens after a pause: [resume] arms no timer, and the one
    armed by [play] is still due one second after [play].  Here the player
    is paused from 500 ms to 1500 ms; the timer fires on the resumed
    playback, of which 500 ms remain. *)
Lemma end_of_playback_timer_after_resume :
  MMFPlayer.state example_resumed = playing
  /\ getCurrentTime example_resumed == 500
  /\ getDuration example_resumed == 1000
  /\ MMFPlayer.timers example_resumed = [Timer.mk 1000 EndOfPlayback]
  /\ MMFPlayer.state (fire 0 example_resumed) = stopped
  /\ MMFPlayer.notifications (fire 0 example_resumed)
     = MMFPlayer.notifications example_resumed
       ++ [onStateChange stopped; onEnd].
Proof. repeat split; reflexivity. Qed.

(* ================================================================== *)
(** ** The readers of the cursor *)
(* ================================================================== *)

Lemma lor_low_bits a b k :
  0 <= b < 2 ^ k -> 0 <= k -> Z.lor (a * 2 ^ k) b = a * 2 ^ k + b.
Proof.
  intros Hb Hk.
  rewrite <- Z.add_lor_land.
  assert (E : Z.land (a * 2 ^ k) b = 0).
  { apply Z.bits_inj'. intros n Hn.
    rewrite Z.land_spec, Z.bits_0.
    destruct (Z.ltb_spec n k).
    - rewrite Z.mul_pow2_bits_low by lia. reflexivity.
    - destruct (Z.eq_dec b 0) as [->|Hb0].
      + rewrite Z.bits_0. apply andb_false_r.
      + rewrite (Z.bits_above_log2 b n); [apply andb_false_r|lia|].
        apply Z.log2_lt_pow2; [lia|].
        apply Z.lt_le_trans with (2 ^ k); [lia|].
        apply Z.pow_le_mono_r; lia. }
  rewrite E. lia.
Qed.

Lemma byte_or_zero_range data i :
  0 <= byte_or_zero (data_at data i) <= 255
  /\ Js.ToInt32_opt (data_at data i) = byte_or_zero (data_at data i).
Proof.
  destruct (data_at data i) eqn:E; simpl.
  - pose proof (data_at_range _ _ _ E). split; [lia|].
    apply ToInt32_small. lia.
  - split; [lia|reflexivity].
Qed.

(** [b << 24] on a byte: the byte moves to the top of the 32-bit word,
    which makes the number negative when the byte is 0x80 or more. *)
Lemma shl_24_byte b :
  0 <= b <= 255 ->
  Js.shl b 24 = (if b <? 128 then b else b - 256) * 2 ^ 24.
Proof.
  intros Hb. unfold Js.shl.
  rewrite (ToInt32_small b) by lia.
  rewrite Z.shiftl_mul_pow2 by lia.
  unfold Js.ToInt32.
  destruct (Z.ltb_spec b 128).
  - rewrite Z.mod_small by lia. lia.
  - replace (b * 2 ^ 24 + 2 ^ 31) with ((b * 2 ^ 24 - 2 ^ 31) + 1 * 2 ^ 32) by lia.
    rewrite Z.mod_add by lia.
    rewrite Z.mod_small by lia. lia.
Qed.

Lemma shl_small_byte b k :
  0 <= b <= 255 -> 0 <= k <= 16 -> Js.shl b k = b * 2 ^ k.
Proof.
  intros Hb Hk. unfold Js.shl.
  rewrite (ToInt32_small b) by lia.
  rewrite Z.shiftl_mul_pow2 by lia.
  apply ToInt32_small.
  assert (2 ^ k <= 2 ^ 16) by (apply Z.pow_le_mono_r; lia).
  assert (0 < 2 ^ k) by (apply Z.pow_pos_nonneg; lia).
  nia.
Qed.

Lemma readUInt32BE_value data position :
  let b i := byte_or_zero (data_at data (position + i)) in
  readUInt32BE data position
  = (b 0 * 2 ^ 24 + b 1 * 2 ^ 16 + b 2 * 2 ^ 8 + b 3, position + 4).
Proof.
  intros b.
  { unfold readUInt32BE. f_equal.
    destruct (byte_or_zero_range data position) as [R0 ->].
    destruct (byte_or_zero_range data (position + 1)) as [R1 ->].
    destruct (byte_or_zero_range data (position + 2)) as [R2 ->].
    destruct (byte_or_zero_range data (position + 3)) as [R3 ->].
    unfold b. rewrite Z.add_0_r.
    set (b0 := byte_or_zero (data_at data position)) in *.
    set (b1 := byte_or_zero (data_at data (position + 1))) in *.
    set (b2 := byte_or_zero (data_at data (position + 2))) in *.
    set (b3 := byte_or_zero (data_at data (position + 3))) in *.
    rewrite shl_24_byte by lia.
    rewrite !shl_small_byte by lia.
    set (a := if b0 <? 128 then b0 else b0 - 256).
    assert (Ha : -128 <= a <= 127 /\ (a = b0 \/ a = b0 - 256)).
    { unfold a. destruct (Z.ltb_spec b0 128); lia. }
    unfold Js.bor.
    rewrite (ToInt32_small (a * 2 ^ 24)) by lia.
    rewrite (ToInt32_small (b1 * 2 ^ 16)) by lia.
    replace (Z.lor (a * 2 ^ 24) (b1 * 2 ^ 16)) with ((a * 2 ^ 8 + b1) * 2 ^ 16).
    2:{ replace (a * 2 ^ 24) with ((a * 2 ^ 8) * 2 ^ 16) by lia.
        rewrite <- (Z.shiftl_mul_pow2 (a * 2 ^ 8)), <- (Z.shiftl_mul_pow2 b1) by lia.
        rewrite <- Z.shiftl_lor. rewrite lor_low_bits by lia.
        rewrite Z.shiftl_mul_pow2 by lia. reflexivity. }
    rewrite (ToInt32_small ((a * 2 ^ 8 + b1) * 2 ^ 16)) by lia.
    rewrite (ToInt32_small (b2 * 2 ^ 8)) by lia.
    replace (Z.lor ((a * 2 ^ 8 + b1) * 2 ^ 16) (b2 * 2 ^ 8))
      with (((a * 2 ^ 8 + b1) * 2 ^ 8 + b2) * 2 ^ 8).
    2:{ replace ((a * 2 ^ 8 + b1) * 2 ^ 16)
          with (((a * 2 ^ 8 + b1) * 2 ^ 8) * 2 ^ 8) by lia.
        rewrite <- (Z.shiftl_mul_pow2 ((a * 2 ^ 8 + b1) * 2 ^ 8)),
          <- (Z.shiftl_mul_pow2 b2) by lia.
        rewrite <- Z.shiftl_lor. rewrite lor_low_bits by lia.
        rewrite Z.shiftl_mul_pow2 by lia. reflexivity. }
    rewrite (ToInt32_small (((a * 2 ^ 8 + b1) * 2 ^ 8 + b2) * 2 ^ 8)) by lia.
    rewrite (ToInt32_small b3) by lia.
    rewrite lor_low_bits by lia.
    unfold Js.ToUint32.
    destruct Ha as [Ha [-> | ->]].
    - rewrite Z.mod_small by lia. lia.
    - replace (((((b0 - 256) * 2 ^ 8 + b1) * 2 ^ 8 + b2) * 2 ^ 8) + b3)
        with ((b0 * 2 ^ 24 + b1 * 2 ^ 16 + b2 * 2 ^ 8 + b3) + (-1) * 2 ^ 32) by lia.
      rewrite Z.mod_add by lia. apply Z.mod_small. lia. }
Qed.

(** X1.  [readUInt32BE] returns the number whose big-endian bytes are the
    four bytes under the cursor, a byte past the end of the buffer
    counting for 0.  The result is never negative, also when the first
    byte is 0x80 or more, and is below 2^32; the cursor moves by four. *)
Theorem readUInt32BE_unsigned_big_endian data position :
  let b i := byte_or_zero (data_at data (position + i)) in
  readUInt32BE data position
  = (b 0 * 2 ^ 24 + b 1 * 2 ^ 16 + b 2 * 2 ^ 8 + b 3, position + 4)
  /\ 0 <= fst (readUInt32BE data position) < 2 ^ 32.
Proof.
  intros b. split; [apply readUInt32BE_value|].
  unfold readUInt32BE. cbn [fst]. unfold Js.ToUint32.
  apply Z.mod_pos_bound. lia.
Qed.

Lemma byte_value_of z : 0 <= z <= 255 -> Js.byte_value (Js.byte_of z) = z.
Proof.
  intros H. unfold Js.byte_value, Js.byte_of.
  rewrite Z.mod_small by lia.
  destruct (Byte.of_N (Z.to_N z)) as [b|] eqn:E.
  - apply Byte.to_of_N in E. rewrite E. lia.
  - apply Byte.of_N_None_iff in E. lia.
Qed.

Lemma band_continuation g :
  0 <= g < 128 ->
  Js.band (0x80 + g) 0x80 = 0x80 /\ Js.band (0x80 + g) 0x7F = g.
Proof.
  intros H.
  assert (C : forallb (fun n => let g := Z.of_nat n in
                                (Js.band (0x80 + g) 0x80 =? 0x80)
                                && (Js.band (0x80 + g) 0x7F =? g))
                (seq 0 128) = true) by (vm_compute; reflexivity).
  rewrite forallb_forall in C.
  specialize (C (Z.to_nat g)). cbv zeta in C.
  rewrite Z2Nat.id in C by lia.
  destruct (proj1 (andb_true_iff _ _) (C ltac:(apply in_seq; lia))) as [A B].
  split; [now apply Z.eqb_eq in A|now apply Z.eqb_eq in B].
Qed.

Lemma band_0x7F_small g : 0 <= g < 128 -> Js.band g 0x7F = g.
Proof.
  intros H. unfold Js.band. rewrite !ToInt32_small by lia.
  change 127 with (Z.ones 7). rewrite Z.land_ones by lia.
  apply Z.mod_small. lia.
Qed.

Lemma shift_in_group value g :
  0 <= value -> 0 <= g < 128 -> value * 128 + g < 2 ^ 31 ->
  Js.bor (Js.shl value 7) g = value * 128 + g.
Proof.
  intros Hv Hg Hb. unfold Js.bor, Js.shl.
  rewrite (ToInt32_small value) by lia.
  rewrite Z.shiftl_mul_pow2 by lia.
  rewrite !(ToInt32_small (value * 2 ^ 7)) by lia.
  rewrite (ToInt32_small g) by lia.
  rewrite lor_low_bits by lia. lia.
Qed.

Lemma slice_from (data : list byte) position :
  0 <= position ->
  Js.slice data position (Z.of_nat (length data))
  = skipn (Z.to_nat position) data.
Proof.
  intros H. unfold Js.slice. cbv zeta.
  destruct (Z.ltb_spec position 0); [lia|].
  destruct (Z.ltb_spec (Z.of_nat (length data)) 0); [lia|].
  rewrite (Z.min_id (Z.of_nat (length data))).
  destruct (Z.le_ge_cases position (Z.of_nat (length data))).
  - rewrite Z.min_l by lia.
    apply firstn_all2. rewrite length_skipn. lia.
  - rewrite Z.min_r by lia. rewrite Z.sub_diag. cbn [Z.to_nat firstn].
    symmetry. apply skipn_all2. lia.
Qed.

(** The loop of [readVariableLength] on continuation bytes followed by a
    last byte, as long as the number stays below 2^31. *)
Lemma readVariableLength_loop_groups conts final rest value position :
  Forall (fun g => 0 <= g < 128) conts -> 0 <= final < 128 ->
  0 <= value -> (value + 1) * 128 ^ Z.of_nat (S (length conts)) <= 2 ^ 31 ->
  readVariableLength_loop
    (map continuation_byte conts ++ Js.byte_of final :: rest) value position
  = (vlq_value (conts ++ [final]) value,
     position + Z.of_nat (length conts) + 1).
Proof.
  intros Hconts Hfinal. revert value position.
  induction Hconts as [|g conts Hg _ IH]; intros value position Hv Hb.
  - cbn [map app readVariableLength_loop length].
    rewrite byte_value_of by lia.
    rewrite band_0x7F_small, band_0x80_small by lia.
    cbn in Hb.
    rewrite shift_in_group by lia.
    cbn. f_equal. lia.
  - cbn [map app readVariableLength_loop length].
    change (continuation_byte g) with (Js.byte_of (0x80 + g)).
    rewrite byte_value_of by lia.
    destruct (band_continuation g Hg) as [-> ->].
    cbn [Z.eqb Pos.eqb].
    cbn [length] in Hb.
    rewrite (Nat2Z.inj_succ (S (length conts))), Z.pow_succ_r in Hb by lia.
    assert (Hp : 0 < 128 ^ Z.of_nat (S (length conts)))
      by (apply Z.pow_pos_nonneg; lia).
    rewrite shift_in_group by nia.
    rewrite IH by nia.
    cbn [app vlq_value fold_left]. f_equal. lia.
Qed.

(** X2.  [readVariableLength] decodes the variable-length quantities of
    standard MIDI files of up to four bytes: on a first byte with the
    continuation bit set, followed in the buffer by continuation bytes and
    a last byte without the bit, it returns the number made of their 7-bit
    groups, most significant first, and leaves the cursor after the last
    byte. *)
Theorem readVariableLength_decodes_groups pre g0 conts final rest :
  0 <= g0 < 128 ->
  Forall (fun g => 0 <= g < 128) conts ->
  0 <= final < 128 ->
  (length conts <= 2)%nat ->
  let data := pre ++ map continuation_byte conts ++ Js.byte_of final :: rest in
  let position := Z.of_nat (length pre) in
  readVariableLength data (0x80 + g0) position
  = (vlq_value (conts ++ [final]) g0,
     position + Z.of_nat (length conts) + 1)
  /\ 0 <= vlq_value (conts ++ [final]) g0 < 2 ^ 28.
Proof.
  intros Hg0 Hconts Hfinal Hlen data position.
  assert (Hpow : 128 ^ Z.of_nat (S (length conts)) <= 128 ^ 3)
    by (apply Z.pow_le_mono_r; lia).
  assert (Hpos : 0 < 128 ^ Z.of_nat (S (length conts)))
    by (apply Z.pow_pos_nonneg; lia).
  assert (E : readVariableLength data (0x80 + g0) position
              = (vlq_value (conts ++ [final]) g0,
                 position + Z.of_nat (length conts) + 1)).
  { unfold readVariableLength.
    destruct (band_continuation g0 Hg0) as [-> ->].
    cbn [Z.eqb Pos.eqb].
    rewrite slice_from by (unfold position; lia).
    unfold position, data. rewrite Nat2Z.id.
    rewrite skipn_app, skipn_all, Nat.sub_diag. cbn [app skipn].
    apply readVariableLength_loop_groups; try assumption; [lia|].
    change (2 ^ 31) with (8 * (128 * 128 ^ 3)). nia. }
  split; [exact E|].
  clear E data position.
  assert (G : forall l v, Forall (fun g => 0 <= g < 128) l -> 0 <= v ->
                          0 <= vlq_value l v
                          /\ vlq_value l v + 1
                             <= (v + 1) * 128 ^ Z.of_nat (length l)).
  { induction l as [|g l IH]; intros v Hl Hv; unfold vlq_value; simpl fold_left.
    - cbn. lia.
    - inversion Hl as [|? ? Hg Hl']; subst.
      destruct (IH (v * 128 + g) Hl' ltac:(lia)) as [L U].
      unfold vlq_value in L, U. split; [exact L|].
      cbn [length]. rewrite Nat2Z.inj_succ, Z.pow_succ_r by lia.
      assert (0 < 128 ^ Z.of_nat (length l)) by (apply Z.pow_pos_nonneg; lia).
      nia. }
  destruct (G (conts ++ [final]) g0) as [L U].
  - apply Forall_app. split; [assumption|]. constructor; [lia|constructor].
  - lia.
  - split; [exact L|].
    rewrite length_app in U. cbn [length] in U.
    rewrite Nat.add_1_r in U.
    change (2 ^ 28) with (128 * 128 ^ 3). nia.
Qed.

(** The two-byte quantity 81 00 is 128, and the four-byte quantity
    FF FF FF 7F is 2^28 - 1. *)
Lemma readVariableLength_decodes_groups_witness :
  readVariableLength (bytes [0x81; 0x00; 0x90]) 0x81 1 = (128, 2)
  /\ readVariableLength (bytes [0xFF; 0xFF; 0xFF; 0x7F]) 0xFF 1
     = (2 ^ 28 - 1, 4).
Proof.
  split.
  - destruct (readVariableLength_decodes_groups [Js.byte_of 0x81] 1 [] 0
                [Js.byte_of 0x90]) as [E _];
      try lia; [constructor|simpl; lia|].
    exact E.
  - destruct (readVariableLength_decodes_groups [Js.byte_of 0xFF] 127
                [127; 127] 127 []) as [E _];
      try lia; [repeat constructor; lia|simpl; lia|].
    exact E.
Defined.

(* ================================================================== *)
(** ** Text read from the buffer *)
(* ================================================================== *)

Lemma trim_start_is_suffix s : exists pre, s = pre ++ Js.trim_start s.
Proof.
  induction s as [|c s [pre IH]]; simpl.
  - exists []. reflexivity.
  - destruct (Js.is_white_space c).
    + exists (c :: pre). simpl. now rewrite <- IH.
    + exists []. reflexivity.
Qed.

Lemma trim_start_incl s x : In x (Js.trim_start s) -> In x s.
Proof.
  destruct (trim_start_is_suffix s) as [pre E]. intros H.
  rewrite E. apply in_or_app. now right.
Qed.

Lemma trim_incl s x : In x (Js.trim s) -> In x s.
Proof.
  unfold Js.trim. intros H.
  apply in_rev in H. apply trim_start_incl in H.
  apply in_rev in H. now apply trim_start_incl in H.
Qed.

Lemma trim_head s c t : Js.trim s = c :: t -> Js.is_white_space c = false.
Proof.
  unfold Js.trim. intros H.
  destruct (trim_start_is_suffix (rev (Js.trim_start s))) as [pre E].
  apply (f_equal (@rev Z)) in E.
  rewrite rev_involutive, rev_app_distr, H in E.
  pose proof (trim_start_head s) as Hh. rewrite E in Hh. exact Hh.
Qed.

(** X3.  The text [readString] returns holds no NUL and neither starts
    nor ends with white space, whatever the bytes and whatever the
    decoder; the cursor moves by the length asked for, also past the end of
    the buffer. *)
Theorem readString_text_is_stripped dec data len position :
  let text := fst (readString dec data len position) in
  ~ In 0 text
  /\ (forall c t, text = c :: t -> Js.is_white_space c = false)
  /\ (forall t c, text = t ++ [c] -> Js.is_white_space c = false)
  /\ snd (readString dec data len position) = position + len.
Proof.
  intros text. unfold text, readString. cbn [fst snd].
  set (bs := Js.slice data position (position + len)).
  assert (N : forall s, ~ In 0 (Js.trim (Js.remove_nul s))).
  { intros s H. apply trim_incl in H. unfold Js.remove_nul in H.
    apply filter_In in H. destruct H as [_ H]. discriminate. }
  unfold decode_text.
  destruct dec as [decode|]; repeat split;
    try apply N; try (intros c t; apply trim_head);
    intros t c; apply trim_last.
Qed.

(* ================================================================== *)
(** ** What [parse] accepts and what it returns *)
(* ================================================================== *)

(** X4.  On a platform without the Shift-JIS decoder, [parse] returns a
    document exactly when the buffer starts with the four bytes 4D 4D 4D
    44 ('MMMD') and throws its "Invalid MMF file" error otherwise; a buffer
    of fewer than four bytes is always rejected. *)
Theorem parse_with_fallback_checks_four_bytes data :
  let magic := bytes [0x4D; 0x4D; 0x4D; 0x44] in
  ((exists doc, parse None data = Returned doc) <-> firstn 4 data = magic)
  /\ (parse None data = Thrown InvalidFormat <-> firstn 4 data <> magic)
  /\ ((length data < 4)%nat -> parse None data = Thrown InvalidFormat).
Proof.
  intros magic.
  pose proof (fallback_signature data) as S. fold magic in S.
  assert (P : (firstn 4 data = magic -> exists doc, parse None data = Returned doc)
              /\ (firstn 4 data <> magic -> parse None data = Thrown InvalidFormat)).
  { unfold parse.
    destruct (parse_run_total None data) as [st ->].
    assert (V : verifyHeader None data 0
                = (Js.string_eqb (fst (readString None data 4 0)) (Js.lit "MMMD"),
                   4)) by reflexivity.
    rewrite V.
    destruct (string_eqb_spec (fst (readString None data 4 0)) (Js.lit "MMMD"))
      as [E|E]; simpl.
    - split; [eauto|]. intros C. elim C. now apply S.
    - split; [|reflexivity]. intros C. elim E. now apply S. }
  destruct P as [Pyes Pno].
  assert (D : {firstn 4 data = magic} + {firstn 4 data <> magic})
    by (apply list_eq_dec, Byte.byte_eq_dec).
  split; [|split].
  - split; [|exact Pyes].
    intros [doc Hdoc]. destruct D as [D|D]; [exact D|].
    rewrite (Pno D) in Hdoc. discriminate.
  - split; [|exact Pno].
    intros Hthrown C. destruct (Pyes C) as [doc Hdoc]. congruence.
  - intros Hlen. apply Pno. intros C.
    assert (L : length (firstn 4 data) = 4%nat) by (rewrite C; reflexivity).
    rewrite length_firstn in L. lia.
Qed.

Lemma parse_with_fallback_checks_four_bytes_witness :
  parse None (bytes [0x4D; 0x4D; 0x4D]) = Thrown InvalidFormat.
Proof.
  destruct (parse_with_fallback_checks_four_bytes (bytes [0x4D; 0x4D; 0x4D]))
    as (_ & _ & H).
  apply H. simpl. lia.
Defined.

(** X5.  Whatever the buffer and the decoder, a document [parse] returns
    has no notes, the default tempo 120 and the duration 0: the chunk
    types come out of [readString] trimmed, so none of them equals 'MTR '
    or 'Mtr ', and [parseMTR] is never called. *)
Theorem parse_never_decodes_a_track dec data doc :
  parse dec data = Returned doc ->
  MMFData.notes doc = [] /\ MMFData.tempo doc = BPM 120
  /\ MMFData.duration doc = 0%Q.
Proof. apply parse_decodes_no_track. Qed.

(** A buffer with a chunk tagged 'MTR ' that holds a note-on event. *)
Lemma parse_never_decodes_a_track_witness :
  exists doc,
    parse None
      (bytes [0x4D; 0x4D; 0x4D; 0x44; 0; 0; 0; 17;
              0x4D; 0x54; 0x52; 0x20; 0; 0; 0; 9;
              0; 0; 48; 48; 0; 0x90; 60; 100; 0])
    = Returned doc
    /\ MMFData.notes doc = [].
Proof.
  exists (MMFData.mk MMFMetadata.empty [] 0 (BPM 120)).
  assert (E : parse None
                (bytes [0x4D; 0x4D; 0x4D; 0x44; 0; 0; 0; 17;
                        0x4D; 0x54; 0x52; 0x20; 0; 0; 0; 9;
                        0; 0; 48; 48; 0; 0x90; 60; 100; 0])
              = Returned (MMFData.mk MMFMetadata.empty [] 0 (BPM 120)))
    by reflexivity.
  split; [exact E|].
  exact (proj1 (parse_never_decodes_a_track _ _ _ E)).
Defined.

(* ================================================================== *)
(** ** The records of a content-information chunk *)
(* ================================================================== *)

Lemma data_at_app pre rest i :
  0 <= i ->
  data_at (pre ++ rest) (Z.of_nat (length pre) + i) = data_at rest i.
Proof.
  intros Hi. unfold data_at.
  rewrite length_app, Nat2Z.inj_add.
  replace (Z.to_nat (Z.of_nat (length pre) + i))
    with (length pre + Z.to_nat i)%nat by lia.
  rewrite nth_error_app2 by lia.
  replace (length pre + Z.to_nat i - length pre)%nat with (Z.to_nat i) by lia.
  destruct (Z.leb_spec 0 i); [|lia].
  destruct (Z.leb_spec 0 (Z.of_nat (length pre) + i)); [|lia].
  destruct (Z.ltb_spec i (Z.of_nat (length rest)));
    destruct (Z.ltb_spec (Z.of_nat (length pre) + i)
                (Z.of_nat (length pre) + Z.of_nat (length rest)));
    try lia; reflexivity.
Qed.

Lemma data_at_head b rest : data_at (b :: rest) 0 = Some (Js.byte_value b).
Proof.
  unfold data_at. cbn [length]. rewrite Nat2Z.inj_succ.
  destruct (Z.ltb_spec 0 (Z.succ (Z.of_nat (length rest)))); [|lia].
  reflexivity.
Qed.

Lemma data_at_second a b rest :
  data_at (a :: b :: rest) 1 = Some (Js.byte_value b).
Proof.
  unfold data_at. cbn [length]. rewrite !Nat2Z.inj_succ.
  destruct (Z.ltb_spec 1 (Z.succ (Z.succ (Z.of_nat (length rest))))); [|lia].
  reflexivity.
Qed.

Lemma slice_middle (pre text rest : list byte) :
  Js.slice (pre ++ text ++ rest) (Z.of_nat (length pre))
    (Z.of_nat (length pre) + Z.of_nat (length text))
  = text.
Proof.
  unfold Js.slice. cbv zeta. rewrite !length_app, !Nat2Z.inj_add.
  destruct (Z.ltb_spec (Z.of_nat (length pre)) 0); [lia|].
  destruct (Z.ltb_spec (Z.of_nat (length pre) + Z.of_nat (length text)) 0);
    [lia|].
  rewrite !Z.min_l by lia.
  replace (Z.of_nat (length pre) + Z.of_nat (length text) - Z.of_nat (length pre))
    with (Z.of_nat (length text)) by lia.
  rewrite !Nat2Z.id.
  rewrite skipn_app, skipn_all, Nat.sub_diag. cbn [app skipn].
  rewrite firstn_app, firstn_all, Nat.sub_diag. cbn [firstn].
  apply app_nil_r.
Qed.

Section ContentInformation.

Variable dec : option (list byte -> Js.jsstring).

(** One pass of the loop of [parseCNTI] over the bytes of an accepted
    record that fits into the chunk. *)
Lemma parseCNTI_iteration_record pre r rest endPos metadata :
  record_ok r ->
  Z.of_nat (length pre) + Z.of_nat (length (encode_record r)) <= endPos ->
  parseCNTI_iteration dec (pre ++ encode_record r ++ rest) endPos metadata
    (Z.of_nat (length pre))
  = (Continue,
     (set_content metadata (Some (fst r)) (decode_text dec (snd r)),
      Z.of_nat (length pre) + Z.of_nat (length (encode_record r)))).
Proof.
  intros [Hcode Hlen] Hfit.
  destruct r as [code text]. cbn [fst snd] in *.
  unfold encode_record in *. cbn [fst snd length app] in *.
  set (data := pre ++ Js.byte_of code
                   :: Js.byte_of (Z.of_nat (length text)) :: text ++ rest).
  assert (E0 : data_at data (Z.of_nat (length pre)) = Some code).
  { rewrite <- (Z.add_0_r (Z.of_nat (length pre))). unfold data.
    rewrite data_at_app, data_at_head by lia. now rewrite byte_value_of by lia. }
  assert (E1 : data_at data (Z.of_nat (length pre) + 1)
               = Some (Z.of_nat (length text))).
  { unfold data.
    rewrite data_at_app, data_at_second by lia. now rewrite byte_value_of by lia. }
  unfold parseCNTI_iteration, readUInt8, readString.
  rewrite E0, E1. unfold data.
  destruct (Z.eqb_spec (Z.of_nat (length text)) 0); [lia|].
  destruct (Z.gtb_spec (Z.of_nat (length pre) + 1 + 1 + Z.of_nat (length text))
              endPos); [lia|].
  cbn [orb]. f_equal. f_equal.
  - f_equal. f_equal.
    replace (pre ++ Js.byte_of code
                 :: Js.byte_of (Z.of_nat (length text)) :: text ++ rest)
      with ((pre ++ [Js.byte_of code; Js.byte_of (Z.of_nat (length text))])
              ++ text ++ rest)
      by (rewrite <- app_assoc; reflexivity).
    replace (Z.of_nat (length pre) + 1 + 1)
      with (Z.of_nat (length (pre ++ [Js.byte_of code;
                                      Js.byte_of (Z.of_nat (length text))])))
      by (rewrite length_app; cbn [length]; lia).
    apply slice_middle.
  - lia.
Qed.

(** The loop over a sequence of accepted records that fit. *)
Lemma parseCNTI_loop_records records : forall pre rest endPos metadata fuel,
  Forall record_ok records ->
  Z.of_nat (length pre) + Z.of_nat (length (encode_records records)) <= endPos ->
  parseCNTI_loop dec (pre ++ encode_records records ++ rest)
    (length records + fuel) endPos metadata (Z.of_nat (length pre))
  = parseCNTI_loop dec (pre ++ encode_records records ++ rest)
      fuel endPos (store_records dec records metadata)
      (Z.of_nat (length pre) + Z.of_nat (length (encode_records records))).
Proof.
  induction records as [|r records IH]; intros pre rest endPos metadata fuel Hok Hfit.
  - cbn. now rewrite Z.add_0_r.
  - inversion Hok as [|? ? Hr Hrest]; subst.
    unfold encode_records in *. cbn [map concat length] in *.
    rewrite length_app, Nat2Z.inj_add in Hfit.
    rewrite <- !app_assoc.
    cbn [Nat.add parseCNTI_loop].
    assert (L : 3 <= Z.of_nat (length (encode_record r))).
    { destruct Hr as [_ Hl]. unfold encode_record. cbn [length]. lia. }
    destruct (Z.ltb_spec (Z.of_nat (length pre)) (endPos - 2)); [|lia].
    rewrite parseCNTI_iteration_record by (assumption || lia).
    replace (pre ++ encode_record r ++ concat (map encode_record records) ++ rest)
      with ((pre ++ encode_record r)
              ++ concat (map encode_record records) ++ rest)
      by (now rewrite <- app_assoc).
    replace (Z.of_nat (length pre) + Z.of_nat (length (encode_record r)))
      with (Z.of_nat (length (pre ++ encode_record r)))
      by (rewrite length_app; lia).
    rewrite IH.
    + cbn [store_records fold_left]. f_equal.
      rewrite !length_app. lia.
    + assumption.
    + rewrite length_app. lia.
Qed.

End ContentInformation.

Lemma encode_records_length records :
  Forall record_ok records ->
  (3 * length records <= length (encode_records records))%nat.
Proof.
  induction 1 as [|r records [_ Hr] _ IH]; unfold encode_records in *;
    cbn [map concat length]; [lia|].
  rewrite length_app. unfold encode_record at 1. cbn [length]. lia.
Qed.

Lemma parseCNTI_of_records dec type pre records spare post :
  Forall record_ok records ->
  (length spare <= 2)%nat ->
  let payload := encode_records records ++ spare in
  let offset := Z.of_nat (length pre) in
  parseCNTI dec (pre ++ payload ++ post)
    (ChunkInfo.mk type (Z.of_nat (length payload)) offset) offset
  = Some (store_records dec records MMFMetadata.empty,
          offset + Z.of_nat (length payload)).
Proof.
  intros Hok Hspare payload offset.
  pose proof (encode_records_length records Hok) as Hlen.
  unfold parseCNTI. cbn [ChunkInfo.offset ChunkInfo.size].
  set (endPos := offset + Z.of_nat (length payload)).
  assert (Hpay : length payload
                 = (length (encode_records records) + length spare)%nat)
    by (unfold payload; apply length_app).
  replace (Z.to_nat (endPos - offset))
    with (length records + (length payload - length records))%nat
    by (unfold endPos; lia).
  unfold payload. rewrite <- app_assoc.
  rewrite parseCNTI_loop_records by (assumption || (unfold endPos, offset; lia)).
  fold offset.
  assert (G : forall fuel m,
             parseCNTI_loop dec
               (pre ++ encode_records records ++ spare ++ post) fuel endPos m
               (offset + Z.of_nat (length (encode_records records)))
             = Some (m, offset + Z.of_nat (length (encode_records records)))).
  { intros fuel m. destruct fuel; cbn [parseCNTI_loop];
      destruct (Z.ltb_spec (offset + Z.of_nat (length (encode_records records)))
                  (endPos - 2)); try reflexivity; unfold endPos in *; lia. }
  rewrite G. reflexivity.
Qed.

(** X6.  On a chunk that holds a sequence of records (code, length, text)
    with texts of 1 to 255 bytes, and at most two spare bytes after them,
    [parseCNTI] stores the decoded text of every record under its code, in
    the order of the chunk (so the last record of a code wins, and a code
    other than 0, 1, 2, 3 stores nothing), and leaves the cursor at the end
    of the chunk. *)
Theorem parseCNTI_stores_records dec type pre records spare post :
  Forall record_ok records ->
  (length spare <= 2)%nat ->
  let payload := encode_records records ++ spare in
  let offset := Z.of_nat (length pre) in
  parseCNTI dec (pre ++ payload ++ post)
    (ChunkInfo.mk type (Z.of_nat (length payload)) offset) offset
  = Some (store_records dec records MMFMetadata.empty,
          offset + Z.of_nat (length payload)).
Proof.
  intros Hok Hspare. now apply parseCNTI_of_records.
Qed.

(** A title and a copyright notice, with one spare byte. *)
Lemma parseCNTI_stores_records_witness :
  parseCNTI None
    (bytes [0; 2; 0x48; 0x69;  3; 1; 0x59;  0xFF])
    (ChunkInfo.mk (Js.lit "CNTI") 8 0) 0
  = Some (MMFMetadata.mk (Some (Js.lit "Hi")) None None (Some (Js.lit "Y")), 8).
Proof.
  assert (Hok : Forall record_ok
                  [(0, bytes [0x48; 0x69]); (3, bytes [0x59])]).
  { repeat constructor; simpl; lia. }
  assert (Hspare : (length (bytes [0xFF%Z]) <= 2)%nat) by (simpl; lia).
  exact (parseCNTI_stores_records None (Js.lit "CNTI") []
           [(0, bytes [0x48; 0x69]); (3, bytes [0x59])] (bytes [0xFF]) []
           Hok Hspare).
Defined.

(** X7.  [parseCNTI] stops at the first record whose length byte is 0 or
    whose text would pass the end of the chunk: it returns the fields of
    the records before it and nothing of what follows, without an error,
    and leaves the cursor at the end of the chunk. *)
Theorem parseCNTI_stops_at_bad_record dec type pre records code len junk post :
  Forall record_ok records ->
  0 <= code <= 255 -> 0 <= len <= 255 ->
  junk <> [] ->
  len = 0 \/ Z.of_nat (length junk) < len ->
  let payload :=
    encode_records records ++ Js.byte_of code :: Js.byte_of len :: junk in
  let offset := Z.of_nat (length pre) in
  parseCNTI dec (pre ++ payload ++ post)
    (ChunkInfo.mk type (Z.of_nat (length payload)) offset) offset
  = Some (store_records dec records MMFMetadata.empty,
          offset + Z.of_nat (length payload)).
Proof.
  intros Hok Hcode Hlen Hjunk Hbad payload offset.
  pose proof (encode_records_length records Hok) as Henc.
  assert (Hj : (1 <= length junk)%nat)
    by (destruct junk; [congruence|simpl; lia]).
  unfold parseCNTI. cbn [ChunkInfo.offset ChunkInfo.size].
  set (endPos := offset + Z.of_nat (length payload)).
  assert (Hpay : length payload
                 = (length (encode_records records) + (2 + length junk))%nat)
    by (unfold payload; rewrite length_app; reflexivity).
  replace (Z.to_nat (endPos - offset))
    with (length records + S (length payload - length records - 1))%nat
    by (unfold endPos; lia).
  unfold payload. rewrite <- app_assoc.
  rewrite parseCNTI_loop_records by (assumption || (unfold endPos, offset; lia)).
  fold offset.
  set (p := offset + Z.of_nat (length (encode_records records))).
  set (data := pre ++ encode_records records
                   ++ (Js.byte_of code :: Js.byte_of len :: junk) ++ post).
  cbn [parseCNTI_loop].
  destruct (Z.ltb_spec p (endPos - 2)); [|unfold p, endPos in *; lia].
  assert (E1 : data_at data (p + 1) = Some len).
  { unfold data, p, offset. rewrite app_assoc.
    replace (Z.of_nat (length pre) + Z.of_nat (length (encode_records records)))
      with (Z.of_nat (length (pre ++ encode_records records)))
      by (rewrite length_app; lia).
    cbn [app].
    rewrite data_at_app, data_at_second by lia. now rewrite byte_value_of by lia. }
  unfold parseCNTI_iteration, readUInt8. rewrite E1.
  destruct (Z.eqb_spec len 0) as [->|Hne]; [reflexivity|].
  destruct (Z.gtb_spec (p + 1 + 1 + len) endPos); [reflexivity|].
  unfold p, endPos in *. lia.
Qed.

(** A title, then a record that announces nine bytes where three are
    left. *)
Lemma parseCNTI_stops_at_bad_record_witness :
  parseCNTI None
    (bytes [0; 2; 0x48; 0x69;  1; 9; 0x41; 0x42; 0x43])
    (ChunkInfo.mk (Js.lit "CNTI") 9 0) 0
  = Some (MMFMetadata.mk (Some (Js.lit "Hi")) None None None, 9).
Proof.
  assert (Hok : Forall record_ok [(0, bytes [0x48; 0x69])]).
  { repeat constructor; simpl; lia. }
  assert (Hc : 0 <= 1 <= 255) by lia.
  assert (Hl : 0 <= 9 <= 255) by lia.
  assert (Hj : bytes [0x41; 0x42; 0x43] <> []) by discriminate.
  assert (Hb : 9 = 0 \/ Z.of_nat (length (bytes [0x41; 0x42; 0x43]%Z)) < 9)
    by (right; simpl; lia).
  exact (parseCNTI_stops_at_bad_record None (Js.lit "CNTI") []
           [(0, bytes [0x48; 0x69])] 1 9 (bytes [0x41; 0x42; 0x43]) []
           Hok Hc Hl Hj Hb).
Defined.

(* ================================================================== *)
(** ** The notes of a track: shape and number *)
(* ================================================================== *)

Lemma band_0x0F_range status : 0 <= status -> 0 <= Js.band status 0x0F <= 15.
Proof.
  intros H. unfold Js.band.
  rewrite (ToInt32_small 15) by lia.
  assert (E : Z.land (Js.ToInt32 status) 15 = Js.ToInt32 status mod 16)
    by (change 15 with (Z.ones 4); rewrite Z.land_ones by lia; reflexivity).
  rewrite E.
  pose proof (Z.mod_pos_bound (Js.ToInt32 status) 16). lia.
Qed.

Ltac loop_fields :=
  unfold MTRLoop.at_position in *;
  cbn [MTRLoop.position MTRLoop.currentTime MTRLoop.notes MTRLoop.tempo] in *.

Section TrackNotes.

Variable data : list byte.
Variable start endPos : Z.
Variable tickDuration : Q.
Hypothesis tick_nonneg : (0 <= tickDuration)%Q.

Lemma notes_accounted_iteration st flow st' :
  MTRLoop.position st < endPos - 1 ->
  parseMTR_iteration data endPos tickDuration st = (flow, st') ->
  notes_accounted start endPos st -> notes_accounted start endPos st'.
Proof.
  intros Hguard E (Hn & Ht & Hc & Hp).
  pose proof (parseMTR_iteration_time _ _ _ _ _ _ tick_nonneg E) as Htime.
  assert (Ht' : (0 <= MTRLoop.currentTime st')%Q)
    by (eapply Qle_trans; eassumption).
  revert E.
  unfold notes_accounted, parseMTR_iteration, parseMTR_fallthrough, readUInt8,
    readUInt24BE.
  destruct (data_at data (MTRLoop.position st)) as [status|] eqn:Hst.
  2:{ destruct (Z.geb_spec (MTRLoop.position st + 1) endPos);
        intros [= <- <-]; loop_fields; repeat split; auto; lia. }
  pose proof (data_at_range _ _ _ Hst) as Hr.
  destruct ((128 <=? status) && (status <=? 143)).
  { destruct (Z.gtb_spec (MTRLoop.position st + 1 + 2) endPos);
      intros [= <- <-]; loop_fields; repeat split; auto; lia. }
  destruct ((144 <=? status) && (status <=? 159)).
  { destruct (Z.gtb_spec (MTRLoop.position st + 1 + 2) endPos).
    { intros [= <- <-]; loop_fields; repeat split; auto; lia. }
    destruct (data_at data (MTRLoop.position st + 1)) as [note|] eqn:Hnote;
      [|intros [= <- <-]; loop_fields; repeat split; auto; lia].
    destruct (data_at data (MTRLoop.position st + 1 + 1)) as [velocity|]
      eqn:Hvel; [|intros [= <- <-]; loop_fields; repeat split; auto; lia].
    pose proof (data_at_range _ _ _ Hnote).
    pose proof (data_at_range _ _ _ Hvel).
    destruct (Z.gtb_spec velocity 0);
      intros [= <- <-]; loop_fields; repeat split; auto; try lia.
    - apply Forall_app. split; [assumption|].
      constructor; [|constructor].
      pose proof (band_0x0F_range status ltac:(lia)).
      unfold emitted_note. cbn [MMFNote.time MMFNote.note MMFNote.duration
        MMFNote.velocity MMFNote.channel].
      repeat split; try lia; assumption.
    - rewrite length_app. cbn [length]. lia. }
  destruct (status =? 255).
  { destruct (Z.gtb_spec (MTRLoop.position st + 1 + 2) endPos).
    { intros [= <- <-]; loop_fields; repeat split; auto; lia. }
    destruct (Js.strict_eq _ 81 && Js.strict_eq _ 3).
    - destruct (Z.leb_spec (MTRLoop.position st + 1 + 1 + 1 + 3) endPos);
        cbn [andb].
      + intros [= <- <-]; loop_fields; repeat split; auto; lia.
      + destruct (data_at data (MTRLoop.position st + 1 + 1)) as [len|] eqn:Hl;
          [|intros [= <- <-]; loop_fields; repeat split; auto; lia].
        pose proof (data_at_range _ _ _ Hl).
        destruct (Z.leb_spec (MTRLoop.position st + 1 + 1 + 1 + len) endPos);
          intros [= <- <-]; loop_fields; repeat split; auto; lia.
    - cbn [andb].
      destruct (data_at data (MTRLoop.position st + 1 + 1)) as [len|] eqn:Hl;
        [|intros [= <- <-]; loop_fields; repeat split; auto; lia].
      pose proof (data_at_range _ _ _ Hl).
      destruct (Z.leb_spec (MTRLoop.position st + 1 + 1 + 1 + len) endPos);
        intros [= <- <-]; loop_fields; repeat split; auto; lia. }
  destruct (status <? 128) eqn:Hlt.
  { rewrite readVariableLength_first_byte by lia.
    intros [= <- <-]; loop_fields; repeat split; auto; lia. }
  destruct ((176 <=? status) && (status <=? 239)).
  { set (dataBytes := if (192 <=? status) && (status <=? 223) then 1 else 2).
    assert (1 <= dataBytes <= 2) by (unfold dataBytes; destruct (_ && _); lia).
    destruct (Z.leb_spec (MTRLoop.position st + 1 + dataBytes) endPos);
      intros [= <- <-]; loop_fields; repeat split; auto; lia. }
  destruct (Z.geb_spec (MTRLoop.position st + 1) endPos);
    intros [= <- <-]; loop_fields; repeat split; auto; lia.
Qed.

Lemma notes_accounted_loop fuel st r :
  parseMTR_loop data fuel endPos tickDuration st = Some r ->
  notes_accounted start endPos st -> notes_accounted start endPos r.
Proof.
  revert st. induction fuel as [|fuel IH]; intros st; simpl.
  - destruct (_ <? _); [discriminate|]. now intros [= <-].
  - destruct (Z.ltb_spec (MTRLoop.position st) (endPos - 1));
      [|now intros [= <-]].
    destruct (parseMTR_iteration data endPos tickDuration st)
      as [flow st'] eqn:E.
    intros Hr Hinv.
    pose proof (notes_accounted_iteration _ _ _ H E Hinv) as Hinv'.
    destruct flow; [eauto|]. now injection Hr as <-.
Qed.

End TrackNotes.

(** X8.  Every note [parseMTR] returns has a start time that is not
    negative, a pitch and a velocity that are bytes, the velocity not 0,
    a channel from 0 to 15 and the duration 250 ms.  A note takes three
    bytes of the chunk after the five of the sub-header, so a chunk of
    [size] bytes yields at most (size - 5) / 3 notes. *)
Theorem parseMTR_notes_are_well_formed data chunk :
  exists track,
    parseMTR data chunk (ChunkInfo.offset chunk)
    = Some (track, ChunkInfo.offset chunk + ChunkInfo.size chunk)
    /\ Forall emitted_note (TrackData.notes track)
    /\ 3 * Z.of_nat (length (TrackData.notes track))
       <= Z.max 0 (ChunkInfo.size chunk - 5).
Proof.
  destruct (parseMTR_total data chunk (ChunkInfo.offset chunk)) as [track H].
  exists track. split; [exact H|].
  destruct (Z.le_gt_cases (ChunkInfo.size chunk) 5) as [Hshort|Hlong].
  - unfold parseMTR in H.
    rewrite parseMTR_subheader_short in H by lia.
    injection H as <-. simpl. split; [constructor|lia].
  - rewrite (parseMTR_runs_loop data chunk Hlong) in H.
    destruct (parseMTR_loop _ _ _ _ _) as [r|] eqn:E; [|discriminate].
    simpl in H. injection H as <-. cbn [TrackData.notes].
    apply (notes_accounted_loop data (ChunkInfo.offset chunk + 5)) in E.
    + destruct E as (Hn & _ & Hc & Hp). split; [exact Hn|]. lia.
    + apply Qlt_le_weak, tickDuration_of_pos.
    + unfold parseMTR_loop_entry. repeat split; loop_fields;
        cbn [length]; try lia.
      * constructor.
      * apply Qle_refl.
Qed.

(* ================================================================== *)
(** ** A track is decoded from the bytes of its chunk alone *)
(* ================================================================== *)

Section ChunkLocality.

Variables data data' : list byte.
Variables lo endPos : Z.
Hypothesis Hsame : same_bytes data data' lo endPos.

Ltac same_reads :=
  repeat match goal with
         | |- context [data_at data' ?i] => rewrite <- (Hsame i) by lia
         end.

Lemma parseMTR_subheader_local position :
  lo <= position ->
  parseMTR_subheader data endPos position
  = parseMTR_subheader data' endPos position.
Proof.
  intros Hlo. unfold parseMTR_subheader, readUInt8.
  repeat (match goal with
          | |- context [?a >=? ?b] => destruct (Z.geb_spec a b)
          end; [reflexivity|]).
  same_reads. reflexivity.
Qed.

Lemma parseMTR_iteration_local tickDuration st :
  lo <= MTRLoop.position st < endPos - 1 ->
  parseMTR_iteration data endPos tickDuration st
  = parseMTR_iteration data' endPos tickDuration st.
Proof.
  intros Hp.
  unfold parseMTR_iteration, parseMTR_fallthrough, readUInt8, readUInt24BE.
  rewrite <- (Hsame (MTRLoop.position st)) by lia.
  destruct (data_at data (MTRLoop.position st)) as [status|] eqn:Hst;
    [|reflexivity].
  pose proof (data_at_range _ _ _ Hst) as Hr.
  destruct ((128 <=? status) && (status <=? 143)).
  { destruct (Z.gtb_spec (MTRLoop.position st + 1 + 2) endPos);
      reflexivity. }
  destruct ((144 <=? status) && (status <=? 159)).
  { destruct (Z.gtb_spec (MTRLoop.position st + 1 + 2) endPos);
      [reflexivity|]. same_reads. reflexivity. }
  destruct (status =? 255).
  { destruct (Z.gtb_spec (MTRLoop.position st + 1 + 2) endPos);
      [reflexivity|].
    same_reads.
    destruct (Z.leb_spec (MTRLoop.position st + 1 + 1 + 1 + 3) endPos).
    - same_reads. reflexivity.
    - rewrite !andb_false_r. reflexivity. }
  destruct (status <? 128) eqn:Hlt.
  { rewrite !readVariableLength_first_byte by lia. reflexivity. }
  reflexivity.
Qed.

Lemma parseMTR_loop_local tickDuration fuel st :
  lo <= MTRLoop.position st ->
  parseMTR_loop data fuel endPos tickDuration st
  = parseMTR_loop data' fuel endPos tickDuration st.
Proof.
  revert st. induction fuel as [|fuel IH]; intros st Hlo; simpl.
  - reflexivity.
  - destruct (Z.ltb_spec (MTRLoop.position st) (endPos - 1)); [|reflexivity].
    rewrite <- parseMTR_iteration_local by lia.
    destruct (parseMTR_iteration data endPos tickDuration st)
      as [flow st'] eqn:E.
    destruct flow; [|reflexivity].
    apply IH. apply parseMTR_iteration_advances in E. lia.
Qed.

End ChunkLocality.

(** X9.  [parseMTR] reads no byte outside its chunk: two buffers that
    agree on the bytes from the cursor up to the end of the chunk
    (offset + size, the end excluded) give the same notes, the same tempo
    and the same cursor, whatever else they contain and however long they
    are. *)
Theorem parseMTR_reads_only_its_chunk data data' chunk position :
  same_bytes data data' position
    (ChunkInfo.offset chunk + ChunkInfo.size chunk) ->
  parseMTR data chunk position = parseMTR data' chunk position.
Proof.
  intros Hsame. unfold parseMTR.
  rewrite <- (parseMTR_subheader_local data data' position _ Hsame position)
    by lia.
  destruct (parseMTR_subheader data _ position) as [[h p]|] eqn:E;
    [|reflexivity].
  assert (Hp : p = position + 5 /\ SubHeader.timeBaseD h
                                   = data_at data (position + 2)).
  { revert E. unfold parseMTR_subheader, readUInt8.
    repeat (match goal with
            | |- context [?a >=? ?b] => destruct (Z.geb_spec a b)
            end; [discriminate|]).
    intros [= <- <-]. simpl. split; [lia|].
    f_equal. lia. }
  destruct Hp as [-> Hd].
  rewrite <- (parseMTR_loop_local data data' position _ Hsame) by (simpl; lia).
  reflexivity.
Qed.

(** A note-on event in an eight-byte chunk; the second buffer holds four
    more bytes after the chunk. *)
Lemma parseMTR_reads_only_its_chunk_witness :
  parseMTR (bytes [0; 0; 4; 4; 0; 0x90; 60; 100])
    (ChunkInfo.mk (Js.lit "MTR") 8 0) 0
  = parseMTR (bytes [0; 0; 4; 4; 0; 0x90; 60; 100; 0x91; 61; 101; 0xFF])
      (ChunkInfo.mk (Js.lit "MTR") 8 0) 0.
Proof.
  apply parseMTR_reads_only_its_chunk.
  intros i Hi. simpl in Hi.
  assert (C : i = 0 \/ i = 1 \/ i = 2 \/ i = 3 \/ i = 4 \/ i = 5 \/ i = 6
              \/ i = 7) by lia.
  repeat (destruct C as [-> | C]; [reflexivity|]). subst i. reflexivity.
Defined.

(* ================================================================== *)
(** ** The duration of a document *)
(* ================================================================== *)

Lemma fold_Qmax_upper ends e :
  (e <= fold_left Qmax ends e)%Q
  /\ Forall (fun x => (x <= fold_left Qmax ends e)%Q) ends.
Proof.
  revert e. induction ends as [|x ends IH]; intros e; simpl.
  - split; [apply Qle_refl|constructor].
  - destruct (IH (Qmax e x)) as [H1 H2]. split; [|constructor].
    + eapply Qle_trans; [apply Q.le_max_l|exact H1].
    + eapply Qle_trans; [apply Q.le_max_r|exact H1].
    + exact H2.
Qed.

Lemma fold_Qmax_attained ends e :
  exists x, In x (e :: ends) /\ (fold_left Qmax ends e == x)%Q.
Proof.
  revert e. induction ends as [|y ends IH]; intros e; simpl.
  - exists e. split; [now left|reflexivity].
  - destruct (IH (Qmax e y)) as [x [[<- | Hin] Hx]].
    + destruct (Q.max_spec e y) as [[_ E] | [_ E]].
      * exists y. split; [right; now left|]. now rewrite Hx.
      * exists e. split; [now left|]. now rewrite Hx.
    + exists x. split; [right; now right|exact Hx].
Qed.

Lemma total_duration_latest_end notes :
  Forall (fun n => (note_end n <= total_duration notes)%Q) notes
  /\ (notes = [] -> total_duration notes = 0%Q)
  /\ (notes <> [] ->
      exists n, In n notes /\ (total_duration notes == note_end n)%Q).
Proof.
  unfold total_duration. destruct notes as [|n notes]; simpl.
  - repeat split; [constructor|congruence].
  - fold (note_end n).
    change (map (fun n => (MMFNote.time n + MMFNote.duration n)%Q) notes)
      with (map note_end notes).
    destruct (fold_Qmax_upper (map note_end notes) (note_end n)) as [H1 H2].
    repeat split.
    + constructor; [exact H1|].
      rewrite Forall_map in H2. exact H2.
    + discriminate.
    + intros _.
      destruct (fold_Qmax_attained (map note_end notes) (note_end n))
        as [x [[<- | Hin] Hx]].
      * exists n. split; [now left|exact Hx].
      * apply in_map_iff in Hin. destruct Hin as [m [<- Hm]].
        exists m. split; [now right|exact Hx].
Qed.

(** X10.  The duration of the document [parse] of [src/lib/mmf-parser.ts]
    returns is the latest end (time + duration) among its notes: no note
    ends after it, some note ends exactly then, and it is 0 when the
    document has no notes. *)
Theorem lib_parse_duration_is_latest_note_end dec data doc :
  LibRevision.parse dec data = Returned doc ->
  Forall (fun n => (note_end n <= MMFData.duration doc)%Q) (MMFData.notes doc)
  /\ (MMFData.notes doc = [] -> MMFData.duration doc = 0%Q)
  /\ (MMFData.notes doc <> [] ->
      exists n, In n (MMFData.notes doc)
                /\ (MMFData.duration doc == note_end n)%Q).
Proof.
  unfold LibRevision.parse.
  destruct (verifyHeader dec data 0) as [ok p].
  destruct (negb ok); [discriminate|].
  destruct (LibRevision.parse_run dec data) as [st|]; [|discriminate].
  intros [= <-]. cbn [MMFData.notes MMFData.duration].
  apply total_duration_latest_end.
Qed.

(** Two notes at 0 ms and 16 ms, each 250 ms long: the document lasts
    266 ms. *)
Lemma lib_parse_duration_is_latest_note_end_witness :
  let doc :=
    MMFData.mk MMFMetadata.empty
      [MMFNote.mk 0 60 250 100 0; MMFNote.mk 16 62 250 90 1] 266 (BPM 120) in
  LibRevision.parse None lib_song = Returned doc
  /\ Forall (fun n => (note_end n <= MMFData.duration doc)%Q)
       (MMFData.notes doc).
Proof.
  intros doc.
  assert (E : LibRevision.parse None lib_song = Returned doc) by reflexivity.
  split; [exact E|].
  exact (proj1 (lib_parse_duration_is_latest_note_end None lib_song doc E)).
Defined.

(* ================================================================== *)
(** ** A file with a content-information chunk, end to end *)
(* ================================================================== *)

Lemma data_at_prefix (l rest : list byte) i :
  0 <= i < Z.of_nat (length l) -> data_at (l ++ rest) i = data_at l i.
Proof.
  intros Hi. unfold data_at. rewrite length_app, Nat2Z.inj_add.
  rewrite nth_error_app1 by lia.
  destruct (Z.leb_spec 0 i); [|lia].
  destruct (Z.ltb_spec i (Z.of_nat (length l))); [|lia].
  destruct (Z.ltb_spec i (Z.of_nat (length l) + Z.of_nat (length rest)));
    [reflexivity|lia].
Qed.

Lemma data_at_four (b0 b1 b2 b3 : byte) :
  data_at [b0; b1; b2; b3] 0 = Some (Js.byte_value b0)
  /\ data_at [b0; b1; b2; b3] 1 = Some (Js.byte_value b1)
  /\ data_at [b0; b1; b2; b3] 2 = Some (Js.byte_value b2)
  /\ data_at [b0; b1; b2; b3] 3 = Some (Js.byte_value b3).
Proof. repeat split. Qed.

Lemma readUInt32BE_encoded pre n rest :
  0 <= n < 2 ^ 32 ->
  readUInt32BE (pre ++ encode_UInt32BE n ++ rest) (Z.of_nat (length pre))
  = (n, Z.of_nat (length pre) + 4).
Proof.
  intros Hn. rewrite readUInt32BE_value. cbv zeta. f_equal.
  rewrite !data_at_app by lia.
  rewrite !data_at_prefix by (unfold encode_UInt32BE; cbn [length]; lia).
  unfold encode_UInt32BE.
  match goal with
  | |- context [data_at [?b0; ?b1; ?b2; ?b3] _] =>
      destruct (data_at_four b0 b1 b2 b3) as (-> & -> & -> & ->)
  end.
  cbn [byte_or_zero].
  assert (B : forall z, Js.byte_value (Js.byte_of z) = z mod 256).
  { intros z. pose proof (Z.mod_pos_bound z 256 ltac:(lia)).
    rewrite <- (byte_value_of (z mod 256)) by lia.
    unfold Js.byte_of. rewrite Z.mod_mod by lia. reflexivity. }
  rewrite !B.
  change (2 ^ 24) with (256 * 256 * 256).
  change (2 ^ 16) with (256 * 256).
  change (2 ^ 8) with 256.
  change (2 ^ 32) with (256 * 256 * 256 * 256) in Hn.
  rewrite <- !Z.div_div by lia.
  pose proof (Z.div_mod n 256 ltac:(lia)).
  pose proof (Z.div_mod (n / 256) 256 ltac:(lia)).
  pose proof (Z.div_mod (n / 256 / 256) 256 ltac:(lia)).
  pose proof (Z.mod_pos_bound n 256 ltac:(lia)).
  pose proof (Z.mod_pos_bound (n / 256) 256 ltac:(lia)).
  pose proof (Z.mod_pos_bound (n / 256 / 256) 256 ltac:(lia)).
  assert (0 <= n / 256 / 256 / 256 < 256).
  { split.
    - repeat apply Z.div_pos; lia.
    - repeat (apply Z.div_lt_upper_bound; [lia|]). lia. }
  rewrite (Z.mod_small (n / 256 / 256 / 256)) by lia.
  lia.
Qed.

Lemma Object_assign_empty parsed :
  Object_assign MMFMetadata.empty parsed = parsed.
Proof. destruct parsed as [[?|] [?|] [?|] [?|]]; reflexivity. Qed.

(** X11.  A file made of the signature, any four bytes in the place of
    the file size, and one 'CNTI' chunk whose records (code, length, text)
    hold texts of 1 to 255 bytes, is parsed into a document with the
    decoded text of every record under its code, no notes, the duration 0
    and the tempo 120.  The four bytes of the file size have no effect.
    The platform decoder, when there is one, has to decode the two ASCII
    tags to themselves. *)
Theorem parse_reads_back_content_records dec fileSize records spare :
  decode_text dec MMMD = Js.lit "MMMD" ->
  decode_text dec CNTI = Js.lit "CNTI" ->
  length fileSize = 4%nat ->
  Forall record_ok records ->
  records <> [] ->
  (length spare <= 2)%nat ->
  Z.of_nat (length (encode_records records ++ spare)) < 2 ^ 32 ->
  parse dec (content_file fileSize records spare)
  = Returned
      (MMFData.mk (store_records dec records MMFMetadata.empty) [] 0
         (BPM 120)).
Proof.
  intros Hm Hc Hsize Hok Hne Hspare Hlen.
  set (payload := encode_records records ++ spare) in *.
  set (n := Z.of_nat (length payload)) in *.
  set (data := content_file fileSize records spare).
  assert (Hpl : (3 <= length payload)%nat).
  { pose proof (encode_records_length records Hok).
    unfold payload. rewrite length_app.
    destruct records; [congruence|]. cbn [length] in *. lia. }
  assert (Ldata : Z.of_nat (length data) = 16 + n).
  { unfold data, content_file. fold payload. fold n.
    rewrite !length_app, Hsize.
    change (length MMMD) with 4%nat. change (length CNTI) with 4%nat.
    change (length (encode_UInt32BE n)) with 4%nat. unfold n. lia. }
  assert (F1 : Js.slice data 0 (0 + 4) = MMMD).
  { exact (slice_middle [] MMMD _). }
  assert (F2 : Js.slice data 8 (8 + 4) = CNTI).
  { unfold data, content_file. fold payload. fold n.
    rewrite (app_assoc MMMD fileSize).
    replace 8 with (Z.of_nat (length (MMMD ++ fileSize)))
      by (rewrite length_app, Hsize; reflexivity).
    exact (slice_middle _ CNTI _). }
  assert (F3 : readUInt32BE data (8 + 4) = (n, 16)).
  { unfold data, content_file. fold payload. fold n.
    rewrite (app_assoc fileSize CNTI), (app_assoc MMMD).
    replace (8 + 4) with (Z.of_nat (length (MMMD ++ fileSize ++ CNTI)))
      by (rewrite !length_app, Hsize; reflexivity).
    rewrite readUInt32BE_encoded by (unfold n; lia).
    rewrite !length_app, Hsize. reflexivity. }
  assert (F4 : forall type,
             parseCNTI dec data (ChunkInfo.mk type n 16) 16
             = Some (store_records dec records MMFMetadata.empty, 16 + n)).
  { intros type.
    pose proof (parseCNTI_of_records dec type
                  (MMMD ++ fileSize ++ CNTI ++ encode_UInt32BE n)
                  records spare [] Hok Hspare) as H.
    cbv zeta in H. fold payload in H. fold n in H.
    replace (Z.of_nat (length (MMMD ++ fileSize ++ CNTI ++ encode_UInt32BE n)))
      with 16 in H by (rewrite !length_app, Hsize; reflexivity).
    rewrite app_nil_r, <- !app_assoc in H. exact H. }
  unfold parse, parse_run, verifyHeader, readString. rewrite F1, Hm.
  cbn [Js.string_eqb negb]. 
  replace (Js.string_eqb (Js.lit "MMMD") (Js.lit "MMMD")) with true
    by reflexivity.
  cbn [negb].
  unfold readUInt32BE at 1.
  change (0 + 4 + 4) with 8.
  assert (G : forall fuel st,
             ChunkLoop.position st = 16 + n ->
             parse_chunks dec data fuel st = Some st).
  { intros f st Hp. destruct f; cbn [parse_chunks]; rewrite Hp;
      destruct (Z.ltb_spec (16 + n) (Z.of_nat (length data) - 8));
      try reflexivity; lia. }
  assert (P : forall fuel,
             (0 < fuel)%nat ->
             parse_chunks dec data fuel (parse_loop_entry 8)
             = Some (ChunkLoop.mk (16 + n)
                       (store_records dec records MMFMetadata.empty) []
                       (BPM 120) [ChunkInfo.mk (Js.lit "CNTI") n 16])).
  { intros [|fuel] Hf; [lia|].
    cbn [parse_chunks parse_loop_entry ChunkLoop.position].
    destruct (Z.ltb_spec 8 (Z.of_nat (length data) - 8)); [|lia].
    unfold readChunkHeader, readString.
    destruct (Z.geb_spec 8 (Z.of_nat (length data) - 8)); [lia|].
    rewrite F2, Hc, F3.
    unfold parse_dispatch. cbn [ChunkInfo.type].
    replace (Js.string_eqb (Js.lit "CNTI") (Js.lit "CNTI")) with true
      by reflexivity.
    cbn [orb]. rewrite F4.
    cbn [ChunkLoop.metadata ChunkLoop.notes ChunkLoop.tempo ChunkLoop.chunks].
    rewrite Object_assign_empty.
    rewrite G by reflexivity. reflexivity. }
  rewrite P by lia. reflexivity.
Qed.

(** A title and a composer; the bytes of the file size are 0xFF. *)
Lemma parse_reads_back_content_records_witness :
  parse None
    (content_file (bytes [0xFF; 0xFF; 0xFF; 0xFF])
       [(0, bytes [0x48; 0x69]); (1, bytes [0x4D; 0x65])] [])
  = Returned
      (MMFData.mk
         (MMFMetadata.mk (Some (Js.lit "Hi")) (Some (Js.lit "Me")) None None)
         [] 0 (BPM 120)).
Proof.
  assert (Hok : Forall record_ok
                  [(0, bytes [0x48; 0x69]); (1, bytes [0x4D; 0x65])]).
  { repeat constructor; simpl; lia. }
  assert (Hne : [(0, bytes [0x48; 0x69]); (1, bytes [0x4D; 0x65])] <> [])
    by discriminate.
  assert (Hsp : (length (@nil byte) <= 2)%nat) by (simpl; lia).
  assert (Hlen : Z.of_nat
                   (length (encode_records
                              [(0, bytes [0x48; 0x69]); (1, bytes [0x4D; 0x65])]
                            ++ [])) < 2 ^ 32)
    by (simpl; lia).
  exact (parse_reads_back_content_records None
           (bytes [0xFF; 0xFF; 0xFF; 0xFF])
           [(0, bytes [0x48; 0x69]); (1, bytes [0x4D; 0x65])] []
           eq_refl eq_refl eq_refl Hok Hne Hsp Hlen).
Defined.
